(** * solid-ag-chat: the normalized event store and its persistence cache

    A shallow embedding of [createAgUiStore] (the event handlers and the
    imperative methods of the chat store) and of [persistence.ts], with the
    properties of the design document proved or refuted against them.

    The store is a Solid store ([createStore] of solid-js/store).  Its
    setter [setState(...path, value)] is a library function; the embedding
    follows the rules of its documentation (objects are always shallowly
    merged; set a value to [undefined] to delete it from the store):
    - a plain object written where an object already is, is merged into it
      key by key, one level deep; a key whose new value is [undefined] is
      deleted;
    - arrays, strings and numbers replace the previous value;
    - writing [undefined] at a key deletes the key;
    - a path that walks through a key that is not there raises a
      [TypeError], and what the handler wrote before stays written.
    Objects are embedded as records whose optional keys are [option]s and
    maps from ids as [gmap].  The embedding is by value.  For messages that
    is exact as long as every message is stored under its own id, which is
    how every handler stores them.  An attachment object is put both in the
    global map and in the agent state of the conversation that is active
    when it arrives, under its id in both; a later write through one path
    shows through the other in the source, which the embedding does not
    follow; the properties of attachments below are therefore stated for the
    global map and for the agent state of the active conversation when it
    holds no entry under the id written, and say nothing of the copies in
    other conversations. *)

From stdpp Require Import gmap strings list fin_maps.
From Stdlib Require Import ZArith Lia Sorted Ascii DecimalString.

Local Open Scope string_scope.
Local Open Scope list_scope.

(** ** Data model *)

Abbreviation Id := string (only parsing).

Inductive Role := RoleUser | RoleAssistant | RoleTool.

Inductive Status := Pending | Streaming | Completed | Errored | Canceled.

#[global] Instance Role_eq_dec : EqDecision Role.
Proof. solve_decision. Defined.

#[global] Instance Status_eq_dec : EqDecision Status.
Proof. solve_decision. Defined.

(** [{ id, type: 'function', function: { name, arguments } }] *)
Record ToolCall := mkToolCall {
  tc_id : Id;
  tc_name : string;
  tc_arguments : string
}.

#[global] Instance ToolCall_eq_dec : EqDecision ToolCall.
Proof. solve_decision. Defined.

(** Modelled from the spec: the declaration of [MessageDoc] (imported from
    '../types') is not among the sources.  The keys are those of the design
    document, [{id, role, content, conversationId, status, createdAt,
    toolCalls?, toolCallId?}], which are also the keys of the message
    literals the store builds. *)
Record MessageDoc := mkMessage {
  m_id : Id;
  m_role : Role;
  m_content : string;
  m_conversationId : option Id;
  m_status : Status;
  m_createdAt : option string;
  m_toolCalls : option (list ToolCall);
  m_toolCallId : option Id
}.

#[global] Instance MessageDoc_eq_dec : EqDecision MessageDoc.
Proof. solve_decision. Defined.

(** Modelled from the spec: the declaration of [ConversationDoc] (imported
    from '../types') is not among the sources; the design document gives
    [{id, title?, status, metadata}]. *)
Record ConversationDoc := mkConversation {
  c_id : Id;
  c_title : option string;
  c_status : option string;
  c_metadata : option (list (string * string))
}.

#[global] Instance ConversationDoc_eq_dec : EqDecision ConversationDoc.
Proof. solve_decision. Defined.

(** [UploadProgress] of services/uploadToPresignedUrl. *)
Record UploadProgress := mkProgress {
  loaded : Z;
  total : Z;
  percentage : Z
}.

#[global] Instance UploadProgress_eq_dec : EqDecision UploadProgress.
Proof. solve_decision. Defined.

(** What [metadata.error] holds: the object [{ code, message, details }]
    the upload hook sends (its [details], the [Error] itself, is left out),
    or a text. *)
Inductive ErrorValue :=
  | ErrorObject (code message : string)
  | ErrorText (t : string).

#[global] Instance ErrorValue_eq_dec : EqDecision ErrorValue.
Proof. solve_decision. Defined.

(** The open [metadata] bag of an attachment; the store writes [progress]
    and [error] into it. *)
Record AttachmentMeta := mkMeta {
  meta_progress : option UploadProgress;
  meta_error : option ErrorValue
}.

#[global] Instance AttachmentMeta_eq_dec : EqDecision AttachmentMeta.
Proof. solve_decision. Defined.

Inductive AttachmentState :=
  AttPending | AttUploading | AttUploaded | AttAvailable | AttFailed.

#[global] Instance AttachmentState_eq_dec : EqDecision AttachmentState.
Proof. solve_decision. Defined.

(** Modelled from the spec: the declaration of [AttachmentDoc] (imported
    from '../types') is not among the sources; the keys are those the design
    document lists, as the attachment literals of primitives/useFileUpload.ts
    spell them: [{ id, name, mime, size, upload_url, state, metadata }]. *)
Record AttachmentDoc := mkAttachment {
  a_id : Id;
  a_name : string;
  a_mime : string;
  a_size : Z;
  a_upload_url : string;
  a_state : AttachmentState;
  a_metadata : option AttachmentMeta
}.

#[global] Instance AttachmentDoc_eq_dec : EqDecision AttachmentDoc.
Proof. solve_decision. Defined.

(** [ChatAgentState] of types/state.ts: both keys are optional. *)
Record ChatAgentState := mkAgentState {
  suggestedQuestions : option (list string);
  ag_attachments : option (gmap Id AttachmentDoc)
}.

Abbreviation AgentStateMap := (gmap Id ChatAgentState) (only parsing).

Record ToolCallInProgress := mkInProgress {
  tp_id : Id;
  tp_name : string;
  tp_args : string;
  tp_messageId : Id
}.

(** The keys of the store, as [createAgUiStore] initialises them, and
    [activeConversationId], which the handlers set. *)
Record ChatState := mkState {
  revision : string;
  conversations : gmap Id ConversationDoc;
  messages : gmap Id MessageDoc;
  attachments : gmap Id AttachmentDoc;
  messagesByConversation : gmap Id (list Id);
  streaming : gmap Id string;
  toolCallsInProgress : gmap Id ToolCallInProgress;
  agentStateByConversation : gmap Id ChatAgentState;
  activeConversationId : option Id
}.

(** The state [createAgUiStore] starts from. *)
Definition initialState (persistedAgentState : option AgentStateMap) : ChatState :=
  {| revision := "0";
     conversations := ∅;
     messages := ∅;
     attachments := ∅;
     messagesByConversation := ∅;
     streaming := ∅;
     toolCallsInProgress := ∅;
     agentStateByConversation := default ∅ persistedAgentState;
     activeConversationId := None |}.

(** Functional record updates, one per top-level key of the store. *)
Definition set_conversations (f : gmap Id ConversationDoc → gmap Id ConversationDoc)
    (s : ChatState) : ChatState :=
  mkState (revision s) (f (conversations s)) (messages s) (attachments s)
    (messagesByConversation s) (streaming s) (toolCallsInProgress s)
    (agentStateByConversation s) (activeConversationId s).

Definition set_messages (f : gmap Id MessageDoc → gmap Id MessageDoc)
    (s : ChatState) : ChatState :=
  mkState (revision s) (conversations s) (f (messages s)) (attachments s)
    (messagesByConversation s) (streaming s) (toolCallsInProgress s)
    (agentStateByConversation s) (activeConversationId s).

Definition set_attachments (f : gmap Id AttachmentDoc → gmap Id AttachmentDoc)
    (s : ChatState) : ChatState :=
  mkState (revision s) (conversations s) (messages s) (f (attachments s))
    (messagesByConversation s) (streaming s) (toolCallsInProgress s)
    (agentStateByConversation s) (activeConversationId s).

Definition set_messagesByConversation (f : gmap Id (list Id) → gmap Id (list Id))
    (s : ChatState) : ChatState :=
  mkState (revision s) (conversations s) (messages s) (attachments s)
    (f (messagesByConversation s)) (streaming s) (toolCallsInProgress s)
    (agentStateByConversation s) (activeConversationId s).

Definition set_streaming (f : gmap Id string → gmap Id string)
    (s : ChatState) : ChatState :=
  mkState (revision s) (conversations s) (messages s) (attachments s)
    (messagesByConversation s) (f (streaming s)) (toolCallsInProgress s)
    (agentStateByConversation s) (activeConversationId s).

Definition set_toolCallsInProgress
    (f : gmap Id ToolCallInProgress → gmap Id ToolCallInProgress)
    (s : ChatState) : ChatState :=
  mkState (revision s) (conversations s) (messages s) (attachments s)
    (messagesByConversation s) (streaming s) (f (toolCallsInProgress s))
    (agentStateByConversation s) (activeConversationId s).

Definition set_agentStateByConversation
    (f : gmap Id ChatAgentState → gmap Id ChatAgentState)
    (s : ChatState) : ChatState :=
  mkState (revision s) (conversations s) (messages s) (attachments s)
    (messagesByConversation s) (streaming s) (toolCallsInProgress s)
    (f (agentStateByConversation s)) (activeConversationId s).

Definition set_activeConversationId (a : option Id) (s : ChatState) : ChatState :=
  mkState (revision s) (conversations s) (messages s) (attachments s)
    (messagesByConversation s) (streaming s) (toolCallsInProgress s)
    (agentStateByConversation s) a.

(** ** JavaScript truthiness on the values the handlers test *)

(** A string is truthy when it is not empty. *)
Definition nonEmpty (t : string) : bool :=
  match t with EmptyString => false | String _ _ => true end.

(** An optional string is truthy when it is there and not empty. *)
Definition truthy (o : option string) : bool :=
  match o with Some t => nonEmpty t | None => false end.

(** [a || b] on optional strings. *)
Definition js_or (a b : option string) : option string :=
  if truthy a then a else b.

(** [text || ''] *)
Definition orEmpty (o : option string) : string :=
  if truthy o then default "" o else "".

(** ** Outcome of a handler: it runs to its end, or it throws and leaves the
    state it had reached. *)

Inductive Outcome :=
  | Done (s : ChatState)
  | Threw (s : ChatState).

Definition stateOf (o : Outcome) : ChatState :=
  match o with Done s | Threw s => s end.

Definition andThen (o : Outcome) (k : ChatState → Outcome) : Outcome :=
  match o with Done s => k s | Threw s => Threw s end.

Notation "o >>> k" := (andThen o k) (at level 61, left associativity).

(** [setState('messages', id, key, v)]: the path walks through
    [messages[id]], which has to be there. *)
Definition setMessageKey (id : Id) (f : MessageDoc → MessageDoc) (s : ChatState) : Outcome :=
  match messages s !! id with
  | Some m => Done (set_messages (insert id (f m)) s)
  | None => Threw s
  end.

Definition withContent (t : string) (m : MessageDoc) : MessageDoc :=
  mkMessage (m_id m) (m_role m) t (m_conversationId m) (m_status m)
    (m_createdAt m) (m_toolCalls m) (m_toolCallId m).

Definition withStatus (st : Status) (m : MessageDoc) : MessageDoc :=
  mkMessage (m_id m) (m_role m) (m_content m) (m_conversationId m) st
    (m_createdAt m) (m_toolCalls m) (m_toolCallId m).

Definition withToolCalls (l : list ToolCall) (m : MessageDoc) : MessageDoc :=
  mkMessage (m_id m) (m_role m) (m_content m) (m_conversationId m) (m_status m)
    (m_createdAt m) (Some l) (m_toolCallId m).

(** [(arr = []) => arr.includes(id) ? arr : [...arr, id]] *)
Definition includes (id : Id) (arr : list Id) : bool := bool_decide (id ∈ arr).

Definition appendIfNew (id : Id) (arr : list Id) : list Id :=
  if includes id arr then arr else arr ++ [id].

Definition addToConversation (cid : Id) (id : Id) (s : ChatState) : ChatState :=
  set_messagesByConversation
    (insert cid (appendIfNew id (default [] (messagesByConversation s !! cid)))) s.

(** ** The event vocabulary

    Payloads are untyped bags in the source; a key the handler reads with a
    default ([p.role || 'assistant'], [delta || '']) is an [option] here. *)

Inductive Event :=
  | ConversationCreated (conversation : ConversationDoc)
  | ConversationUpdated (conversation : ConversationDoc)
  | ConversationArchived (conversationId : Id)
  | MessageCreated (message : MessageDoc)
  | TEXT_MESSAGE_START (messageId : Id) (role : option Role) (conversationId : option Id)
  | TEXT_MESSAGE_CONTENT (messageId : Id) (delta : option string)
  | TEXT_MESSAGE_END (messageId : Id)
  | MessageErrored (messageId : Id)
  | MessageCanceled (messageId : Id)
  | TOOL_CALL_START (parentMessageId toolCallId : Id) (toolCallName : string)
      (conversationId : option Id)
  | TOOL_CALL_ARGS (toolCallId : Id) (delta : option string)
  | TOOL_CALL_END (toolCallId : Id)
  | TOOL_CALL_RESULT (messageId toolCallId : Id) (content : option string)
      (role : option Role)
  | AttachmentUploading (attachment : AttachmentDoc)
  | AttachmentProgress (fileId : Id) (progress : UploadProgress)
  | AttachmentAvailable (attachment : AttachmentDoc)
  | AttachmentFailed (fileId : Id) (error : option ErrorValue)
  | STATE_SNAPSHOT (conversationId : option Id) (snapshot : option ChatAgentState).

(** ** Merging an object into the one already stored *)

(** An optional key of the incoming object: written when present, the stored
    one kept when absent. *)
Definition keep {A} (new old : option A) : option A :=
  match new with Some _ => new | None => old end.

Definition mergeConversation (prev c : ConversationDoc) : ConversationDoc :=
  mkConversation (c_id c) (keep (c_title c) (c_title prev))
    (keep (c_status c) (c_status prev)) (keep (c_metadata c) (c_metadata prev)).

Definition mergeMessage (prev m : MessageDoc) : MessageDoc :=
  mkMessage (m_id m) (m_role m) (m_content m)
    (keep (m_conversationId m) (m_conversationId prev)) (m_status m)
    (keep (m_createdAt m) (m_createdAt prev))
    (keep (m_toolCalls m) (m_toolCalls prev))
    (keep (m_toolCallId m) (m_toolCallId prev)).

Definition mergeAttachment (prev a : AttachmentDoc) : AttachmentDoc :=
  mkAttachment (a_id a) (a_name a) (a_mime a) (a_size a) (a_upload_url a)
    (a_state a) (keep (a_metadata a) (a_metadata prev)).

(** [setState(key, id, obj)]: merged into the stored object, or stored. *)
Definition mergeAt {V} (merge : V → V → V) (id : Id) (v : V) (m : gmap Id V) : gmap Id V :=
  match m !! id with
  | Some prev => <[id := merge prev v]> m
  | None => <[id := v]> m
  end.

(** ** Conversation events *)

Definition onConversationCreated (c : ConversationDoc) (s : ChatState) : Outcome :=
  Done (set_activeConversationId (Some (c_id c))
          (set_conversations (mergeAt mergeConversation (c_id c) c) s)).

Definition onConversationUpdated (c : ConversationDoc) (s : ChatState) : Outcome :=
  Done (set_conversations (mergeAt mergeConversation (c_id c) c) s).

Definition onConversationArchived (id : Id) (s : ChatState) : Outcome :=
  match conversations s !! id with
  | Some c =>
      Done (set_conversations
              (insert id (mkConversation (c_id c) (c_title c) (Some "archived") (c_metadata c))) s)
  | None => Threw s
  end.

(** ** Message events *)

(** Legacy [message.created]: the sequence is keyed by [m.conversationId]
    without a guard; with the key missing the setter is handed [undefined]
    as a path segment and fails on it. *)
Definition onMessageCreated (m : MessageDoc) (s : ChatState) : Outcome :=
  let s1 := set_messages (mergeAt mergeMessage (m_id m) m) s in
  match m_conversationId m with
  | Some cid => Done (addToConversation cid (m_id m) s1)
  | None => Threw s1
  end.

(** The message literal of TEXT_MESSAGE_START names six keys, so merging it
    into a stored message overwrites those six ([conversationId] is deleted
    when it evaluates to [undefined]) and keeps [toolCalls] and
    [toolCallId]. *)
Definition onTextMessageStart (now : string) (messageId : Id) (role : option Role)
    (conversationId : option Id) (s : ChatState) : Outcome :=
  let cid := js_or conversationId (activeConversationId s) in
  let msg :=
    match messages s !! messageId with
    | Some prev =>
        mkMessage messageId (default RoleAssistant role) "" cid Streaming (Some now)
          (m_toolCalls prev) (m_toolCallId prev)
    | None =>
        mkMessage messageId (default RoleAssistant role) "" cid Streaming (Some now)
          None None
    end in
  let s1 := set_messages (insert messageId msg) s in
  let s2 :=
    match cid with
    | Some c =>
        if nonEmpty c then
          let currentArray := default [] (messagesByConversation s1 !! c) in
          if includes messageId currentArray then s1
          else set_messagesByConversation (insert c (currentArray ++ [messageId])) s1
        else s1
    | None => s1
    end in
  Done (set_streaming (insert messageId "") s2).

Definition onTextMessageContent (messageId : Id) (delta : option string)
    (s : ChatState) : Outcome :=
  Done (set_streaming
          (insert messageId (default "" (streaming s !! messageId) +:+ orEmpty delta)) s).

Definition onTextMessageEnd (messageId : Id) (s : ChatState) : Outcome :=
  let streamingText := streaming s !! messageId in
  (if truthy streamingText
   then setMessageKey messageId (withContent (default "" streamingText)) s
   else Done s)
  >>> (fun s => Done (set_streaming (delete messageId) s))
  >>> setMessageKey messageId (withStatus Completed).

Definition onMessageErrored (messageId : Id) (s : ChatState) : Outcome :=
  setMessageKey messageId (withStatus Errored) s.

Definition onMessageCanceled (messageId : Id) (s : ChatState) : Outcome :=
  let streamingState := streaming s !! messageId in
  (if truthy streamingState
   then setMessageKey messageId (withContent (default "" streamingState)) s
   else Done s)
  >>> setMessageKey messageId (withStatus Canceled).

(** ** Tool-call events *)

Definition onToolCallStart (now : string) (parentMessageId toolCallId : Id)
    (toolCallName : string) (conversationId : option Id) (s : ChatState) : Outcome :=
  let s1 :=
    match messages s !! parentMessageId with
    | Some _ => s
    | None =>
        let cid := js_or conversationId (activeConversationId s) in
        let parentMessage :=
          mkMessage parentMessageId RoleAssistant "" cid Completed (Some now) None None in
        let s' := set_messages (insert parentMessageId parentMessage) s in
        match cid with
        | Some c => if nonEmpty c then addToConversation c parentMessageId s' else s'
        | None => s'
        end
    end in
  Done (set_toolCallsInProgress
          (insert toolCallId (mkInProgress toolCallId toolCallName "" parentMessageId)) s1).

(** [setState('toolCallsInProgress', toolCallId, 'args', ...)] walks through
    the entry, which has to be there. *)
Definition onToolCallArgs (toolCallId : Id) (delta : option string) (s : ChatState) : Outcome :=
  match toolCallsInProgress s !! toolCallId with
  | Some tc =>
      Done (set_toolCallsInProgress
              (insert toolCallId
                 (mkInProgress (tp_id tc) (tp_name tc) (tp_args tc +:+ orEmpty delta)
                    (tp_messageId tc))) s)
  | None => Threw s
  end.

(** [arr.some(existing => existing.id === id)] *)
Definition hasToolCall (id : Id) (arr : list ToolCall) : bool :=
  existsb (fun existing => bool_decide (tc_id existing = id)) arr.

Definition appendToolCall (toolCall : ToolCall) (arr : list ToolCall) : list ToolCall :=
  if hasToolCall (tc_id toolCall) arr then arr else arr ++ [toolCall].

Definition onToolCallEnd (toolCallId : Id) (s : ChatState) : Outcome :=
  match toolCallsInProgress s !! toolCallId with
  | Some tc =>
      let s1 :=
        match messages s !! tp_messageId tc with
        | Some msg =>
            let toolCall := mkToolCall (tp_id tc) (tp_name tc) (tp_args tc) in
            set_messages
              (insert (tp_messageId tc)
                 (withToolCalls (appendToolCall toolCall (default [] (m_toolCalls msg))) msg)) s
        | None => s
        end in
      Done (set_toolCallsInProgress (delete toolCallId) s1)
  | None => Done s
  end.

(** [Object.values(state.messages)] lists the messages in the engine's
    property order.  The map keeps no insertion order, so the embedding lists
    them in the order of the map; the two differ only in which parent is
    found first when several messages carry the same tool-call id. *)
Definition objectValues (m : gmap Id MessageDoc) : list MessageDoc :=
  (map_to_list m).*2.

Definition findParent (toolCallId : Id) (s : ChatState) : option MessageDoc :=
  snd <$> list_find
    (fun m => hasToolCall toolCallId (default [] (m_toolCalls m)) = true)
    (objectValues (messages s)).

Definition onToolCallResult (now : string) (messageId toolCallId : Id)
    (content : option string) (role : option Role) (s : ChatState) : Outcome :=
  let parentMessage := findParent toolCallId s in
  let conversationId :=
    js_or (match parentMessage with Some p => m_conversationId p | None => None end)
      (activeConversationId s) in
  let toolMessage :=
    mkMessage messageId (default RoleTool role) (orEmpty content) conversationId
      Completed (Some now) None (Some toolCallId) in
  let stored :=
    match messages s !! messageId with
    | Some prev =>
        mkMessage messageId (default RoleTool role) (orEmpty content) conversationId
          Completed (Some now) (m_toolCalls prev) (Some toolCallId)
    | None => toolMessage
    end in
  let s1 := set_messages (insert messageId stored) s in
  Done match conversationId with
       | Some c => if nonEmpty c then addToConversation c messageId s1 else s1
       | None => s1
       end.

(** ** Attachment events *)

Definition emptyAgentState : ChatAgentState := mkAgentState None None.

(** [{ ...prevState, attachments: { ...(prevState.attachments || {}),
      [attachment.id]: attachment } }] *)
Definition putAttachment (a : AttachmentDoc) (prevState : ChatAgentState) : ChatAgentState :=
  mkAgentState (suggestedQuestions prevState)
    (Some (<[a_id a := a]> (default ∅ (ag_attachments prevState)))).

(** The dual write of [attachment.uploading] and [attachment.available]. *)
Definition storeAttachment (a : AttachmentDoc) (s : ChatState) : Outcome :=
  let s1 := set_attachments (mergeAt mergeAttachment (a_id a) a) s in
  Done match activeConversationId s1 with
       | Some conversationId =>
           if nonEmpty conversationId then
             set_agentStateByConversation
               (fun ag => <[conversationId :=
                  putAttachment a (default emptyAgentState (ag !! conversationId))]> ag) s1
           else s1
       | None => s1
       end.

Definition withProgress (progress : UploadProgress) (a : AttachmentDoc) : AttachmentDoc :=
  mkAttachment (a_id a) (a_name a) (a_mime a) (a_size a) (a_upload_url a) (a_state a)
    (Some (mkMeta (Some progress)
             (match a_metadata a with Some meta => meta_error meta | None => None end))).

Definition onAttachmentProgress (fileId : Id) (progress : UploadProgress) (s : ChatState)
    : Outcome :=
  match attachments s !! fileId with
  | Some a => Done (set_attachments (insert fileId (withProgress progress a)) s)
  | None => Done s
  end.

(** [error || 'Upload failed']: an object is truthy, a text is when it is
    not empty. *)
Definition errorOrDefault (error : option ErrorValue) : ErrorValue :=
  match error with
  | Some (ErrorObject code message) => ErrorObject code message
  | Some (ErrorText t) => if nonEmpty t then ErrorText t else ErrorText "Upload failed"
  | None => ErrorText "Upload failed"
  end.

(** [state = 'failed'] and [metadata = { ...meta, error: error || 'Upload failed' }] *)
Definition markFailed (error : option ErrorValue) (a : AttachmentDoc) : AttachmentDoc :=
  mkAttachment (a_id a) (a_name a) (a_mime a) (a_size a) (a_upload_url a) AttFailed
    (Some (mkMeta (match a_metadata a with Some meta => meta_progress meta | None => None end)
             (Some (errorOrDefault error)))).

(** [state.agentStateByConversation[conversationId]?.attachments?.[fileId]] *)
Definition conversationAttachment (conversationId fileId : Id) (s : ChatState)
    : option AttachmentDoc :=
  match agentStateByConversation s !! conversationId with
  | Some st =>
      match ag_attachments st with
      | Some atts => atts !! fileId
      | None => None
      end
  | None => None
  end.

Definition onAttachmentFailed (fileId : Id) (error : option ErrorValue) (s : ChatState)
    : Outcome :=
  let s1 :=
    match attachments s !! fileId with
    | Some a => set_attachments (insert fileId (markFailed error a)) s
    | None => s
    end in
  Done match activeConversationId s1 with
       | Some conversationId =>
           if nonEmpty conversationId then
             match conversationAttachment conversationId fileId s1 with
             | Some a =>
                 set_agentStateByConversation
                   (fun ag =>
                      match ag !! conversationId with
                      | Some st =>
                          <[conversationId :=
                             mkAgentState (suggestedQuestions st)
                               (Some (<[fileId := markFailed error a]>
                                        (default ∅ (ag_attachments st))))]> ag
                      | None => ag
                      end) s1
             | None => s1
             end
           else s1
       | None => s1
       end.

(** ** Agent-state snapshots: [{ ...prevState, ...p.snapshot }] *)

Definition mergeAgentState (prevState snapshot : ChatAgentState) : ChatAgentState :=
  mkAgentState (keep (suggestedQuestions snapshot) (suggestedQuestions prevState))
    (keep (ag_attachments snapshot) (ag_attachments prevState)).

Definition onStateSnapshot (conversationId : option Id) (snapshot : option ChatAgentState)
    (s : ChatState) : Outcome :=
  match js_or conversationId (activeConversationId s), snapshot with
  | Some c, Some snap =>
      if nonEmpty c then
        Done (set_agentStateByConversation
                (fun ag => <[c := mergeAgentState (default emptyAgentState (ag !! c)) snap]> ag) s)
      else Done s
  | _, _ => Done s
  end.

(** ** The subscription table: one handler per event kind.  [now] is the
    clock reading [new Date().toISOString()] gives while the handler runs. *)

Definition handle (now : string) (ev : Event) (s : ChatState) : Outcome :=
  match ev with
  | ConversationCreated c => onConversationCreated c s
  | ConversationUpdated c => onConversationUpdated c s
  | ConversationArchived id => onConversationArchived id s
  | MessageCreated m => onMessageCreated m s
  | TEXT_MESSAGE_START id role cid => onTextMessageStart now id role cid s
  | TEXT_MESSAGE_CONTENT id delta => onTextMessageContent id delta s
  | TEXT_MESSAGE_END id => onTextMessageEnd id s
  | MessageErrored id => onMessageErrored id s
  | MessageCanceled id => onMessageCanceled id s
  | TOOL_CALL_START parent tc name cid => onToolCallStart now parent tc name cid s
  | TOOL_CALL_ARGS tc delta => onToolCallArgs tc delta s
  | TOOL_CALL_END tc => onToolCallEnd tc s
  | TOOL_CALL_RESULT id tc content role => onToolCallResult now id tc content role s
  | AttachmentUploading a => storeAttachment a s
  | AttachmentProgress fileId progress => onAttachmentProgress fileId progress s
  | AttachmentAvailable a => storeAttachment a s
  | AttachmentFailed fileId error => onAttachmentFailed fileId error s
  | STATE_SNAPSHOT cid snapshot => onStateSnapshot cid snapshot s
  end.

(** Events delivered one after the other, each with the clock reading of its
    delivery; the run stops at the first handler that throws. *)
Fixpoint deliver (evs : list (string * Event)) (s : ChatState) : Outcome :=
  match evs with
  | [] => Done s
  | (now, ev) :: rest => handle now ev s >>> deliver rest
  end.

(** ** The imperative methods of the store

    The client is the remote side.  A call on it is recorded in the request
    log of the store; an [await] splits a method into the part that runs up
    to the call and the part that runs when the answer arrives, and events
    may be handled in between. *)

Inductive Request :=
  | ListConversations
  | GetMessages (conversationId : Id)
  | SetActiveThread (id : Id).

#[global] Instance Request_eq_dec : EqDecision Request.
Proof. solve_decision. Defined.

(** The [getMessages] requests among the calls made on the client. *)
Definition fetchesOf (conversationId : Id) (log : list Request) : list Request :=
  filter (fun r => r = GetMessages conversationId) log.

Record Store := mkStore {
  state : ChatState;
  loadedConversations : gset Id;
  loadingConversations : gset Id;
  clientHasSetActiveThread : bool;
  requests : list Request
}.

Definition createAgUiStore (persistedAgentState : option AgentStateMap)
    (hasSetActiveThread : bool) : Store :=
  mkStore (initialState persistedAgentState) ∅ ∅ hasSetActiveThread [].

Definition withState (f : ChatState → ChatState) (st : Store) : Store :=
  mkStore (f (state st)) (loadedConversations st) (loadingConversations st)
    (clientHasSetActiveThread st) (requests st).

(** An event arriving at the store; a handler that throws leaves what it
    wrote. *)
Definition dispatch (now : string) (ev : Event) (st : Store) : Store :=
  withState (fun s => stateOf (handle now ev s)) st.

Definition dispatchAll (evs : list (string * Event)) (st : Store) : Store :=
  foldl (fun acc e => dispatch e.1 e.2 acc) st evs.

(** [setState(key, obj)] on a map of the store: every key of [obj] is set on
    the stored map, the keys [obj] does not have stay. *)
Definition mergeStoreNode {V} (value prev : gmap Id V) : gmap Id V := value ∪ prev.

(** [conversations.forEach(c => { conversationsMap[c.id] = c })] *)
Definition conversationsMap (fetched : list ConversationDoc) : gmap Id ConversationDoc :=
  foldl (fun acc c => <[c_id c := c]> acc) ∅ fetched.

Definition loadConversations_call (st : Store) : Store :=
  mkStore (state st) (loadedConversations st) (loadingConversations st)
    (clientHasSetActiveThread st) (requests st ++ [ListConversations]).

(** The rest of [loadConversations], run when the list has arrived:
    [setState('conversations', conversationsMap)]. *)
Definition loadConversations_resolve (fetched : list ConversationDoc) (st : Store) : Store :=
  withState (set_conversations (mergeStoreNode (conversationsMap fetched))) st.

(** [setState('attachments', {})] hands the setter an object with no keys. *)
Definition setActiveConversation (id : Id) (st : Store) : Store :=
  let st1 :=
    withState (fun s => set_attachments (mergeStoreNode ∅)
                          (set_activeConversationId (Some id) s)) st in
  if clientHasSetActiveThread st1
  then mkStore (state st1) (loadedConversations st1) (loadingConversations st1)
         (clientHasSetActiveThread st1) (requests st1 ++ [SetActiveThread id])
  else st1.

Section LoadMessages.

(** [new Date(text).getTime()] for the timestamps of the messages: the
    time of a text that is a date, and NaN ([None]) for a text that is not
    (an Invalid Date). *)
Variable parseDate : string → option Z.

(** [new Date(m.createdAt || 0).getTime()] *)
Definition timeOf (m : MessageDoc) : option Z :=
  if truthy (m_createdAt m) then parseDate (default "" (m_createdAt m)) else Some 0%Z.

(** The comparator [(a, b) => time(a) - time(b)]: the difference is NaN
    when one of the two times is. *)
Definition byCreatedAt (a b : MessageDoc) : option Z :=
  match timeOf a, timeOf b with
  | Some ta, Some tb => Some (ta - tb)%Z
  | _, _ => None
  end.

(** What the sort makes of the answer of the comparator: [a] goes before
    [b] unless the answer is positive, and an answer that is NaN counts as
    zero. *)
Definition goesBefore (a b : MessageDoc) : bool :=
  match byCreatedAt a b with
  | Some d => (d <=? 0)%Z
  | None => true
  end.

(** [Array.prototype.sort] with this comparator.  The sort is stable, so
    as long as every time is a number its result is the one of a stable
    insertion sort.  With a time that is NaN the comparator is not
    consistent and the language leaves the order to the engine; the
    insertion below then leaves a message in front of the first one it
    cannot be compared with, which is where Node leaves the three messages
    of the example further down.  The properties speak of the order only
    where every time is a number. *)
Fixpoint insertByTime (x : MessageDoc) (l : list MessageDoc) : list MessageDoc :=
  match l with
  | [] => [x]
  | y :: rest =>
      if goesBefore x y then x :: y :: rest
      else y :: insertByTime x rest
  end.

Definition sortByCreatedAt (l : list MessageDoc) : list MessageDoc :=
  foldr insertByTime [] l.

(** [finalMessages.forEach(m => { setState('messages', m.id, m); ... })] *)
Definition storeAll (l : list MessageDoc) (s : ChatState) : ChatState :=
  foldl (fun acc m => set_messages (mergeAt mergeMessage (m_id m) m) acc) s l.

(** [(state.messagesByConversation[id] || []).map(id => state.messages[id])
      .filter(Boolean)] *)
Definition localMessages (conversationId : Id) (s : ChatState) : list MessageDoc :=
  omap (fun id => messages s !! id)
    (default [] (messagesByConversation s !! conversationId)).

(** [m.status === 'streaming' || m.id.startsWith('msg_')] *)
Definition isOptimistic (m : MessageDoc) : bool :=
  bool_decide (m_status m = Streaming) || String.prefix "msg_" (m_id m).

Definition inIds (id : Id) (ids : list Id) : bool := bool_decide (id ∈ ids).

(** The part of [loadMessages] that runs on the state once the fetch has
    answered. *)
Definition reconcile (conversationId : Id) (fetched : list MessageDoc)
    (s : ChatState) : ChatState :=
  let currentMessagesAfterFetch := localMessages conversationId s in
  let preserveMessages := List.filter isOptimistic currentMessagesAfterFetch in
  let serverIds := m_id <$> fetched in
  let finalMessages :=
    sortByCreatedAt
      (List.filter (fun m => negb (inIds (m_id m) serverIds)) preserveMessages
         ++ fetched) in
  let s1 := storeAll finalMessages s in
  let messageIds := m_id <$> finalMessages in
  let carryOverIds :=
    m_id <$> List.filter
               (fun m => isOptimistic m && negb (inIds (m_id m) messageIds))
               (localMessages conversationId s1) in
  set_messagesByConversation (insert conversationId (messageIds ++ carryOverIds)) s1.

Inductive LoadCall := Skipped | Fetching.

(** [loadMessages] up to [await client.getMessages(conversationId)]: the
    two guards, then the call is marked as in flight and the requests go
    out.  (The messages read before the fetch are only logged.) *)
Definition loadMessages_call (conversationId : Id) (force : bool) (st : Store)
    : LoadCall * Store :=
  if bool_decide (conversationId ∈ loadingConversations st) then (Skipped, st)
  else if negb force && bool_decide (conversationId ∈ loadedConversations st)
  then (Skipped, st)
  else
    (Fetching,
     mkStore (state st) (loadedConversations st)
       ({[conversationId]} ∪ loadingConversations st)
       (clientHasSetActiveThread st)
       (requests st
          ++ (if clientHasSetActiveThread st then [SetActiveThread conversationId] else [])
          ++ [GetMessages conversationId])).

(** The fetch answered: reconcile, mark as loaded, and ([finally]) clear
    the in-flight mark. *)
Definition loadMessages_resolve (conversationId : Id) (fetched : list MessageDoc)
    (st : Store) : Store :=
  mkStore (reconcile conversationId fetched (state st))
    ({[conversationId]} ∪ loadedConversations st)
    (loadingConversations st ∖ {[conversationId]})
    (clientHasSetActiveThread st) (requests st).

(** The fetch failed: only the [finally] block runs. *)
Definition loadMessages_reject (conversationId : Id) (st : Store) : Store :=
  mkStore (state st) (loadedConversations st)
    (loadingConversations st ∖ {[conversationId]})
    (clientHasSetActiveThread st) (requests st).

(** The instant of a message in the words of the design document: its
    [createdAt], a missing one counting as epoch 0. *)
Definition instantOf (m : MessageDoc) : option Z :=
  match m_createdAt m with
  | Some t => parseDate t
  | None => Some 0%Z
  end.

(** Ascending [createdAt]: both messages have an instant, and the one of
    the first is not after the one of the second. *)
Definition ascending (a b : MessageDoc) : Prop :=
  ∃ ta tb, instantOf a = Some ta ∧ instantOf b = Some tb ∧ (ta ≤ tb)%Z.

(** The [createdAt] of the message, when it has one, is a text that is a
    date. *)
Definition dated (m : MessageDoc) : Prop :=
  ∀ t, m_createdAt m = Some t → nonEmpty t = true ∧ is_Some (parseDate t).

(** The retention rule in the words of the design document: the local
    messages that are still streaming or carry the client-generated id
    prefix, and whose id is not in the server result. *)
Definition retained (conversationId : Id) (fetched : list MessageDoc) (s : ChatState)
    : list MessageDoc :=
  List.filter
    (fun m => isOptimistic m && negb (inIds (m_id m) (m_id <$> fetched)))
    (localMessages conversationId s).

End LoadMessages.

(** ** The persistence cache (store/persistence.ts)

    The snapshot is written as JSON text under one key of [localStorage].
    [JSON.stringify], [JSON.parse] and [localStorage] are the platform's;
    the two JSON functions are parameters of the embedding, and the storage
    is a map from keys to texts with a quota, whose [setItem] throws
    [QuotaExceededError] when the quota would be exceeded. *)

#[warnings="-register-all"]
Inductive json :=
  | JNull
  | JBool (b : bool)
  | JNum (n : Z)
  | JStr (t : string)
  | JArr (items : list json)
  | JObj (members : list (string * json)).

Record LocalStorage := mkLocalStorage {
  items : gmap string string;
  quota : nat
}.

Definition getItem (key : string) (ls : LocalStorage) : option string :=
  items ls !! key.

(** The characters the stored keys and texts take up. *)
Definition usage (m : gmap string string) : nat :=
  map_fold (fun k v n => String.length k + String.length v + n) 0 m.

(** [None]: the call throws. *)
Definition setItem (key value : string) (ls : LocalStorage) : option LocalStorage :=
  if bool_decide (usage (<[key := value]> (items ls)) ≤ quota ls)%nat
  then Some (mkLocalStorage (<[key := value]> (items ls)) (quota ls))
  else None.

Definition removeItem (key : string) (ls : LocalStorage) : LocalStorage :=
  mkLocalStorage (delete key (items ls)) (quota ls).

Definition STORAGE_KEY : string := "solid-ag-chat:agentState".
Definition STORAGE_VERSION : Z := 1.

(** [obj[key]] on a parsed object ([None]: [undefined]). *)
Fixpoint member (key : string) (members : list (string * json)) : option json :=
  match members with
  | [] => None
  | (k, v) :: rest => if bool_decide (k = key) then Some v else member key rest
  end.

(** [{ version: STORAGE_VERSION, timestamp: Date.now(), data: state }] *)
Definition persistedData (now : Z) (state : list (string * json)) : json :=
  JObj [("version", JNum STORAGE_VERSION); ("timestamp", JNum now); ("data", JObj state)].

Section Persistence.

(** [JSON.stringify] on JSON values, and [JSON.parse], which throws
    ([None]) on a text that is not JSON. *)
Variable JSON_stringify : json → string.
Variable JSON_parse : string → option json.

(** [saveAgentState]: a failing write is caught and logged, the storage
    stays as it was.  [now] is the reading of [Date.now()]. *)
Definition saveAgentState (now : Z) (state : list (string * json)) (ls : LocalStorage)
    : LocalStorage :=
  let serialized := JSON_stringify (persistedData now state) in
  match setItem STORAGE_KEY serialized ls with
  | Some ls' => ls'
  | None => ls
  end.

(** [loadAgentState] ([None]: the function returns [null]).  Reading
    [parsed.version] off [null] throws, and so does [Object.keys(parsed.data)]
    in the log line when [data] is missing or [null]; both are caught. *)
Definition loadAgentState (ls : LocalStorage) : option json :=
  match getItem STORAGE_KEY ls with
  | None => None
  | Some stored =>
      if nonEmpty stored then
        match JSON_parse stored with
        | None => None
        | Some (JObj members) =>
            match member "version" members with
            | Some (JNum v) =>
                if bool_decide (v = STORAGE_VERSION) then
                  match member "data" members with
                  | Some JNull | None => None
                  | Some data => Some data
                  end
                else None
            | _ => None
            end
        | Some _ => None
        end
      else None
  end.

(** [clearPersistedState] *)
Definition clearPersistedState (ls : LocalStorage) : LocalStorage :=
  removeItem STORAGE_KEY ls.

(** The version tag of what is stored: no version when the text does not
    parse to an object or the object has no [version]. *)
Definition storedVersion (stored : string) : option json :=
  match JSON_parse stored with
  | Some (JObj members) => member "version" members
  | _ => None
  end.

(** The round trip as the design document states it, for every snapshot. *)
Definition roundTrips (now : Z) (state : list (string * json)) (ls : LocalStorage) : Prop :=
  loadAgentState (saveAgentState now state ls) = Some (JObj state).

End Persistence.

(** ** A JSON codec for the examples

    An instance of the platform's pair of functions: compact text without
    white space, as [JSON.stringify] writes it, with the quote and the
    backslash escaped in strings and integers in decimal. *)

Definition dquote : ascii := Ascii.ascii_of_nat 34.
Definition backslash : ascii := Ascii.ascii_of_nat 92.

Fixpoint escape (t : string) : string :=
  match t with
  | EmptyString => EmptyString
  | String c rest =>
      if Ascii.eqb c dquote || Ascii.eqb c backslash
      then String backslash (String c (escape rest))
      else String c (escape rest)
  end.

Definition quoted (t : string) : string :=
  String dquote (escape t +:+ String dquote EmptyString).

Definition printZ (n : Z) : string := NilZero.string_of_int (Z.to_int n).

Fixpoint joinWith (sep : string) (l : list string) : string :=
  match l with
  | [] => ""
  | [x] => x
  | x :: rest => x +:+ sep +:+ joinWith sep rest
  end.

Fixpoint printJson (v : json) : string :=
  match v with
  | JNull => "null"
  | JBool true => "true"
  | JBool false => "false"
  | JNum n => printZ n
  | JStr t => quoted t
  | JArr l => "[" +:+ joinWith "," (List.map printJson l) +:+ "]"
  | JObj l =>
      "{" +:+ joinWith ","
                (List.map (fun kv => match kv with
                                     | (k, v) => quoted k +:+ ":" +:+ printJson v
                                     end) l) +:+ "}"
  end.

(** The text after an opening quote, up to the closing one. *)
Fixpoint parseStringBody (t : string) : option (string * string) :=
  match t with
  | EmptyString => None
  | String c rest =>
      if Ascii.eqb c dquote then Some (EmptyString, rest)
      else if Ascii.eqb c backslash then
        match rest with
        | String c' rest' =>
            match parseStringBody rest' with
            | Some (body, r) => Some (String c' body, r)
            | None => None
            end
        | EmptyString => None
        end
      else
        match parseStringBody rest with
        | Some (body, r) => Some (String c body, r)
        | None => None
        end
  end.

Definition digitOf (c : ascii) : option Z :=
  let n := Z.of_nat (Ascii.nat_of_ascii c) in
  if ((48 <=? n) && (n <=? 57))%Z then Some (n - 48)%Z else None.

Fixpoint parseDigits (acc : Z) (t : string) : Z * string :=
  match t with
  | String c rest =>
      match digitOf c with
      | Some d => parseDigits (10 * acc + d)%Z rest
      | None => (acc, t)
      end
  | EmptyString => (acc, t)
  end.

Definition parseNumber (t : string) : option (Z * string) :=
  match t with
  | String c rest =>
      if Ascii.eqb c "-" then
        match rest with
        | String d _ =>
            match digitOf d with
            | Some _ => let (n, r) := parseDigits 0 rest in Some ((- n)%Z, r)
            | None => None
            end
        | EmptyString => None
        end
      else
        match digitOf c with
        | Some _ => Some (parseDigits 0 t)
        | None => None
        end
  | EmptyString => None
  end.

Fixpoint stripPrefix (p t : string) : option string :=
  match p, t with
  | EmptyString, _ => Some t
  | String a p', String b t' => if Ascii.eqb a b then stripPrefix p' t' else None
  | String _ _, EmptyString => None
  end.

Fixpoint parseValue (fuel : nat) (t : string) : option (json * string) :=
  match fuel with
  | O => None
  | S fuel' =>
      match t with
      | EmptyString => None
      | String c rest =>
          if Ascii.eqb c "n" then pair JNull <$> stripPrefix "null" t
          else if Ascii.eqb c "t" then pair (JBool true) <$> stripPrefix "true" t
          else if Ascii.eqb c "f" then pair (JBool false) <$> stripPrefix "false" t
          else if Ascii.eqb c dquote then
            match parseStringBody rest with
            | Some (body, r) => Some (JStr body, r)
            | None => None
            end
          else if Ascii.eqb c "[" then
            match rest with
            | String d r =>
                if Ascii.eqb d "]" then Some (JArr [], r)
                else match parseItems fuel' rest with
                     | Some (l, r') => Some (JArr l, r')
                     | None => None
                     end
            | EmptyString => None
            end
          else if Ascii.eqb c "{" then
            match rest with
            | String d r =>
                if Ascii.eqb d "}" then Some (JObj [], r)
                else match parseMembers fuel' rest with
                     | Some (l, r') => Some (JObj l, r')
                     | None => None
                     end
            | EmptyString => None
            end
          else
            match parseNumber t with
            | Some (n, r) => Some (JNum n, r)
            | None => None
            end
      end
  end
with parseItems (fuel : nat) (t : string) : option (list json * string) :=
  match fuel with
  | O => None
  | S fuel' =>
      match parseValue fuel' t with
      | Some (v, String c r) =>
          if Ascii.eqb c "," then
            match parseItems fuel' r with
            | Some (l, r') => Some (v :: l, r')
            | None => None
            end
          else if Ascii.eqb c "]" then Some ([v], r)
          else None
      | _ => None
      end
  end
with parseMembers (fuel : nat) (t : string) : option (list (string * json) * string) :=
  match fuel with
  | O => None
  | S fuel' =>
      match t with
      | String q rest =>
          if Ascii.eqb q dquote then
            match parseStringBody rest with
            | Some (k, String colon r) =>
                if Ascii.eqb colon ":" then
                  match parseValue fuel' r with
                  | Some (v, String c r') =>
                      if Ascii.eqb c "," then
                        match parseMembers fuel' r' with
                        | Some (l, r'') => Some ((k, v) :: l, r'')
                        | None => None
                        end
                      else if Ascii.eqb c "}" then Some ([(k, v)], r')
                      else None
                  | _ => None
                  end
                else None
            | _ => None
            end
          else None
      | EmptyString => None
      end
  end.

(** The whole text has to be one value. *)
Definition parseJson (t : string) : option json :=
  match parseValue (2 * String.length t + 2) t with
  | Some (v, EmptyString) => Some v
  | _ => None
  end.

(** ** The debugging view of the cache *)

Section PersistenceViews.

Variable JSON_parse : string → option json.

(** [viewPersistedState]: the stored record as [JSON.parse] reads it, with
    no check of its version ([JNull]: [null], also when the parse throws). *)
Definition viewPersistedState (ls : LocalStorage) : json :=
  match getItem STORAGE_KEY ls with
  | None => JNull
  | Some stored =>
      if nonEmpty stored then default JNull (JSON_parse stored) else JNull
  end.

End PersistenceViews.

(** ** [debounce(fn, delay)]

    The closure keeps [timeoutId]; the timer it names is the only one of the
    closure that is pending.  [setTimeout] and [clearTimeout] are the
    platform's: a pending timer has a due time, and runs its callback when
    the event loop takes a turn at or after that time. *)

Record Timer (A : Type) := mkTimer {
  due : Z;
  args : A
}.

Arguments mkTimer {A}.

Arguments due {A}.

Arguments args {A}.

(** [timeoutId] together with the timer it names ([None]: [null]). *)
Definition Debounced (A : Type) : Type := option (Timer A).

(** A call of the debounced function at time [now]: the pending timer, if
    there is one, is cleared, and a new one is set. *)
Definition debounced {A} (delay : Z) (now : Z) (a : A) (timeoutId : Debounced A)
    : Debounced A :=
  Some (mkTimer (now + delay)%Z a).

(** The event loop takes a turn at time [now]: a timer that is due runs
    [fn(...args)] and resets [timeoutId].  ([fn] is taken to return, as
    [saveAgentState] does; [now] is the clock reading [fn] finds.) *)
Definition timersRun {A E} (fn : Z → A → E → E) (now : Z) (st : Debounced A * E)
    : Debounced A * E :=
  match st.1 with
  | Some t => if (due t <=? now)%Z then (None, fn now (args t) st.2) else st
  | None => st
  end.

Inductive Tick (A : Type) :=
  | Called (now : Z) (a : A)
  | Elapsed (now : Z).

Arguments Called {A}.

Arguments Elapsed {A}.

Definition tick {A E} (fn : Z → A → E → E) (delay : Z) (st : Debounced A * E)
    (e : Tick A) : Debounced A * E :=
  match e with
  | Called now a => (debounced delay now a st.1, st.2)
  | Elapsed now => timersRun fn now st
  end.

Definition isCalled {A} (e : Tick A) : bool :=
  match e with Called _ _ => true | Elapsed _ => false end.

(** [debouncedSaveAgentState = debounce(saveAgentState, 500)]; the snapshot
    is the value the caller handed over. *)
Definition debouncedSaveAgentState (now : Z) (state : list (string * json))
    (timeoutId : Debounced (list (string * json))) : Debounced (list (string * json)) :=
  debounced 500 now state timeoutId.

(** ** The conversation hook (useConversation)

    The memos of the hook are functions of the store's state; [id] is the
    value the hook was given ([None]: no id, or an accessor that returns
    [undefined]). *)

Module UseConversation.

Section Hook.

Variable parseDate : string → option Z.

(** [idValue || ctx.state.activeConversationId] *)
Definition conversationId (id : option Id) (s : ChatState) : option Id :=
  js_or id (activeConversationId s).

(** The [messages] memo: the ids of the sequence, mapped to the stored
    messages, the missing ones dropped, sorted by [createdAt]. *)
Definition messages (id : option Id) (s : ChatState) : list MessageDoc :=
  match conversationId id s with
  | Some cid =>
      if nonEmpty cid then sortByCreatedAt parseDate (localMessages cid s) else []
  | None => []
  end.

(** [messages().some(m => m.status === 'streaming')] *)
Definition isStreaming (id : option Id) (s : ChatState) : bool :=
  existsb (fun m => bool_decide (m_status m = Streaming)) (messages id s).

(** [load]: [None] stands for the [Error] thrown when there is no
    conversation id; otherwise [ctx.loadMessages(cid)], up to its await. *)
Definition load (id : option Id) (st : Store) : option (LoadCall * Store) :=
  match conversationId id (state st) with
  | Some cid => if nonEmpty cid then Some (loadMessages_call cid false st) else None
  | None => None
  end.

End Hook.

End UseConversation.

(** ** The upload hook (primitives/useFileUpload.ts)

    [uploadFile] awaits the upload service three times; each phase below is
    the code that runs between two awaits, on the [uploads] signal of the
    hook, together with the events it emits on the client.  The answers of
    the service, the temporary id ([Date.now()] and [Math.random()]) and the
    progress reports are inputs.  The optional callbacks of the
    configuration are taken not to throw. *)

Module UseFileUpload.

Inductive UploadStatus := UpPending | UpUploading | UpCompleted | UpFailed.

(** What the hook reads of a [File]. *)
Record FileInfo := mkFile {
  file_name : string;
  file_type : string;
  file_size : Z
}.

(** [FileUploadState].  Every key is optional in this record: an update of
    an entry that [cancelUpload] has removed spreads [undefined] and leaves
    an object with the updated keys only. *)
Record FileUploadState := mkUpload {
  u_fileId : option Id;
  u_file : option FileInfo;
  u_progress : option UploadProgress;
  u_status : option UploadStatus;
  u_error : option string;
  u_contentId : option string
}.

Abbreviation Uploads := (gmap Id FileUploadState) (only parsing).

Definition noKeys : FileUploadState := mkUpload None None None None None None.

(** [{ ...prev, [tempId]: { ...prev[tempId], <keys> } }] *)
Definition update (tempId : Id) (f : FileUploadState → FileUploadState)
    (prev : Uploads) : Uploads :=
  <[tempId := f (default noKeys (prev !! tempId))]> prev.

Definition setContentId (content_id : string) (e : FileUploadState) : FileUploadState :=
  mkUpload (u_fileId e) (u_file e) (u_progress e) (u_status e) (u_error e)
    (Some content_id).

Definition setStatus (st : UploadStatus) (e : FileUploadState) : FileUploadState :=
  mkUpload (u_fileId e) (u_file e) (u_progress e) (Some st) (u_error e) (u_contentId e).

Definition setProgress (p : UploadProgress) (e : FileUploadState) : FileUploadState :=
  mkUpload (u_fileId e) (u_file e) (Some p) (u_status e) (u_error e) (u_contentId e).

Definition setError (message : string) (e : FileUploadState) : FileUploadState :=
  mkUpload (u_fileId e) (u_file e) (u_progress e) (u_status e) (Some message)
    (u_contentId e).

(** The attachment literals of [uploadFile]; [metadata] is [{}]. *)
Definition uploadingAttachment (content_id : Id) (file : FileInfo) : AttachmentDoc :=
  mkAttachment content_id (file_name file) (file_type file) (file_size file) ""
    AttUploading (Some (mkMeta None None)).

(** [state: result.status === 'available' ? 'available' : 'uploaded'] *)
Definition completedAttachment (content_id : Id) (upload_url : string) (file : FileInfo)
    (status : string) : AttachmentDoc :=
  mkAttachment content_id (file_name file) (file_type file) (file_size file) upload_url
    (if bool_decide (status = "available") then AttAvailable else AttUploaded)
    (Some (mkMeta None None)).

(** [owner_type], [file_name] and [mime_type] of the initiate request. *)
Definition initiateRequest (conversationId : option string) (file : FileInfo)
    : string * string * string :=
  (if truthy conversationId then "conversation" else "user", file_name file, file_type file).

(** The code of [uploadFile] between its awaits, [cancelUpload],
    [clearUploads], and the timer that removes a completed entry. *)
Inductive Phase :=
  | Started (file : FileInfo) (tempId : Id)
  | Initiated (tempId : Id) (file : FileInfo) (content_id : Id)
  | Progressed (tempId content_id : Id) (progress : UploadProgress)
  | Finished (tempId : Id) (file : FileInfo) (content_id : Id) (upload_url status : string)
  | CleanedUp (tempId : Id)
  | Failed (tempId : Id) (message : string)
  | CancelUpload (fileId : Id)
  | ClearUploads.

(** [state.status === 'uploading' || state.status === 'pending'] *)
Definition inFlight (e : FileUploadState) : bool :=
  match u_status e with
  | Some UpUploading | Some UpPending => true
  | _ => false
  end.

(** [uploads()[tempId]?.contentId || tempId] *)
Definition reportedId (tempId : Id) (uploads : Uploads) : Id :=
  default tempId (js_or (uploads !! tempId ≫= u_contentId) (Some tempId)).

(** One phase: the new value of the signal and the events emitted. *)
Definition step (ph : Phase) (uploads : Uploads) : Uploads * list Event :=
  match ph with
  | Started file tempId =>
      (<[tempId := mkUpload (Some tempId) (Some file)
                     (Some (mkProgress 0 (file_size file) 0)) (Some UpPending)
                     None None]> uploads,
       [])
  | Initiated tempId file content_id =>
      (update tempId (setStatus UpUploading)
         (update tempId (setContentId content_id) uploads),
       [AttachmentUploading (uploadingAttachment content_id file)])
  | Progressed tempId content_id progress =>
      (update tempId (setProgress progress) uploads,
       [AttachmentProgress content_id progress])
  | Finished tempId file content_id upload_url status =>
      (update tempId (fun e => setContentId content_id (setStatus UpCompleted e)) uploads,
       [AttachmentAvailable (completedAttachment content_id upload_url file status)])
  | CleanedUp tempId => (delete tempId uploads, [])
  | Failed tempId message =>
      let uploads' :=
        update tempId (fun e => setError message (setStatus UpFailed e)) uploads in
      (uploads',
       [AttachmentFailed (reportedId tempId uploads')
          (Some (ErrorObject "UPLOAD_FAILED" message))])
  | CancelUpload fileId => (delete fileId uploads, [])
  | ClearUploads => (filter (fun kv => inFlight kv.2 = true) uploads, [])
  end.

(** Modelled from the spec: the hook emits its events on the event bus the
    store is subscribed to, so each phase is followed by the store handling
    the events of the phase, in order.  (The client that carries the events
    is not among the sources.) *)
Definition perform (now : string) (ph : Phase) (st : Uploads * ChatState)
    : Uploads * ChatState :=
  let '(uploads, evs) := step ph st.1 in
  (uploads, foldl (fun acc ev => stateOf (handle now ev acc)) st.2 evs).

Definition performAll (now : string) (phases : list Phase) (st : Uploads * ChatState)
    : Uploads * ChatState :=
  foldl (fun acc ph => perform now ph acc) st phases.

(** An answer of the upload service: the promise resolves, or rejects with
    an [Error] that carries a message. *)
Inductive Answer (A : Type) :=
  | Resolved (a : A)
  | Rejected (message : string).

Arguments Resolved {A}.

Arguments Rejected {A}.

(** What the service does during one [uploadFile]: the answer to the
    initiate request ([content_id] and [upload_url]), the progress reports
    of the transfer and its end, and the answer to the completion request
    (its [status]). *)
Record Service := mkService {
  initiate : Answer (Id * string);
  reports : list UploadProgress;
  transfer : Answer unit;
  complete : Answer string
}.

(** The phases one [uploadFile] runs through, and what its promise settles
    to. *)
Definition uploadFile (file : FileInfo) (tempId : Id) (svc : Service)
    : list Phase * Answer Id :=
  match initiate svc with
  | Rejected message => ([Started file tempId; Failed tempId message], Rejected message)
  | Resolved (content_id, upload_url) =>
      let sent :=
        Started file tempId :: Initiated tempId file content_id
          :: (Progressed tempId content_id <$> reports svc) in
      match transfer svc with
      | Rejected message => (sent ++ [Failed tempId message], Rejected message)
      | Resolved _ =>
          match complete svc with
          | Rejected message => (sent ++ [Failed tempId message], Rejected message)
          | Resolved status =>
              (sent ++ [Finished tempId file content_id upload_url status],
               Resolved content_id)
          end
      end
  end.

End UseFileUpload.

(** * Statements and scenarios

    The notions the properties below are stated with, and the concrete
    stores their examples run on. *)

(** The deltas of a stream, joined in order; a missing delta counts as the
    empty string, as [delta || ''] does. *)
Definition joinDeltas (deltas : list (option string)) : string :=
  foldr (fun d acc => orEmpty d +:+ acc) "" deltas.

Definition contentEvents (m : Id) (deltas : list (string * option string))
    : list (string * Event) :=
  (fun td => (td.1, TEXT_MESSAGE_CONTENT m td.2)) <$> deltas.

(** The concatenation of the deltas in the words of the design document:
    the texts of the events one after the other, in the order of the
    events; an event that carries no delta has no text to add. *)
Fixpoint concatenated (deltas : list (option string)) : string :=
  match deltas with
  | [] => ""
  | Some text :: rest => text +:+ concatenated rest
  | None :: rest => concatenated rest
  end.

(** The scenario of the design document: START, CONTENT("ab"), cancel. *)
Definition partialStream : ChatState :=
  stateOf (deliver [("t0", TEXT_MESSAGE_START "m1" None (Some "c1"));
                    ("t1", TEXT_MESSAGE_CONTENT "m1" (Some "ab"))] (initialState None)).

Definition argsEvents (tc : Id) (deltas : list (string * option string))
    : list (string * Event) :=
  (fun td => (td.1, TOOL_CALL_ARGS tc td.2)) <$> deltas.

(** The finalized entries of a message that carry a given tool-call id. *)
Definition entriesFor (tc : Id) (calls : list ToolCall) : list ToolCall :=
  filter (fun e => tc_id e = tc) calls.

(** The tool-call round trip as the design document words it: after
    START(tc, parent = p), the ARGS deltas and END(tc), the parent message
    holds exactly one entry with id [tc], its arguments are the deltas joined
    in order, the in-progress entry is gone, and END(tc) delivered again
    changes nothing (so it adds no second entry). *)
Definition toolCallRoundTrip (s : ChatState) (p tc : Id) (name : string)
    (conversationId : option Id) (tStart tEnd : string)
    (deltas : list (string * option string)) : Prop :=
  ∃ s' pm calls,
    deliver ((tStart, TOOL_CALL_START p tc name conversationId)
               :: argsEvents tc deltas ++ [(tEnd, TOOL_CALL_END tc)]) s = Done s'
    ∧ messages s' !! p = Some pm
    ∧ m_toolCalls pm = Some calls
    ∧ entriesFor tc calls = [mkToolCall tc name (joinDeltas deltas.*2)]
    ∧ toolCallsInProgress s' !! tc = None
    ∧ ∀ again, handle again (TOOL_CALL_END tc) s' = Done s'.

(** The tool call is new to its parent: the parent, if it is there, holds no
    finalized entry with this id yet. *)
Definition freshToolCall (s : ChatState) (p tc : Id) : Prop :=
  ∀ msg, messages s !! p = Some msg →
         hasToolCall tc (default [] (m_toolCalls msg)) = false.

(** A tool call that already went through START, ARGS("a") and END. *)
Definition finishedToolCall : ChatState :=
  stateOf (deliver [("t0", TOOL_CALL_START "p1" "tc1" "search" (Some "c1"));
                    ("t1", TOOL_CALL_ARGS "tc1" (Some "a"));
                    ("t2", TOOL_CALL_END "tc1")] (initialState None)).

(** The file id has no entry in the attachments of the active conversation's
    agent state: there is no active conversation, or it has no agent state,
    or that state has no attachments, or they do not hold the id. *)
Definition absentFromActiveConversation (s : ChatState) (fileId : Id) : Prop :=
  ∀ conversationId,
    activeConversationId s = Some conversationId →
    conversationAttachment conversationId fileId s = None.

(** An upload that failed before the conversation ever heard of it: the
    attachment is in the global map only, conversation "c1" is active. *)
Definition failedUploadState : ChatState :=
  set_attachments
    (insert "f1" (mkAttachment "f1" "a.png" "image/png" 10 "" AttUploading
                    (Some (mkMeta None None))))
    (set_agentStateByConversation
       (insert "c1" (mkAgentState (Some ["why?"]) None))
       (set_activeConversationId (Some "c1") (initialState None))).

Definition isTerminal (st : Status) : bool :=
  match st with
  | Completed | Errored | Canceled => true
  | Pending | Streaming => false
  end.

(** The events that write the content of message [m] in state [s]: the
    events that store a whole message under the id of [m], and END or cancel
    for [m] while a non-empty streaming buffer for [m] is there. *)
Definition rewritesContent (m : Id) (s : ChatState) (ev : Event) : bool :=
  match ev with
  | TEXT_MESSAGE_START id _ _ => bool_decide (id = m)
  | MessageCreated msg => bool_decide (m_id msg = m)
  | TOOL_CALL_RESULT id _ _ _ => bool_decide (id = m)
  | TEXT_MESSAGE_END id | MessageCanceled id =>
      bool_decide (id = m) && truthy (streaming s !! m)
  | _ => false
  end.

(** The property as the design document states it: once the status of a message
    is terminal, no event changes its content. *)
Definition contentFrozen (s : ChatState) (m : Id) (now : string) (ev : Event) : Prop :=
  ∀ msg, messages s !! m = Some msg → isTerminal (m_status msg) = true →
         ∃ msg', messages (stateOf (handle now ev s)) !! m = Some msg'
                 ∧ m_content msg' = m_content msg.

(** A message streamed to its end: content "ab", status [completed]. *)
Definition completedStream : ChatState :=
  stateOf (deliver [("t0", TEXT_MESSAGE_START "m1" None (Some "c1"));
                    ("t1", TEXT_MESSAGE_CONTENT "m1" (Some "ab"));
                    ("t2", TEXT_MESSAGE_END "m1")] (initialState None)).

(** A message cancelled in mid-stream, after which one more delta arrived:
    status [canceled], content "ab", and the buffer, which cancel leaves in
    place, at "abc". *)
Definition canceledStream : ChatState :=
  stateOf (deliver [("t0", TEXT_MESSAGE_START "m1" None (Some "c1"));
                    ("t1", TEXT_MESSAGE_CONTENT "m1" (Some "ab"));
                    ("t2", MessageCanceled "m1");
                    ("t3", TEXT_MESSAGE_CONTENT "m1" (Some "c"))] (initialState None)).

(** A clock for the examples: timestamps are written as runs of ticks, and
    a longer run is a later instant. *)
Definition tickClock (t : string) : option Z := Some (Z.of_nat (String.length t)).

(** The same clock, reading only what is written in ticks: any other text
    is an Invalid Date, whose time is NaN. *)
Fixpoint onlyTicks (t : string) : bool :=
  match t with
  | EmptyString => true
  | String c rest => if Ascii.ascii_dec c "|"%char then onlyTicks rest else false
  end.

Definition strictClock (t : string) : option Z :=
  if onlyTicks t then tickClock t else None.

(** The scenario of the design document: the local message "b" is still
    streaming, the server answers with "a" and its own copy of "b". *)
Definition streamingB : Store :=
  dispatchAll [("||", TEXT_MESSAGE_START "b" None (Some "c1"));
               ("||", TEXT_MESSAGE_CONTENT "b" (Some "par"))]
    (createAgUiStore None false).

Definition serverA : MessageDoc :=
  mkMessage "a" RoleUser "question" (Some "c1") Completed (Some "|") None None.

Definition serverB : MessageDoc :=
  mkMessage "b" RoleAssistant "answer" (Some "c1") Completed (Some "|||") None None.

(** One optional key of the message stored under a server id, under the
    rule of the design document that the server copy wins: where the server
    copy has the key, the stored message has the value of the server copy;
    where it has not, the stored message has what was stored before. *)
Definition serverKeyWins {A} (server before stored : option A) : Prop :=
  match server with
  | Some v => stored = Some v
  | None => stored = before
  end.

(** The server copy wins over what was stored under its id before the load:
    id, role, content and status of the stored message are the ones of the
    server copy, and so is every optional key the server copy has. *)
Definition serverCopyWins (before : option MessageDoc) (server stored : MessageDoc) : Prop :=
  m_id stored = m_id server
  ∧ m_role stored = m_role server
  ∧ m_content stored = m_content server
  ∧ m_status stored = m_status server
  ∧ serverKeyWins (m_conversationId server) (before ≫= m_conversationId)
      (m_conversationId stored)
  ∧ serverKeyWins (m_createdAt server) (before ≫= m_createdAt) (m_createdAt stored)
  ∧ serverKeyWins (m_toolCalls server) (before ≫= m_toolCalls) (m_toolCalls stored)
  ∧ serverKeyWins (m_toolCallId server) (before ≫= m_toolCallId) (m_toolCallId stored).

(** A server answer with a [createdAt] that is not a date: "a" is the
    latest message, "b" the earliest, and the [createdAt] of "x" cannot be
    read. *)
Definition lateA : MessageDoc :=
  mkMessage "a" RoleUser "first" (Some "c1") Completed (Some "|||") None None.

Definition unreadableX : MessageDoc :=
  mkMessage "x" RoleAssistant "second" (Some "c1") Completed (Some "soon") None None.

Definition earlyB : MessageDoc :=
  mkMessage "b" RoleUser "third" (Some "c1") Completed (Some "|") None None.

(** The property as the design document states it: after the load the
    conversation map holds exactly the conversations of the fetched list. *)
Definition replacedWholesale (fetched : list ConversationDoc) (st : Store) : Prop :=
  ∀ id, conversations (state (loadConversations_resolve fetched st)) !! id
        = conversationsMap fetched !! id.

(** A store that knows conversation "old". *)
Definition knowsOld : Store :=
  dispatchAll [("t0", ConversationCreated (mkConversation "old" (Some "Old") None None))]
    (createAgUiStore None false).

Definition sampleSnapshot : list (string * json) :=
  [("c1", JObj [("suggestedQuestions", JObj [("questions", JArr [JStr "why?"])]);
                ("attachments",
                 JObj [("f1", JObj [("id", JStr "f1"); ("size", JNum 10);
                                    ("state", JStr "available")])])])].

Definition emptyStorage (quota : nat) : LocalStorage := mkLocalStorage ∅ quota.

(** A record of an older format, as some earlier version wrote it. *)
Definition olderRecord : string :=
  printJson (JObj [("version", JNum 0); ("timestamp", JNum 1600); ("data", JObj [])]).

(** ** Notions for the properties of the store as a whole, and of its
    collaborators *)

(** Every message is stored under its own id. *)
Definition keyedById (s : ChatState) : Prop :=
  ∀ k m, messages s !! k = Some m → m_id m = k.

(** No id occurs twice in the sequence of a conversation. *)
Definition sequencesNoDup (s : ChatState) : Prop :=
  ∀ c l, messagesByConversation s !! c = Some l → NoDup l.

(** Every id of a sequence is the key of a stored message. *)
Definition sequencesStored (s : ChatState) : Prop :=
  ∀ c l id, messagesByConversation s !! c = Some l → id ∈ l →
            is_Some (messages s !! id).

(** The parent message of every tool call in progress is stored. *)
Definition parentsStored (s : ChatState) : Prop :=
  ∀ tc e, toolCallsInProgress s !! tc = Some e →
          is_Some (messages s !! tp_messageId e).

(** What one handler run can do to the three maps the invariants speak of:
    at most one message is written, at most one id is appended to one
    sequence, at most one tool call in progress is written or removed. *)
Record stepShape (s s' : ChatState) : Prop := mkStepShape {
  shape_messages :
    messages s' = messages s
    ∨ ∃ k m', messages s' = <[k := m']> (messages s)
              ∧ (m_id m' = k
                 ∨ ∃ m0, messages s !! k = Some m0 ∧ m_id m' = m_id m0);
  shape_sequences :
    messagesByConversation s' = messagesByConversation s
    ∨ ∃ c id,
        let cur := default [] (messagesByConversation s !! c) in
        (id ∉ cur)
        ∧ messagesByConversation s' = <[c := cur ++ [id]]> (messagesByConversation s)
        ∧ is_Some (messages s' !! id);
  shape_tools :
    toolCallsInProgress s' = toolCallsInProgress s
    ∨ (∃ tc e, toolCallsInProgress s' = <[tc := e]> (toolCallsInProgress s)
               ∧ (is_Some (messages s' !! tp_messageId e)
                  ∨ ∃ e0, toolCallsInProgress s !! tc = Some e0
                          ∧ tp_messageId e = tp_messageId e0))
    ∨ ∃ tc, toolCallsInProgress s' = delete tc (toolCallsInProgress s)
}.

Definition isConversationEvent (ev : Event) : bool :=
  match ev with
  | ConversationCreated _ | ConversationUpdated _ | ConversationArchived _ => true
  | _ => false
  end.

Definition isAttachmentEvent (ev : Event) : bool :=
  match ev with
  | AttachmentUploading _ | AttachmentProgress _ _ | AttachmentAvailable _
  | AttachmentFailed _ _ => true
  | _ => false
  end.

Definition isSnapshotEvent (ev : Event) : bool :=
  match ev with STATE_SNAPSHOT _ _ => true | _ => false end.

Definition isConversationCreated (ev : Event) : bool :=
  match ev with ConversationCreated _ => true | _ => false end.

Definition isNone {A} (o : option A) : bool :=
  match o with None => true | Some _ => false end.

(** The events whose handler throws in state [s]. *)
Definition throwsOn (ev : Event) (s : ChatState) : bool :=
  match ev with
  | ConversationArchived id => isNone (conversations s !! id)
  | MessageCreated m => isNone (m_conversationId m)
  | TEXT_MESSAGE_END id | MessageErrored id | MessageCanceled id =>
      isNone (messages s !! id)
  | TOOL_CALL_ARGS tc _ => isNone (toolCallsInProgress s !! tc)
  | _ => false
  end.

Definition isMessageCreated (ev : Event) : bool :=
  match ev with MessageCreated _ => true | _ => false end.

(** Events arriving one after the other; what a handler wrote before it
    threw stays written. *)
Definition arrive (evs : list (string * Event)) (s : ChatState) : ChatState :=
  foldl (fun acc e => stateOf (handle e.1 e.2 acc)) s evs.

(** Every tool call in progress is stored under its own id. *)
Definition toolsKeyed (s : ChatState) : Prop :=
  ∀ k e, toolCallsInProgress s !! k = Some e → tp_id e = k.

(** An event that is not one of tool call [tc], and does not store a whole
    message under the id of its parent [p]. *)
Definition foreignTo (tc p : Id) (ev : Event) : bool :=
  match ev with
  | TOOL_CALL_START _ tc' _ _ | TOOL_CALL_ARGS tc' _ | TOOL_CALL_END tc' =>
      negb (bool_decide (tc' = tc))
  | MessageCreated m => negb (bool_decide (m_id m = p))
  | _ => true
  end.

(** The delta of an ARGS event of tool call [tc]. *)
Definition ownDelta (tc : Id) (ev : Event) : option (option string) :=
  match ev with
  | TOOL_CALL_ARGS tc' delta => if bool_decide (tc' = tc) then Some delta else None
  | _ => None
  end.

Definition ownDeltas (tc : Id) (evs : list (string * Event)) : list (option string) :=
  omap (fun e => ownDelta tc e.2) evs.

(** Between START and END of [tc]: its own ARGS, and foreign events. *)
Definition interleaved (tc p : Id) (evs : list (string * Event)) : Prop :=
  Forall (fun e => foreignTo tc p e.2 = true ∨ is_Some (ownDelta tc e.2)) evs.

(** The progress reports of one upload. *)
Definition progressEvents (fileId : Id) (steps : list (string * UploadProgress))
    : list (string * Event) :=
  (fun tp => (tp.1, AttachmentProgress fileId tp.2)) <$> steps.

(** The attachment is marked as failed and carries the error. *)
Definition failedWith (error : option ErrorValue) (a : AttachmentDoc) : Prop :=
  a_state a = AttFailed
  ∧ (a_metadata a ≫= meta_error) = Some (errorOrDefault error).

(** The events that write the chat: messages, sequences, streaming buffers
    and tool calls. *)
Definition isChatEvent (ev : Event) : bool :=
  negb (isConversationEvent ev || isAttachmentEvent ev || isSnapshotEvent ev).

(** The message events for [m] that end its stream. *)
Definition endsStream (m : Id) (ev : Event) : bool :=
  match ev with
  | TEXT_MESSAGE_END id | MessageCanceled id | MessageErrored id => bool_decide (id = m)
  | _ => false
  end.

(** The events of the upload hook leave the chat itself alone. *)
Definition chatOf (s : ChatState)
    : gmap Id ConversationDoc * gmap Id MessageDoc * gmap Id (list Id) * gmap Id string
      * gmap Id ToolCallInProgress * option Id :=
  (conversations s, messages s, messagesByConversation s, streaming s,
   toolCallsInProgress s, activeConversationId s).

(** What the store holds after attachment [a] has been written: the two
    copies of [a], the global one and the one of the active conversation,
    and, untouched, the attachments under every other id, the suggested
    questions and the chat.  (Of a copy of an earlier attachment with the id
    of [a] in another conversation nothing is said: in the source it may be
    the object the global entry holds.) *)
Definition storedAs (a : AttachmentDoc) (before after : ChatState) : Prop :=
  attachments after !! a_id a = Some a
  ∧ (∀ k, k ≠ a_id a → attachments after !! k = attachments before !! k)
  ∧ chatOf after = chatOf before
  ∧ (∀ c, activeConversationId before = Some c → nonEmpty c = true →
          conversationAttachment c (a_id a) after = Some a)
  ∧ (∀ conv k, k ≠ a_id a →
               conversationAttachment conv k after = conversationAttachment conv k before)
  ∧ (∀ conv, (agentStateByConversation after !! conv ≫= suggestedQuestions)
             = (agentStateByConversation before !! conv ≫= suggestedQuestions))
  ∧ (activeConversationId before = None →
     agentStateByConversation after = agentStateByConversation before).

(** The file an attachment event is about. *)
Definition fileOf (ev : Event) : option Id :=
  match ev with
  | AttachmentUploading a | AttachmentAvailable a => Some (a_id a)
  | AttachmentProgress fileId _ | AttachmentFailed fileId _ => Some fileId
  | _ => None
  end.

(** A store with conversation "c1" active, and a picture to upload. *)
Definition activeC1 : ChatState :=
  set_activeConversationId (Some "c1") (initialState None).

Definition picture : UseFileUpload.FileInfo :=
  UseFileUpload.mkFile "a.png" "image/png" 10.

(** A phase of another upload: it names neither the temporary id [t] nor the
    content id [c]. *)
Definition foreignPhase (t c : Id) (ph : UseFileUpload.Phase) : bool :=
  match ph with
  | UseFileUpload.Started _ t' | UseFileUpload.CleanedUp t'
  | UseFileUpload.CancelUpload t' => negb (bool_decide (t' = t))
  | UseFileUpload.Initiated t' _ c' | UseFileUpload.Progressed t' c' _
  | UseFileUpload.Finished t' _ c' _ _ =>
      negb (bool_decide (t' = t)) && negb (bool_decide (c' = c))
  | UseFileUpload.Failed t' _ =>
      negb (bool_decide (t' = t)) && negb (bool_decide (t' = c))
  | UseFileUpload.ClearUploads => true
  end.

(** No other entry of the signal carries the content id [c]. *)
Definition soleCarrier (t c : Id) (uploads : gmap Id UseFileUpload.FileUploadState)
    : Prop :=
  ∀ k e, uploads !! k = Some e → k ≠ t → UseFileUpload.u_contentId e ≠ Some c.

(** ** Tactics *)

(** A handler run that writes none of the three maps. *)
Ltac unchanged := split; by left.

(** Runs the handler of the event at hand through all its branches, the
    innermost test first. *)
Ltac run_handler :=
  cbn [handle];
  unfold onConversationCreated, onConversationUpdated, onConversationArchived,
    onMessageCreated, onTextMessageStart, onTextMessageContent, onTextMessageEnd,
    onMessageErrored, onMessageCanceled, onToolCallStart, onToolCallArgs,
    onToolCallEnd, onToolCallResult, storeAttachment, onAttachmentProgress,
    onAttachmentFailed, onStateSnapshot, setMessageKey, andThen;
  repeat (match goal with
          | |- context [match ?x with _ => _ end] =>
              lazymatch x with
              | context [match _ with _ => _ end] => fail
              | _ => destruct x eqn:?
              end
          end);
  cbn.

(** * Properties *)

(** ** Text streaming *)

Lemma append_empty_r (t : string) : t +:+ "" = t.
Proof.
  induction t as [|c t IH]; [done |].
  change (String c (t +:+ "") = String c t). by rewrite IH.
Qed.

Lemma append_assoc (a b c : string) : (a +:+ b) +:+ c = a +:+ (b +:+ c).
Proof.
  induction a as [|x a IH]; [done |].
  change (String x ((a +:+ b) +:+ c) = String x (a +:+ (b +:+ c))). by rewrite IH.
Qed.

Lemma nonEmpty_false (t : string) : nonEmpty t = false → t = "".
Proof. by destruct t. Qed.

Lemma orEmpty_Some (t : string) : orEmpty (Some t) = t.
Proof. by destruct t. Qed.

Lemma deliver_app (l1 l2 : list (string * Event)) (s : ChatState) :
  deliver (l1 ++ l2) s = deliver l1 s >>> deliver l2.
Proof.
  revert s. induction l1 as [|[now ev] l1 IH]; intros s; simpl; [done |].
  destruct (handle now ev s) as [s1|s1]; simpl; [apply IH | done].
Qed.

Lemma setMessageKey_Some (id : Id) (f : MessageDoc → MessageDoc) (s : ChatState)
    (m : MessageDoc) :
  messages s !! id = Some m →
  setMessageKey id f s = Done (set_messages (insert id (f m)) s).
Proof. intros H. unfold setMessageKey. by rewrite H. Qed.

Lemma setMessageKey_None (id : Id) (f : MessageDoc → MessageDoc) (s : ChatState) :
  messages s !! id = None → setMessageKey id f s = Threw s.
Proof. intros H. unfold setMessageKey. by rewrite H. Qed.

(** What TEXT_MESSAGE_START leaves behind for its message. *)
Lemma onTextMessageStart_spec (now : string) (m : Id) (role : option Role)
    (cid : option Id) (s : ChatState) :
  ∃ s1 msg0,
    onTextMessageStart now m role cid s = Done s1
    ∧ messages s1 !! m = Some msg0
    ∧ m_content msg0 = ""
    ∧ streaming s1 !! m = Some "".
Proof.
  unfold onTextMessageStart.
  set (msg0 := match messages s !! m with Some prev => _ | None => _ end).
  exists (stateOf (onTextMessageStart now m role cid s)), msg0.
  unfold onTextMessageStart. fold msg0. cbn [stateOf].
  split; [done |]. split; [| split].
  - destruct (js_or cid (activeConversationId s)) as [c|]; cbn;
      [| apply lookup_insert_eq].
    destruct (nonEmpty c); cbn; [| apply lookup_insert_eq].
    destruct (includes m _); cbn; apply lookup_insert_eq.
  - subst msg0. by destruct (messages s !! m).
  - cbn. apply lookup_insert_eq.
Qed.

(** Content deltas leave the messages alone and grow the buffer of theirs. *)
Lemma deliver_content (m : Id) (deltas : list (string * option string))
    (s : ChatState) (acc : string) :
  streaming s !! m = Some acc →
  ∃ s',
    deliver (contentEvents m deltas) s = Done s'
    ∧ messages s' = messages s
    ∧ streaming s' !! m = Some (acc +:+ joinDeltas deltas.*2).
Proof.
  revert s acc. induction deltas as [|[t d] deltas IH]; intros s acc Hacc.
  - exists s. cbn. by rewrite append_empty_r.
  - cbn [contentEvents fmap list_fmap deliver handle fst snd].
    unfold onTextMessageContent. cbn [andThen].
    fold (contentEvents m deltas).
    edestruct (IH (set_streaming
                     (insert m (default "" (streaming s !! m) +:+ orEmpty d)) s))
      as (s' & Hrun & Hms & Hst).
    { cbn. apply lookup_insert_eq. }
    exists s'. split; [done |]. split; [done |].
    rewrite Hst, Hacc. cbn. by rewrite append_assoc.
Qed.

(** TEXT_MESSAGE_END on a message that is there: the buffer is flushed when
    it is not empty, then dropped, then the status is set. *)
Lemma onTextMessageEnd_spec (m : Id) (s : ChatState) (msg : MessageDoc) (text : string) :
  messages s !! m = Some msg →
  streaming s !! m = Some text →
  ∃ s',
    onTextMessageEnd m s = Done s'
    ∧ messages s' !! m =
        Some (withStatus Completed (if nonEmpty text then withContent text msg else msg))
    ∧ streaming s' !! m = None.
Proof.
  intros Hm Ht. unfold onTextMessageEnd. rewrite Ht. cbn [truthy default].
  destruct (nonEmpty text).
  - rewrite (setMessageKey_Some _ _ _ _ Hm). cbn [andThen].
    erewrite setMessageKey_Some; [| cbn; apply lookup_insert_eq].
    eexists. split; [done |]. cbn. rewrite lookup_insert_eq.
    split; [done | apply lookup_delete_eq].
  - cbn [andThen]. erewrite setMessageKey_Some; [| exact Hm].
    eexists. split; [done |]. cbn. rewrite lookup_insert_eq.
    split; [done | apply lookup_delete_eq].
Qed.

(** What the handlers append is what the events carry: the deltas as the
    buffer collects them are the concatenation of their texts. *)
Lemma joinDeltas_concatenated (deltas : list (option string)) :
  joinDeltas deltas = concatenated deltas.
Proof.
  induction deltas as [|[text|] deltas IH]; cbn [concatenated]; [done | |].
  - change (joinDeltas (Some text :: deltas))
      with (orEmpty (Some text) +:+ joinDeltas deltas).
    rewrite IH. unfold orEmpty. cbn [truthy default].
    by destruct text.
  - change (joinDeltas (None :: deltas)) with ("" +:+ joinDeltas deltas).
    by rewrite IH.
Qed.

(** C1. For every message id [m], every start state and every list of deltas,
    TEXT_MESSAGE_START(m), then one TEXT_MESSAGE_CONTENT(m, delta) per delta,
    then TEXT_MESSAGE_END(m) run to their end without throwing, and in the
    final state message [m] has the concatenation of the deltas, in the
    order of the events, as its content, status [completed], and there is no
    streaming buffer left for [m]. *)
Theorem text_stream_round_trip :
  ∀ (s : ChatState) (m : Id) (role : option Role) (conversationId : option Id)
    (tStart tEnd : string) (deltas : list (string * option string)),
  ∃ s' msg,
    deliver ((tStart, TEXT_MESSAGE_START m role conversationId)
               :: contentEvents m deltas ++ [(tEnd, TEXT_MESSAGE_END m)]) s = Done s'
    ∧ messages s' !! m = Some msg
    ∧ m_content msg = concatenated deltas.*2
    ∧ m_status msg = Completed
    ∧ streaming s' !! m = None.
Proof.
  intros s m role cid tStart tEnd deltas.
  rewrite <- joinDeltas_concatenated.
  destruct (onTextMessageStart_spec tStart m role cid s) as (s1 & msg0 & H1 & Hm1 & Hc & Hs1).
  destruct (deliver_content m deltas s1 "" Hs1) as (s2 & H2 & Hm2 & Hs2).
  rewrite <- Hm2 in Hm1.
  destruct (onTextMessageEnd_spec m s2 msg0 _ Hm1 Hs2) as (s3 & H3 & Hm3 & Hs3).
  exists s3, (withStatus Completed
                (if nonEmpty ("" +:+ joinDeltas deltas.*2)
                 then withContent ("" +:+ joinDeltas deltas.*2) msg0 else msg0)).
  split.
  { cbn [deliver handle]. rewrite H1. cbn [andThen].
    rewrite deliver_app, H2. cbn [andThen deliver handle]. rewrite H3. done. }
  split; [done |]. split; [| done].
  change ("" +:+ joinDeltas deltas.*2) with (joinDeltas deltas.*2).
  destruct (nonEmpty (joinDeltas deltas.*2)) eqn:Hne; cbn; [done |].
  rewrite Hc. symmetry. by apply nonEmpty_false.
Qed.

(** The stream of the design document, with the deltas "a" and "b": the
    events run to their end, and the message ends with content "ab", status
    [completed] and no buffer. *)
Lemma text_stream_round_trip_witness :
  ∃ s' msg,
    deliver [("t0", TEXT_MESSAGE_START "m1" None (Some "c1"));
             ("t1", TEXT_MESSAGE_CONTENT "m1" (Some "a"));
             ("t2", TEXT_MESSAGE_CONTENT "m1" (Some "b"));
             ("t3", TEXT_MESSAGE_END "m1")] (initialState None) = Done s'
    ∧ messages s' !! "m1" = Some msg
    ∧ m_content msg = "ab"
    ∧ m_status msg = Completed
    ∧ streaming s' !! "m1" = None.
Proof.
  exact (text_stream_round_trip (initialState None) "m1" None (Some "c1") "t0" "t3"
           [("t1", Some "a"); ("t2", Some "b")]).
Defined.

(** The same stream, computed. *)
Example text_stream_ab :
  let s := stateOf (deliver [("t0", TEXT_MESSAGE_START "m1" None (Some "c1"));
                             ("t1", TEXT_MESSAGE_CONTENT "m1" (Some "a"));
                             ("t2", TEXT_MESSAGE_CONTENT "m1" (Some "b"));
                             ("t3", TEXT_MESSAGE_END "m1")] (initialState None)) in
  messages s !! "m1" =
    Some (mkMessage "m1" RoleAssistant "ab" (Some "c1") Completed (Some "t0") None None)
  ∧ streaming s !! "m1" = None
  ∧ messagesByConversation s !! "c1" = Some ["m1"].
Proof. vm_compute. done. Qed.

(** ** Cancellation *)

(** C3. For every message [m] of the store, a cancel event that finds a
    streaming buffer with non-empty text for [m] first writes that text into
    the content of [m] and then sets its status to [canceled]: the handler
    ends without throwing, the final status is [canceled] and the final
    content is the partial text; the other keys of the message are kept. *)
Theorem cancel_keeps_partial_text :
  ∀ (now : string) (s : ChatState) (m : Id) (msg : MessageDoc) (text : string),
    messages s !! m = Some msg →
    streaming s !! m = Some text →
    nonEmpty text = true →
    ∃ s',
      handle now (MessageCanceled m) s = Done s'
      ∧ messages s' !! m = Some (withStatus Canceled (withContent text msg))
      ∧ (∀ msg', messages s' !! m = Some msg' →
           m_status msg' = Canceled ∧ m_content msg' = text).
Proof.
  intros now s m msg text Hm Ht Hne. cbn [handle]. unfold onMessageCanceled.
  rewrite Ht. cbn [truthy default]. rewrite Hne.
  rewrite (setMessageKey_Some _ _ _ _ Hm). cbn [andThen].
  erewrite setMessageKey_Some; [| cbn; apply lookup_insert_eq].
  eexists. split; [done |]. cbn. rewrite insert_insert_eq, lookup_insert_eq.
  split; [done |]. by intros msg' [= <-].
Qed.

Lemma cancel_keeps_partial_text_witness :
  ∃ s',
    handle "t2" (MessageCanceled "m1") partialStream = Done s'
    ∧ messages s' !! "m1" =
        Some (mkMessage "m1" RoleAssistant "ab" (Some "c1") Canceled (Some "t0") None None)
    ∧ (∀ msg', messages s' !! "m1" = Some msg' →
         m_status msg' = Canceled ∧ m_content msg' = "ab").
Proof.
  apply (cancel_keeps_partial_text "t2" partialStream "m1"
           (mkMessage "m1" RoleAssistant "" (Some "c1") Streaming (Some "t0") None None)
           "ab"); vm_compute; reflexivity.
Defined.

(** A buffer can exist without its message (a CONTENT event for an id no
    START announced); cancelling then fails on the path through the missing
    message and nothing is written. *)
Lemma cancel_without_message (now : string) (s : ChatState) (m : Id) :
  messages s !! m = None → handle now (MessageCanceled m) s = Threw s.
Proof.
  intros Hm. cbn [handle]. unfold onMessageCanceled.
  destruct (truthy (streaming s !! m)); cbn [andThen];
    by rewrite !setMessageKey_None.
Qed.

(** ** Tool calls *)

(** C10. For every state and every TOOL_CALL_END whose tool-call id has no
    in-progress entry, the handler ends without throwing and the whole store
    state is the one it started from. *)
Theorem tool_call_end_unknown_is_noop :
  ∀ (now : string) (s : ChatState) (toolCallId : Id),
    toolCallsInProgress s !! toolCallId = None →
    handle now (TOOL_CALL_END toolCallId) s = Done s.
Proof.
  intros now s tc Hnone. cbn [handle]. unfold onToolCallEnd. by rewrite Hnone.
Qed.

Lemma tool_call_end_unknown_is_noop_witness :
  handle "t2" (TOOL_CALL_END "tc9") partialStream = Done partialStream.
Proof.
  apply (tool_call_end_unknown_is_noop "t2" partialStream "tc9").
  vm_compute. reflexivity.
Defined.

Lemma onToolCallStart_spec (now : string) (p tc : Id) (name : string)
    (cid : option Id) (s : ChatState) :
  ∃ s1 pm,
    onToolCallStart now p tc name cid s = Done s1
    ∧ messages s1 !! p = Some pm
    ∧ m_toolCalls pm = match messages s !! p with
                       | Some m0 => m_toolCalls m0
                       | None => None
                       end
    ∧ toolCallsInProgress s1 !! tc = Some (mkInProgress tc name "" p).
Proof.
  unfold onToolCallStart. destruct (messages s !! p) as [m0|] eqn:Hp.
  - eexists _, m0. split; [done |]. cbn. rewrite lookup_insert_eq. done.
  - eexists _, (mkMessage p RoleAssistant "" (js_or cid (activeConversationId s))
                  Completed (Some now) None None).
    split; [done |]. cbn. split; [| split].
    + destruct (js_or cid (activeConversationId s)) as [c|]; cbn;
        [| apply lookup_insert_eq].
      destruct (nonEmpty c); cbn; apply lookup_insert_eq.
    + done.
    + apply lookup_insert_eq.
Qed.

(** ARGS deltas leave the messages alone and grow the arguments of their
    in-progress entry. *)
Lemma deliver_args (tc : Id) (deltas : list (string * option string))
    (s : ChatState) (e : ToolCallInProgress) :
  toolCallsInProgress s !! tc = Some e →
  ∃ s',
    deliver (argsEvents tc deltas) s = Done s'
    ∧ messages s' = messages s
    ∧ toolCallsInProgress s' !! tc =
        Some (mkInProgress (tp_id e) (tp_name e)
                (tp_args e +:+ joinDeltas deltas.*2) (tp_messageId e)).
Proof.
  revert s e. induction deltas as [|[t d] deltas IH]; intros s e He.
  - exists s. cbn. rewrite append_empty_r. by destruct e.
  - cbn [argsEvents fmap list_fmap deliver handle fst snd].
    unfold onToolCallArgs. rewrite He. cbn [andThen].
    fold (argsEvents tc deltas).
    edestruct (IH (set_toolCallsInProgress
                     (insert tc (mkInProgress (tp_id e) (tp_name e)
                                   (tp_args e +:+ orEmpty d) (tp_messageId e))) s))
      as (s' & Hrun & Hms & Htc); [cbn; apply lookup_insert_eq |].
    exists s'. split; [exact Hrun |]. split; [exact Hms |].
    rewrite Htc. cbn. by rewrite append_assoc.
Qed.

Lemma entriesFor_app (tc : Id) (l1 l2 : list ToolCall) :
  entriesFor tc (l1 ++ l2) = entriesFor tc l1 ++ entriesFor tc l2.
Proof. apply filter_app. Qed.

Lemma entriesFor_absent (tc : Id) (calls : list ToolCall) :
  hasToolCall tc calls = false → entriesFor tc calls = [].
Proof.
  unfold hasToolCall, entriesFor. induction calls as [|e calls IH]; [done |].
  cbn [existsb]. intros H. apply orb_false_iff in H as [He Hrest].
  apply bool_decide_eq_false in He.
  rewrite filter_cons_False by done. by apply IH.
Qed.

(** C4 (as amended). For every tool call [tc] that is new to its parent
    message [p], START(tc, parent = p), any number of ARGS deltas and END(tc)
    leave the parent with exactly one entry with id [tc], whose arguments are
    the deltas joined in order; the in-progress entry is removed, and END(tc)
    delivered again changes nothing. *)
Theorem tool_call_round_trip :
  ∀ (s : ChatState) (p tc : Id) (name : string) (conversationId : option Id)
    (tStart tEnd : string) (deltas : list (string * option string)),
    freshToolCall s p tc →
    toolCallRoundTrip s p tc name conversationId tStart tEnd deltas.
Proof.
  intros s p tc name cid tStart tEnd deltas Hfresh.
  destruct (onToolCallStart_spec tStart p tc name cid s)
    as (s1 & pm & H1 & Hp1 & Hcalls & Htc1).
  destruct (deliver_args tc deltas s1 _ Htc1) as (s2 & H2 & Hm2 & Htc2).
  cbn [tp_id tp_name tp_args tp_messageId] in Htc2.
  change ("" +:+ joinDeltas deltas.*2) with (joinDeltas deltas.*2) in Htc2.
  rewrite <- Hm2 in Hp1.
  assert (Hno : hasToolCall tc (default [] (m_toolCalls pm)) = false).
  { rewrite Hcalls. destruct (messages s !! p) as [m0|] eqn:Hp; [| done].
    by apply Hfresh. }
  set (toolCall := mkToolCall tc name (joinDeltas deltas.*2)).
  set (s3 := set_toolCallsInProgress (delete tc)
               (set_messages
                  (insert p (withToolCalls
                               (appendToolCall toolCall (default [] (m_toolCalls pm))) pm))
                  s2)).
  assert (H3 : onToolCallEnd tc s2 = Done s3).
  { unfold onToolCallEnd. rewrite Htc2. cbn [tp_messageId tp_id tp_name tp_args].
    by rewrite Hp1. }
  exists s3, (withToolCalls (appendToolCall toolCall (default [] (m_toolCalls pm))) pm),
    (default [] (m_toolCalls pm) ++ [toolCall]).
  split.
  { cbn [deliver handle]. rewrite H1. cbn [andThen].
    rewrite deliver_app, H2. cbn [andThen deliver handle]. by rewrite H3. }
  split; [cbn; apply lookup_insert_eq |].
  split.
  { cbn. unfold appendToolCall. cbn [tc_id toolCall]. by rewrite Hno. }
  split.
  { rewrite entriesFor_app, (entriesFor_absent _ _ Hno), app_nil_l.
    unfold entriesFor. rewrite filter_cons_True by done. by rewrite filter_nil. }
  split; [cbn; apply lookup_delete_eq |].
  intros again. cbn [handle]. unfold onToolCallEnd.
  assert (Hgone : toolCallsInProgress s3 !! tc = None) by (cbn; apply lookup_delete_eq).
  by rewrite Hgone.
Qed.

Lemma tool_call_round_trip_witness :
  toolCallRoundTrip (initialState None) "p1" "tc1" "search" (Some "c1") "t0" "t3"
    [("t1", Some "[1,"); ("t2", Some "2]")].
Proof.
  apply tool_call_round_trip. intros msg Hmsg. vm_compute in Hmsg. discriminate.
Defined.

(** C4, counterexample.  When the parent already holds an entry with the id
    of the tool call, the dedupe-by-id of TOOL_CALL_END keeps that entry: a
    second START, ARGS("b"), END for the same id leaves the arguments at "a",
    not at the deltas of the second round. *)
Lemma tool_call_reused_id_keeps_first_entry :
  (∃ pm, messages
           (stateOf (deliver [("t4", TOOL_CALL_START "p1" "tc1" "search" (Some "c1"));
                              ("t5", TOOL_CALL_ARGS "tc1" (Some "b"));
                              ("t6", TOOL_CALL_END "tc1")] finishedToolCall)) !! "p1" = Some pm
         ∧ m_toolCalls pm = Some [mkToolCall "tc1" "search" "a"])
  ∧ ¬ toolCallRoundTrip finishedToolCall "p1" "tc1" "search" (Some "c1") "t4" "t6"
        [("t5", Some "b")].
Proof.
  split.
  - eexists. split; [vm_compute; reflexivity | reflexivity].
  - intros (s' & pm & calls & Hrun & Hp & Hcalls & Hent & _).
    vm_compute in Hrun. injection Hrun as <-.
    vm_compute in Hp. injection Hp as <-.
    vm_compute in Hcalls. injection Hcalls as <-.
    vm_compute in Hent. discriminate Hent.
Qed.

(** ** Attachment failure *)

(** C8. For every [attachment.failed] event whose file id is absent from the
    attachments of the active conversation's agent state, the handler ends
    without throwing and leaves the agent state of the active conversation
    (and so its attachments map) as it was: the id is still absent, no entry
    is created there.  The failure shows in the global attachment map only,
    where an existing entry gets state [failed] and the error in its
    metadata; messages, conversations, sequences and the active conversation
    are not touched. *)
Theorem attachment_failed_leaves_conversation_state :
  ∀ (now : string) (s : ChatState) (fileId : Id) (error : option ErrorValue),
    absentFromActiveConversation s fileId →
    ∃ s',
      handle now (AttachmentFailed fileId error) s = Done s'
      ∧ activeConversationId s' = activeConversationId s
      ∧ (∀ conversationId,
           activeConversationId s = Some conversationId →
           agentStateByConversation s' !! conversationId
           = agentStateByConversation s !! conversationId)
      ∧ absentFromActiveConversation s' fileId
      ∧ attachments s' =
          match attachments s !! fileId with
          | Some a => <[fileId := markFailed error a]> (attachments s)
          | None => attachments s
          end
      ∧ (∀ a, attachments s !! fileId = Some a →
           ∃ a', attachments s' !! fileId = Some a'
                 ∧ a_state a' = AttFailed
                 ∧ (a_metadata a' ≫= meta_error) = Some (errorOrDefault error))
      ∧ messages s' = messages s
      ∧ conversations s' = conversations s
      ∧ messagesByConversation s' = messagesByConversation s.
Proof.
  intros now s fileId error Habsent. cbn [handle]. unfold onAttachmentFailed.
  set (s1 := match attachments s !! fileId with
             | Some a => set_attachments (insert fileId (markFailed error a)) s
             | None => s
             end).
  assert (Hag : agentStateByConversation s1 = agentStateByConversation s)
    by (subst s1; by destruct (attachments s !! fileId)).
  assert (Hact : activeConversationId s1 = activeConversationId s)
    by (subst s1; by destruct (attachments s !! fileId)).
  assert (Hsame : ∀ c, conversationAttachment c fileId s1 = conversationAttachment c fileId s)
    by (intros c; unfold conversationAttachment; by rewrite Hag).
  assert (Hskip : ∀ (update : AttachmentDoc → Id → ChatState),
            match activeConversationId s1 with
            | Some conversationId =>
                if nonEmpty conversationId then
                  match conversationAttachment conversationId fileId s1 with
                  | Some a => update a conversationId
                  | None => s1
                  end
                else s1
            | None => s1
            end = s1).
  { intros update. rewrite Hact.
    destruct (activeConversationId s) as [c|] eqn:Hc; [| done].
    destruct (nonEmpty c); [| done]. by rewrite Hsame, (Habsent c Hc). }
  exists s1. split.
  { f_equal.
    apply (Hskip (fun a conversationId =>
             set_agentStateByConversation
               (fun ag =>
                  match ag !! conversationId with
                  | Some st =>
                      <[conversationId :=
                         mkAgentState (suggestedQuestions st)
                           (Some (<[fileId := markFailed error a]>
                                    (default ∅ (ag_attachments st))))]> ag
                  | None => ag
                  end) s1)). }
  split; [done |]. split; [by rewrite Hag |].
  split.
  { intros c Hc. rewrite Hsame. apply Habsent. by rewrite <- Hact. }
  subst s1. destruct (attachments s !! fileId) as [a|] eqn:Ha.
  - split; [done |]. split; [| done].
    intros a0 [= <-]. eexists. split; [cbn; apply lookup_insert_eq |]. done.
  - split; [done |]. split; [| done]. intros a0 Hfalse. discriminate.
Qed.

Lemma attachment_failed_leaves_conversation_state_witness :
  ∃ s',
    handle "t0" (AttachmentFailed "f1" (Some (ErrorObject "UPLOAD_FAILED" "boom")))
      failedUploadState = Done s'
    ∧ agentStateByConversation s' !! "c1" = Some (mkAgentState (Some ["why?"]) None)
    ∧ attachments s' !! "f1" =
        Some (mkAttachment "f1" "a.png" "image/png" 10 "" AttFailed
                (Some (mkMeta None (Some (ErrorObject "UPLOAD_FAILED" "boom"))))).
Proof.
  destruct (attachment_failed_leaves_conversation_state "t0" failedUploadState "f1"
              (Some (ErrorObject "UPLOAD_FAILED" "boom")))
    as (s' & Hrun & _ & Hag & _ & Hatt & _).
  - intros c Hc. vm_compute in Hc. injection Hc as <-. vm_compute. reflexivity.
  - exists s'. split; [exact Hrun |]. split.
    + rewrite (Hag "c1"); vm_compute; reflexivity.
    + rewrite Hatt. vm_compute. reflexivity.
Defined.

(** ** Content of messages that reached a terminal status *)

(** C5, counterexample.  The handlers have no guard on the status: a second
    TEXT_MESSAGE_START for a completed message empties its content, and
    TEXT_MESSAGE_END for a cancelled message flushes the buffer over it. *)
Lemma terminal_content_is_rewritten :
  ¬ contentFrozen completedStream "m1" "t3" (TEXT_MESSAGE_START "m1" None (Some "c1"))
  ∧ ¬ contentFrozen canceledStream "m1" "t4" (TEXT_MESSAGE_END "m1").
Proof.
  split.
  - intros H.
    destruct (H (mkMessage "m1" RoleAssistant "ab" (Some "c1") Completed (Some "t0")
                   None None)) as (msg' & Hm & Hc).
    + vm_compute. reflexivity.
    + reflexivity.
    + vm_compute in Hm. injection Hm as <-. discriminate Hc.
  - intros H.
    destruct (H (mkMessage "m1" RoleAssistant "ab" (Some "c1") Canceled (Some "t0")
                   None None)) as (msg' & Hm & Hc).
    + vm_compute. reflexivity.
    + reflexivity.
    + vm_compute in Hm. injection Hm as <-. discriminate Hc.
Qed.

Lemma mergeAt_other {V} (merge : V → V → V) (id k : Id) (v : V) (m : gmap Id V) :
  id ≠ k → mergeAt merge id v m !! k = m !! k.
Proof.
  intros Hne. unfold mergeAt. destruct (m !! id); by rewrite lookup_insert_ne.
Qed.

Lemma addToConversation_messages (cid id : Id) (s : ChatState) :
  messages (addToConversation cid id s) = messages s.
Proof. done. Qed.

(** Writing a key of a message other than its content. *)
Lemma setMessageKey_content (id m : Id) (f : MessageDoc → MessageDoc) (s : ChatState)
    (msg : MessageDoc) :
  (∀ x, m_content (f x) = m_content x) →
  messages s !! m = Some msg →
  ∃ msg', messages (stateOf (setMessageKey id f s)) !! m = Some msg'
          ∧ m_content msg' = m_content msg.
Proof.
  intros Hf Hm. unfold setMessageKey.
  destruct (messages s !! id) as [x|] eqn:Hx; cbn; [| by exists msg].
  destruct (decide (id = m)) as [->|Hne].
  - rewrite lookup_insert_eq. exists (f x). split; [done |].
    rewrite Hf. congruence.
  - rewrite lookup_insert_ne by done. by exists msg.
Qed.

(** C5 (as amended). For every message whose status is terminal, every event
    leaves its content unchanged except the events that write it:
    TEXT_MESSAGE_START, [message.created] and TOOL_CALL_RESULT carrying the
    id of that message, and TEXT_MESSAGE_END or [message.canceled] for it
    while a non-empty streaming buffer for it is there. *)
Theorem terminal_content_kept :
  ∀ (s : ChatState) (m : Id) (now : string) (ev : Event),
    rewritesContent m s ev = false →
    contentFrozen s m now ev.
Proof.
  intros s m now ev Hev msg Hm _.
  destruct ev; cbn [handle rewritesContent] in *;
    try (by exists msg).
  - (* conversation.archived *)
    unfold onConversationArchived. destruct (conversations s !! _); by exists msg.
  - (* message.created *)
    apply bool_decide_eq_false in Hev. unfold onMessageCreated.
    exists msg. split; [| done].
    destruct (m_conversationId message); cbn; by rewrite mergeAt_other.
  - (* TEXT_MESSAGE_START *)
    apply bool_decide_eq_false in Hev. unfold onTextMessageStart. cbn [stateOf].
    exists msg. split; [| done].
    destruct (js_or _ _) as [c|]; cbn; [| by rewrite lookup_insert_ne].
    destruct (nonEmpty c); cbn; [| by rewrite lookup_insert_ne].
    destruct (includes _ _); cbn; by rewrite lookup_insert_ne.
  - (* TEXT_MESSAGE_END *)
    unfold onTextMessageEnd.
    destruct (decide (messageId = m)) as [->|Hne].
    + rewrite bool_decide_eq_true_2 in Hev by done. cbn in Hev. rewrite Hev.
      cbn [andThen]. by apply setMessageKey_content.
    + destruct (truthy (streaming s !! messageId)).
      * destruct (messages s !! messageId) as [x|] eqn:Hx.
        -- rewrite (setMessageKey_Some _ _ _ _ Hx). cbn [andThen].
           apply setMessageKey_content; [done |]. cbn. by rewrite lookup_insert_ne.
        -- rewrite (setMessageKey_None _ _ _ Hx). cbn. by exists msg.
      * cbn [andThen]. by apply setMessageKey_content.
  - (* message.errored *)
    unfold onMessageErrored. by apply setMessageKey_content.
  - (* message.canceled *)
    unfold onMessageCanceled.
    destruct (decide (messageId = m)) as [->|Hne].
    + rewrite bool_decide_eq_true_2 in Hev by done. cbn in Hev. rewrite Hev.
      cbn [andThen]. by apply setMessageKey_content.
    + destruct (truthy (streaming s !! messageId)).
      * destruct (messages s !! messageId) as [x|] eqn:Hx.
        -- rewrite (setMessageKey_Some _ _ _ _ Hx). cbn [andThen].
           apply setMessageKey_content; [done |]. cbn. by rewrite lookup_insert_ne.
        -- rewrite (setMessageKey_None _ _ _ Hx). cbn. by exists msg.
      * cbn [andThen]. by apply setMessageKey_content.
  - (* TOOL_CALL_START *)
    unfold onToolCallStart. cbn [stateOf]. exists msg. split; [| done].
    destruct (messages s !! parentMessageId) as [x|] eqn:Hx; [done |].
    assert (parentMessageId ≠ m) by congruence.
    destruct (js_or _ _) as [c|]; cbn; [| by rewrite lookup_insert_ne].
    destruct (nonEmpty c); cbn; by rewrite lookup_insert_ne.
  - (* TOOL_CALL_ARGS *)
    unfold onToolCallArgs. destruct (toolCallsInProgress s !! _); by exists msg.
  - (* TOOL_CALL_END *)
    unfold onToolCallEnd. destruct (toolCallsInProgress s !! _) as [tc|]; [| by exists msg].
    cbn [stateOf]. destruct (messages s !! tp_messageId tc) as [x|] eqn:Hx; [| by exists msg].
    cbn. destruct (decide (tp_messageId tc = m)) as [He|Hne].
    + rewrite He in *. rewrite lookup_insert_eq. eexists. split; [done |].
      cbn. congruence.
    + rewrite lookup_insert_ne by done. by exists msg.
  - (* TOOL_CALL_RESULT *)
    apply bool_decide_eq_false in Hev. unfold onToolCallResult. cbn [stateOf].
    exists msg. split; [| done].
    destruct (js_or _ _) as [c|]; cbn; [| by rewrite lookup_insert_ne].
    destruct (nonEmpty c); cbn; by rewrite lookup_insert_ne.
  - (* attachment.uploading *)
    unfold storeAttachment. cbn. destruct (activeConversationId s) as [c|]; cbn;
      [destruct (nonEmpty c) |]; by exists msg.
  - (* attachment.progress *)
    unfold onAttachmentProgress. destruct (attachments s !! _); by exists msg.
  - (* attachment.available *)
    unfold storeAttachment. cbn. destruct (activeConversationId s) as [c|]; cbn;
      [destruct (nonEmpty c) |]; by exists msg.
  - (* attachment.failed *)
    unfold onAttachmentFailed. cbn [stateOf]. exists msg. split; [| done].
    destruct (attachments s !! fileId); cbn;
      (destruct (activeConversationId s) as [c|]; cbn; [| done]);
      (destruct (nonEmpty c); [| done]);
      destruct (conversationAttachment _ _ _); done.
  - (* STATE_SNAPSHOT *)
    unfold onStateSnapshot. destruct (js_or _ _) as [c|]; [| by exists msg].
    destruct snapshot; [| by exists msg]. destruct (nonEmpty c); by exists msg.
Qed.

Lemma terminal_content_kept_witness :
  contentFrozen canceledStream "m1" "t4" (MessageErrored "m1")
  ∧ contentFrozen completedStream "m1" "t3" (TEXT_MESSAGE_END "m1").
Proof.
  split; apply terminal_content_kept; vm_compute; reflexivity.
Defined.

(** ** Loading messages: reconciliation of local and server messages *)

Section Reconciliation.

Variable parseDate : string → option Z.

Lemma insertByTime_perm (x : MessageDoc) (l : list MessageDoc) :
  insertByTime parseDate x l ≡ₚ x :: l.
Proof.
  induction l as [|y l IH]; cbn; [done |].
  destruct (goesBefore parseDate x y); [done |].
  rewrite IH. apply Permutation_swap.
Qed.

Lemma sortByCreatedAt_perm (l : list MessageDoc) : sortByCreatedAt parseDate l ≡ₚ l.
Proof.
  induction l as [|x l IH]; cbn; [done |].
  rewrite insertByTime_perm. by rewrite IH.
Qed.

(** For a message whose [createdAt] is a date, or is missing, the time the
    comparator computes is the instant the design document speaks of. *)
Lemma timeOf_dated (m : MessageDoc) :
  dated parseDate m →
  ∃ t, timeOf parseDate m = Some t ∧ instantOf parseDate m = Some t.
Proof.
  unfold dated, timeOf, instantOf. intros Hd.
  destruct (m_createdAt m) as [t|]; cbn.
  - destruct (Hd t eq_refl) as [-> [z Hz]]. eauto.
  - eauto.
Qed.

Lemma goesBefore_ascending (x y : MessageDoc) :
  dated parseDate x → dated parseDate y →
  if goesBefore parseDate x y then ascending parseDate x y
  else ascending parseDate y x.
Proof.
  intros Hx Hy.
  destruct (timeOf_dated x Hx) as (tx & Htx & Hix).
  destruct (timeOf_dated y Hy) as (ty & Hty & Hiy).
  unfold goesBefore, byCreatedAt. rewrite Htx, Hty.
  destruct (tx - ty <=? 0)%Z eqn:Hle.
  - exists tx, ty. apply Z.leb_le in Hle. repeat split; [done | done | lia].
  - exists ty, tx. apply Z.leb_gt in Hle. repeat split; [done | done | lia].
Qed.

Lemma insertByTime_hd (x y : MessageDoc) (l : list MessageDoc) :
  ascending parseDate y x →
  HdRel (ascending parseDate) y l →
  HdRel (ascending parseDate) y (insertByTime parseDate x l).
Proof.
  intros Hyx Hl. destruct l as [|z l]; cbn; [by constructor |].
  destruct (goesBefore parseDate x z); constructor; [done |].
  by inversion Hl.
Qed.

Lemma insertByTime_sorted (x : MessageDoc) (l : list MessageDoc) :
  dated parseDate x → Forall (dated parseDate) l →
  Sorted (ascending parseDate) l →
  Sorted (ascending parseDate) (insertByTime parseDate x l).
Proof.
  intros Hx Hl Hs. induction Hs as [|y l Hs IH Hhd]; cbn; [by repeat constructor |].
  apply Forall_cons in Hl as [Hy Hl].
  pose proof (goesBefore_ascending x y Hx Hy) as Hxy.
  destruct (goesBefore parseDate x y).
  - constructor; [by constructor |]. by constructor.
  - constructor; [by apply IH |]. by apply insertByTime_hd.
Qed.

(** Where every [createdAt] is a date, the sort puts the messages in the
    order of their instants. *)
Lemma sortByCreatedAt_sorted (l : list MessageDoc) :
  Forall (dated parseDate) l →
  Sorted (ascending parseDate) (sortByCreatedAt parseDate l).
Proof.
  induction l as [|x l IH]; [constructor |].
  intros [Hx Hl]%Forall_cons.
  change (sortByCreatedAt parseDate (x :: l))
    with (insertByTime parseDate x (sortByCreatedAt parseDate l)).
  apply insertByTime_sorted; [done | | by apply IH].
  by rewrite sortByCreatedAt_perm.
Qed.

End Reconciliation.

(** Storing a list of messages: the sequences are not touched, a key that is
    the id of one of them then holds a message with that id, and the other
    keys hold what they held. *)
Lemma storeAll_cons (m : MessageDoc) (l : list MessageDoc) (s : ChatState) :
  storeAll (m :: l) s = storeAll l (set_messages (mergeAt mergeMessage (m_id m) m) s).
Proof. done. Qed.

Lemma storeAll_sequences (l : list MessageDoc) (s : ChatState) :
  messagesByConversation (storeAll l s) = messagesByConversation s.
Proof.
  revert s. induction l as [|m l IH]; intros s; [done |].
  by rewrite storeAll_cons, IH.
Qed.

Lemma storeAll_other (l : list MessageDoc) (s : ChatState) (k : Id) :
  k ∉ m_id <$> l → messages (storeAll l s) !! k = messages s !! k.
Proof.
  revert s. induction l as [|m l IH]; intros s Hk; [done |].
  rewrite fmap_cons, not_elem_of_cons in Hk. destruct Hk as [Hne Hk].
  rewrite storeAll_cons, IH by done. cbn. by apply mergeAt_other.
Qed.

Lemma mergeAt_message_id (m : MessageDoc) (ms : gmap Id MessageDoc) :
  ∃ m', mergeAt mergeMessage (m_id m) m ms !! m_id m = Some m' ∧ m_id m' = m_id m.
Proof.
  unfold mergeAt. destruct (ms !! m_id m) as [prev|];
    rewrite lookup_insert_eq; eexists; split; done.
Qed.

Lemma storeAll_stored (l : list MessageDoc) (s : ChatState) (k : Id) :
  k ∈ m_id <$> l → ∃ m', messages (storeAll l s) !! k = Some m' ∧ m_id m' = k.
Proof.
  revert s. induction l as [|m l IH]; intros s Hk.
  - by apply elem_of_nil in Hk.
  - rewrite storeAll_cons.
    destruct (decide (k ∈ m_id <$> l)) as [Hin|Hout]; [by apply IH |].
    rewrite fmap_cons, elem_of_cons in Hk. destruct Hk as [-> | Hk]; [| done].
    rewrite storeAll_other by done. cbn. apply mergeAt_message_id.
Qed.

Lemma filter_nothing {A} (f : A → bool) (l : list A) :
  (∀ x, x ∈ l → f x = false) → List.filter f l = [].
Proof.
  induction l as [|x l IH]; intros H; cbn; [done |].
  rewrite (H x) by apply list_elem_of_here.
  apply IH. intros y Hy. apply H. by apply list_elem_of_further.
Qed.

Lemma elem_of_filter_bool {A} (f : A → bool) (l : list A) (x : A) :
  x ∈ List.filter f l ↔ x ∈ l ∧ f x = true.
Proof. rewrite !list_elem_of_In. apply filter_In. Qed.

Lemma elem_of_localMessages (conversationId : Id) (s : ChatState) (m : MessageDoc) :
  m ∈ localMessages conversationId s ↔
  ∃ id, id ∈ default [] (messagesByConversation s !! conversationId)
        ∧ messages s !! id = Some m.
Proof.
  unfold localMessages. rewrite list_elem_of_omap. naive_solver.
Qed.

Lemma filter_filter_bool {A} (f g : A → bool) (l : list A) :
  List.filter g (List.filter f l) = List.filter (fun x => f x && g x) l.
Proof.
  induction l as [|x l IH]; cbn; [done |].
  destruct (f x); cbn; [destruct (g x) |]; by rewrite IH.
Qed.

Lemma isOptimistic_spec (m : MessageDoc) :
  isOptimistic m = true ↔
  m_status m = Streaming ∨ String.prefix "msg_" (m_id m) = true.
Proof.
  unfold isOptimistic. rewrite orb_true_iff, bool_decide_eq_true. done.
Qed.

Lemma retained_spec (conversationId : Id) (fetched : list MessageDoc) (s : ChatState)
    (m : MessageDoc) :
  m ∈ retained conversationId fetched s ↔
  m ∈ localMessages conversationId s
  ∧ (m_status m = Streaming ∨ String.prefix "msg_" (m_id m) = true)
  ∧ m_id m ∉ m_id <$> fetched.
Proof.
  unfold retained. rewrite elem_of_filter_bool, andb_true_iff, isOptimistic_spec.
  unfold inIds. rewrite negb_true_iff, bool_decide_eq_false. tauto.
Qed.

(** The second pass of [loadMessages] finds nothing to carry over: every
    local message that qualifies is already among the ids just installed. *)
Lemma carryOver_empty (parseDate : string → option Z) (conversationId : Id)
    (fetched : list MessageDoc) (s : ChatState) :
  let finalMessages :=
    sortByCreatedAt parseDate (retained conversationId fetched s ++ fetched) in
  List.filter
    (fun m => isOptimistic m && negb (inIds (m_id m) (m_id <$> finalMessages)))
    (localMessages conversationId (storeAll finalMessages s)) = [].
Proof.
  intros finalMessages. apply filter_nothing. intros x Hx.
  apply elem_of_localMessages in Hx as (k & Hk & Hxk).
  rewrite storeAll_sequences in Hk.
  destruct (isOptimistic x) eqn:Hopt; [| done]. cbn.
  apply negb_false_iff, bool_decide_eq_true.
  destruct (decide (k ∈ m_id <$> finalMessages)) as [Hin|Hout].
  - destruct (storeAll_stored finalMessages s k Hin) as (m' & Hm' & Hid).
    rewrite Hxk in Hm'. injection Hm' as <-. by rewrite Hid.
  - rewrite storeAll_other in Hxk by done.
    assert (Hlocal : x ∈ localMessages conversationId s)
      by (apply elem_of_localMessages; eauto).
    apply list_elem_of_fmap.
    destruct (decide (m_id x ∈ m_id <$> fetched)) as [Hsrv|Hnot].
    + apply list_elem_of_fmap in Hsrv as (y & Hy & Hyin).
      exists y. split; [done |].
      subst finalMessages. rewrite sortByCreatedAt_perm. apply elem_of_app. by right.
    + exists x. split; [done |].
      subst finalMessages. rewrite sortByCreatedAt_perm. apply elem_of_app. left.
      apply retained_spec. apply isOptimistic_spec in Hopt. done.
Qed.

Lemma reconcile_eq (parseDate : string → option Z) (conversationId : Id)
    (fetched : list MessageDoc) (s : ChatState) :
  reconcile parseDate conversationId fetched s =
  set_messagesByConversation
    (insert conversationId
       (m_id <$> sortByCreatedAt parseDate (retained conversationId fetched s ++ fetched)))
    (storeAll
       (sortByCreatedAt parseDate (retained conversationId fetched s ++ fetched)) s).
Proof.
  pose proof (carryOver_empty parseDate conversationId fetched s) as Hempty.
  cbv zeta in Hempty. unfold reconcile. rewrite filter_filter_bool.
  unfold retained in *. rewrite Hempty. cbn [fmap list_fmap].
  by rewrite app_nil_r.
Qed.

Lemma storeAll_app (l1 l2 : list MessageDoc) (s : ChatState) :
  storeAll (l1 ++ l2) s = storeAll l2 (storeAll l1 s).
Proof. apply foldl_app. Qed.

(** A message whose id occurs once in the list is merged once. *)
Lemma storeAll_once (l1 l2 : list MessageDoc) (m : MessageDoc) (s : ChatState) :
  m_id m ∉ m_id <$> l1 → m_id m ∉ m_id <$> l2 →
  messages (storeAll (l1 ++ m :: l2) s) !! m_id m =
  Some (match messages s !! m_id m with
        | Some prev => mergeMessage prev m
        | None => m
        end).
Proof.
  intros H1 H2. rewrite storeAll_app, storeAll_cons, storeAll_other by done.
  cbn. unfold mergeAt. rewrite (storeAll_other l1 s _ H1).
  destruct (messages s !! m_id m); apply lookup_insert_eq.
Qed.

Lemma filter_none {A} (P : A → Prop) `{∀ x, Decision (P x)} (l : list A) :
  (∀ x, x ∈ l → ¬ P x) → filter P l = [].
Proof.
  induction l as [|a l IH]; intros Hl; [done |].
  rewrite filter_cons_False by (apply Hl, list_elem_of_here).
  apply IH. intros x Hx. apply Hl. by apply list_elem_of_further.
Qed.

Lemma same_id_same_message (l : list MessageDoc) (x y : MessageDoc) :
  NoDup (m_id <$> l) → x ∈ l → y ∈ l → m_id x = m_id y → x = y.
Proof.
  induction l as [|a l IH]; intros Hnd Hx Hy Hid; [by apply elem_of_nil in Hx |].
  rewrite fmap_cons in Hnd. apply NoDup_cons in Hnd as [Ha Hnd].
  apply elem_of_cons in Hx as [->|Hx]; apply elem_of_cons in Hy as [->|Hy].
  - done.
  - exfalso. apply Ha. rewrite Hid. by apply list_elem_of_fmap_2.
  - exfalso. apply Ha. rewrite <- Hid. by apply list_elem_of_fmap_2.
  - by apply IH.
Qed.

(** With distinct ids in the server result, a server message is the only
    message of the combined list with its id. *)
Lemma server_id_once (parseDate : string → option Z) (conversationId : Id)
    (fetched : list MessageDoc) (s : ChatState) (m : MessageDoc) :
  NoDup (m_id <$> fetched) → m ∈ fetched →
  ∃ l1 l2,
    sortByCreatedAt parseDate (retained conversationId fetched s ++ fetched)
      = l1 ++ m :: l2
    ∧ (m_id m ∉ m_id <$> l1) ∧ (m_id m ∉ m_id <$> l2).
Proof.
  intros Hnd Hm.
  set (final := sortByCreatedAt parseDate (retained conversationId fetched s ++ fetched)).
  assert (Hperm : final ≡ₚ retained conversationId fetched s ++ fetched)
    by apply sortByCreatedAt_perm.
  assert (Hin : m ∈ final) by (rewrite Hperm; apply elem_of_app; by right).
  apply list_elem_of_split in Hin as (l1 & l2 & Hsplit).
  exists l1, l2. split; [done |].
  set (P := fun y : MessageDoc => m_id y = m_id m).
  assert (Hsame : ∀ y, y ∈ final → m_id y = m_id m → y = m).
  { intros y Hy Hid. rewrite Hperm in Hy. apply elem_of_app in Hy as [Hy|Hy].
    - apply retained_spec in Hy as (_ & _ & Hnot). exfalso. apply Hnot.
      rewrite Hid. by apply list_elem_of_fmap_2.
    - by apply (same_id_same_message fetched). }
  assert (HndF : NoDup (filter P l1 ++ m :: filter P l2)).
  { assert (Heq : filter P final = filter P l1 ++ m :: filter P l2).
    { rewrite Hsplit, filter_app, filter_cons_True by done. done. }
    rewrite <- Heq, Hperm, filter_app.
    assert (filter P (retained conversationId fetched s) = []) as ->.
    { apply filter_none. intros y Hy Hid.
      apply retained_spec in Hy as (_ & _ & Hnot). apply Hnot.
      rewrite Hid. by apply list_elem_of_fmap_2. }
    apply NoDup_filter. by apply NoDup_fmap_1 in Hnd. }
  apply NoDup_app in HndF as (_ & Hdisj & Hnd2).
  apply NoDup_cons in Hnd2 as [Hnot2 _].
  split.
  - intros Hk. apply list_elem_of_fmap in Hk as (y & Hid & Hy).
    assert (y = m) as ->.
    { apply Hsame; [| done]. rewrite Hsplit. apply elem_of_app. by left. }
    apply (Hdisj m); [| apply list_elem_of_here].
    apply list_elem_of_filter. done.
  - intros Hk. apply list_elem_of_fmap in Hk as (y & Hid & Hy).
    assert (y = m) as ->.
    { apply Hsame; [| done]. rewrite Hsplit. apply elem_of_app. right.
      by apply list_elem_of_further. }
    apply Hnot2. apply list_elem_of_filter. done.
Qed.

(** What the store does with a server copy is what the rule asks for. *)
Lemma mergeMessage_serverCopyWins (prev m : MessageDoc) :
  serverCopyWins (Some prev) m (mergeMessage prev m).
Proof.
  destruct m as [i r c [cid|] st [t|] [calls|] [tcid|]];
    unfold serverCopyWins, serverKeyWins, mergeMessage, keep; cbn; by repeat split.
Qed.

Lemma fresh_serverCopyWins (m : MessageDoc) : serverCopyWins None m m.
Proof.
  destruct m as [i r c [cid|] st [t|] [calls|] [tcid|]];
    unfold serverCopyWins, serverKeyWins; cbn; by repeat split.
Qed.

(** C2 (as amended). For every conversation, when the fetch of
    [loadMessages] answers: a local message is retained exactly when it is
    still streaming or its id starts with the client-generated prefix
    [msg_], and its id is not in the server result; the sequence installed
    for the conversation is the ids of a list [final] that holds the
    retained and the server messages together; where the [createdAt] of
    each of these messages is a date or is missing, [final] is sorted by
    [createdAt] ascending, a missing [createdAt] counting as epoch 0; every
    id of the sequence is the id of the message stored under it; and the
    server copy wins: with distinct ids in the server result, the message
    stored under a server id has id, role, content, status and every
    optional key of the server copy, and of the local copy only the keys the
    server copy does not have. *)
Theorem loadMessages_reconciles :
  ∀ (parseDate : string → option Z) (st : Store) (conversationId : Id)
    (fetched : list MessageDoc),
    let s := state st in
    let s' := state (loadMessages_resolve parseDate conversationId fetched st) in
    ∃ final,
      messagesByConversation s' !! conversationId = Some (m_id <$> final)
      ∧ final ≡ₚ retained conversationId fetched s ++ fetched
      ∧ (Forall (dated parseDate) (retained conversationId fetched s ++ fetched) →
         Sorted (ascending parseDate) final)
      ∧ (∀ m, m ∈ retained conversationId fetched s ↔
              m ∈ localMessages conversationId s
              ∧ (m_status m = Streaming ∨ String.prefix "msg_" (m_id m) = true)
              ∧ m_id m ∉ m_id <$> fetched)
      ∧ (∀ id, id ∈ m_id <$> final →
               ∃ m', messages s' !! id = Some m' ∧ m_id m' = id)
      ∧ (NoDup (m_id <$> fetched) →
         ∀ m, m ∈ fetched →
              ∃ stored, messages s' !! m_id m = Some stored
                        ∧ serverCopyWins (messages s !! m_id m) m stored).
Proof.
  intros parseDate st conversationId fetched s s'.
  set (final := sortByCreatedAt parseDate (retained conversationId fetched s ++ fetched)).
  assert (Hs' : s' = set_messagesByConversation
                       (insert conversationId (m_id <$> final)) (storeAll final s)).
  { subst s' s final. unfold loadMessages_resolve. cbn [state].
    apply reconcile_eq. }
  exists final.
  split; [rewrite Hs'; cbn; apply lookup_insert_eq |].
  split; [apply sortByCreatedAt_perm |].
  split; [apply sortByCreatedAt_sorted |].
  split; [intros m; apply retained_spec |].
  split; [intros id Hid; rewrite Hs'; cbn; by apply storeAll_stored |].
  intros Hnd m Hm.
  destruct (server_id_once parseDate conversationId fetched s m Hnd Hm)
    as (l1 & l2 & Hsplit & H1 & H2).
  eexists. split.
  { rewrite Hs'. cbn. subst final. rewrite Hsplit. by apply storeAll_once. }
  destruct (messages s !! m_id m) as [prev|].
  - apply mergeMessage_serverCopyWins.
  - apply fresh_serverCopyWins.
Qed.

(** The scenario of the design document: "b" is streaming locally, the
    server answers with its own copy of "b" and with "a".  The sequence
    installed is a, b, in the order of their [createdAt], and the message
    stored under "b" is the server copy. *)
Lemma loadMessages_reconciles_witness :
  let st := loadMessages_resolve tickClock "c1" [serverB; serverA] streamingB in
  ∃ final,
    messagesByConversation (state st) !! "c1" = Some (m_id <$> final)
    ∧ m_id <$> final = ["a"; "b"]
    ∧ final ≡ₚ [serverB; serverA]
    ∧ Sorted (ascending tickClock) final
    ∧ ∃ stored, messages (state st) !! "b" = Some stored
                ∧ m_content stored = "answer" ∧ m_status stored = Completed.
Proof.
  intros st.
  destruct (loadMessages_reconciles tickClock streamingB "c1" [serverB; serverA])
    as (final & Hseq & Hperm & Hsorted & _ & _ & Hwins).
  assert (Hretained : retained "c1" [serverB; serverA] (state streamingB) = [])
    by (by vm_compute).
  rewrite Hretained in Hperm, Hsorted. cbn [app] in Hperm, Hsorted.
  exists final. split; [exact Hseq |]. split.
  { assert (Hcomputed : messagesByConversation (state st) !! "c1" = Some ["a"; "b"])
      by (by vm_compute).
    subst st. rewrite Hcomputed in Hseq. by injection Hseq. }
  split; [exact Hperm |]. split.
  { apply Hsorted. repeat (apply Forall_cons; split); try exact (Forall_nil_2 _);
      intros t [= <-]; (split; [done | by eexists]). }
  assert (Hnd : NoDup (m_id <$> [serverB; serverA])).
  { apply NoDup_cons. split; [by rewrite list_elem_of_singleton | apply NoDup_singleton]. }
  destruct (Hwins Hnd serverB (list_elem_of_here _ _))
    as (stored & Hstored & _ & _ & Hcontent & Hstatus & _).
  exists stored. done.
Defined.

(** C2, counterexample.  A [createdAt] that is not a date makes the
    comparator answer NaN, and the sort then does not put the messages in
    the order of their [createdAt].  The server answers with "a" (instant
    3), "x" (a [createdAt] that cannot be read) and "b" (instant 1); the
    sequence installed is a, x, b, with "a" listed before "b" although it
    is the later one: the messages of the sequence are not sorted by
    [createdAt]. *)
Lemma loadMessages_unreadable_date_breaks_the_order :
  let st := loadMessages_resolve strictClock "c1" [lateA; unreadableX; earlyB]
              (createAgUiStore None false) in
  messagesByConversation (state st) !! "c1" = Some ["a"; "x"; "b"]
  ∧ messages (state st) !! "a" = Some lateA
  ∧ messages (state st) !! "x" = Some unreadableX
  ∧ messages (state st) !! "b" = Some earlyB
  ∧ instantOf strictClock lateA = Some 3%Z
  ∧ instantOf strictClock unreadableX = None
  ∧ instantOf strictClock earlyB = Some 1%Z
  ∧ ¬ ascending strictClock lateA earlyB
  ∧ ¬ Sorted (ascending strictClock) [lateA; unreadableX; earlyB].
Proof.
  cbv zeta. repeat (split; [by vm_compute |]). split.
  - intros (ta & tb & Ha & Hb & Hle). vm_compute in Ha, Hb.
    injection Ha as <-. injection Hb as <-. lia.
  - intros Hs. apply Sorted_inv in Hs as [_ Hhd]. apply HdRel_inv in Hhd.
    destruct Hhd as (ta & tb & _ & Hx & _). vm_compute in Hx. discriminate.
Qed.

(** The server copy replaces content, status and role of the local one. *)
Lemma mergeMessage_server_fields (prev m : MessageDoc) :
  m_content (mergeMessage prev m) = m_content m
  ∧ m_status (mergeMessage prev m) = m_status m
  ∧ m_role (mergeMessage prev m) = m_role m
  ∧ m_id (mergeMessage prev m) = m_id m.
Proof. done. Qed.

Example loadMessages_server_copy_wins :
  let st := loadMessages_resolve tickClock "c1" [serverB; serverA] streamingB in
  messagesByConversation (state st) !! "c1" = Some ["a"; "b"]
  ∧ messages (state st) !! "b" = Some serverB
  ∧ messages (state st) !! "a" = Some serverA.
Proof. vm_compute. done. Qed.

(** An optimistic user message the server does not know yet is kept, and
    takes its place by its timestamp. *)
Example loadMessages_keeps_optimistic :
  let local :=
    mkMessage "msg_1" RoleUser "hi" (Some "c1") Pending (Some "||") None None in
  let st0 := dispatchAll [("||", MessageCreated local)] (createAgUiStore None false) in
  let st := loadMessages_resolve tickClock "c1" [serverB; serverA] st0 in
  messagesByConversation (state st) !! "c1" = Some ["a"; "msg_1"; "b"].
Proof. vm_compute. done. Qed.

(** ** Loading messages: the guards against overlapping loads *)

Lemma dispatchAll_loading (evs : list (string * Event)) (st : Store) :
  loadingConversations (dispatchAll evs st) = loadingConversations st
  ∧ loadedConversations (dispatchAll evs st) = loadedConversations st
  ∧ requests (dispatchAll evs st) = requests st.
Proof.
  revert st. induction evs as [|[now ev] evs IH]; intros st; [done |].
  change (dispatchAll ((now, ev) :: evs) st) with (dispatchAll evs (dispatch now ev st)).
  by destruct (IH (dispatch now ev st)) as (-> & -> & ->).
Qed.

Lemma loadMessages_call_in_flight (conversationId : Id) (force : bool) (st : Store) :
  conversationId ∈ loadingConversations st →
  loadMessages_call conversationId force st = (Skipped, st).
Proof.
  intros Hin. unfold loadMessages_call. by rewrite bool_decide_eq_true_2.
Qed.

(** C6. For every conversation id: a [loadMessages] call made while a load
    for that id is in flight, and a call without [force] for an id that was
    loaded before, issue no request and return with the store as it was; and
    when a first call went out to fetch, a second call for the same id before
    the answer is skipped whatever events arrived in between, so that the
    store after the answer is the one a single call leaves, with one
    [getMessages] request more than before the first call. *)
Theorem loadMessages_guards :
  ∀ (parseDate : string → option Z) (st : Store) (conversationId : Id),
    (conversationId ∈ loadingConversations st →
     ∀ force, loadMessages_call conversationId force st = (Skipped, st))
    ∧ (conversationId ∈ loadedConversations st →
       loadMessages_call conversationId false st = (Skipped, st))
    ∧ (∀ force st1,
         loadMessages_call conversationId force st = (Fetching, st1) →
         ∀ evs1 evs2 force2 fetched,
           let mid := dispatchAll evs1 st1 in
           let second := loadMessages_call conversationId force2 mid in
           second = (Skipped, mid)
           ∧ loadMessages_resolve parseDate conversationId fetched
               (dispatchAll evs2 second.2)
             = loadMessages_resolve parseDate conversationId fetched
                 (dispatchAll evs2 mid)
           ∧ fetchesOf conversationId
               (requests (loadMessages_resolve parseDate conversationId fetched
                            (dispatchAll evs2 second.2)))
             = fetchesOf conversationId (requests st) ++ [GetMessages conversationId]).
Proof.
  intros parseDate st cid. split; [| split].
  - intros Hin force. by apply loadMessages_call_in_flight.
  - intros Hin. unfold loadMessages_call.
    destruct (bool_decide (cid ∈ loadingConversations st)); [done |].
    cbn. by rewrite bool_decide_eq_true_2.
  - intros force st1 Hcall evs1 evs2 force2 fetched mid second.
    unfold loadMessages_call in Hcall.
    destruct (bool_decide (cid ∈ loadingConversations st)); [done |].
    destruct (negb force && bool_decide (cid ∈ loadedConversations st)); [done |].
    injection Hcall as <-.
    assert (Hsecond : second = (Skipped, mid)).
    { subst second. apply loadMessages_call_in_flight. subst mid.
      destruct (dispatchAll_loading evs1
                  (mkStore (state st) (loadedConversations st)
                     ({[cid]} ∪ loadingConversations st) (clientHasSetActiveThread st)
                     (requests st
                        ++ (if clientHasSetActiveThread st
                            then [SetActiveThread cid] else [])
                        ++ [GetMessages cid]))) as (-> & _).
      cbn. set_solver. }
    rewrite Hsecond. cbn [snd]. split; [done |]. split; [done |].
    cbn [requests loadMessages_resolve].
    destruct (dispatchAll_loading evs2 mid) as (_ & _ & ->). subst mid.
    destruct (dispatchAll_loading evs1
                (mkStore (state st) (loadedConversations st)
                   ({[cid]} ∪ loadingConversations st) (clientHasSetActiveThread st)
                   (requests st
                      ++ (if clientHasSetActiveThread st
                          then [SetActiveThread cid] else [])
                      ++ [GetMessages cid]))) as (_ & _ & ->).
    cbn [requests]. unfold fetchesOf. rewrite !filter_app.
    destruct (clientHasSetActiveThread st).
    + rewrite filter_cons_False, filter_nil by done.
      by rewrite filter_cons_True, filter_nil.
    + by rewrite filter_nil, filter_cons_True, filter_nil.
Qed.

Lemma loadMessages_guards_witness :
  let st := (loadMessages_call "c1" false streamingB).2 in
  "c1" ∈ loadingConversations st
  ∧ loadMessages_call "c1" true st = (Skipped, st)
  ∧ loadMessages_resolve tickClock "c1" [serverB; serverA]
      (loadMessages_call "c1" false st).2
    = loadMessages_resolve tickClock "c1" [serverB; serverA] st
  ∧ "c1" ∈ loadedConversations
             (loadMessages_resolve tickClock "c1" [serverB; serverA] st)
  ∧ loadMessages_call "c1" false
      (loadMessages_resolve tickClock "c1" [serverB; serverA] st)
    = (Skipped, loadMessages_resolve tickClock "c1" [serverB; serverA] st).
Proof.
  intros st.
  assert (Hin : "c1" ∈ loadingConversations st) by (vm_compute; set_solver).
  destruct (loadMessages_guards tickClock st "c1") as (Hflight & _ & _).
  destruct (loadMessages_guards tickClock
              (loadMessages_resolve tickClock "c1" [serverB; serverA] st) "c1")
    as (_ & Hloaded & _).
  split; [exact Hin |]. split; [exact (Hflight Hin true) |].
  split; [by rewrite (Hflight Hin false) |].
  assert (Hdone : "c1" ∈ loadedConversations
                    (loadMessages_resolve tickClock "c1" [serverB; serverA] st))
    by (cbn; set_solver).
  split; [exact Hdone | exact (Hloaded Hdone)].
Defined.

(** ** Loading the conversation list *)

Lemma conversationsMap_from (acc : gmap Id ConversationDoc) (fetched : list ConversationDoc)
    (id : Id) :
  (id ∉ c_id <$> fetched →
   foldl (fun acc c => <[c_id c := c]> acc) acc fetched !! id = acc !! id)
  ∧ (id ∈ c_id <$> fetched →
     ∃ c, c ∈ fetched ∧ c_id c = id
          ∧ foldl (fun acc c => <[c_id c := c]> acc) acc fetched !! id = Some c).
Proof.
  revert acc. induction fetched as [|c fetched IH]; intros acc.
  - split; [done |]. intros H. by apply elem_of_nil in H.
  - cbn [foldl]. destruct (IH (<[c_id c := c]> acc)) as [IHout IHin].
    rewrite fmap_cons. split.
    + intros Hout. apply not_elem_of_cons in Hout as [Hne Hout].
      rewrite IHout by done. by rewrite lookup_insert_ne.
    + intros Hin. destruct (decide (id ∈ c_id <$> fetched)) as [Hlater|Hnot].
      * destruct (IHin Hlater) as (c' & Hc' & Hid & Hlook).
        exists c'. split; [by apply list_elem_of_further | done].
      * apply elem_of_cons in Hin as [->|Hin]; [| done].
        exists c. split; [apply list_elem_of_here |]. split; [done |].
        rewrite IHout by done. apply lookup_insert_eq.
Qed.

(** C7, counterexample.  The setter merges the fetched map into the stored
    one: conversation "old", absent from the fetched list, is still there
    after the load. *)
Lemma loadConversations_keeps_absent :
  conversations
    (state (loadConversations_resolve [mkConversation "new" (Some "New") None None]
              knowsOld)) !! "old"
    = Some (mkConversation "old" (Some "Old") None None)
  ∧ ¬ replacedWholesale [mkConversation "new" (Some "New") None None] knowsOld.
Proof.
  split; [vm_compute; reflexivity |].
  intros H. specialize (H "old"). vm_compute in H. discriminate H.
Qed.

(** C7 (as amended). [loadConversations] requests the full list and, when it
    arrives, writes every fetched conversation into the conversation map
    under its id, in place of an entry with that id (of two fetched
    conversations with one id the later one stays); a conversation that was
    in the map and is absent from the fetched list stays in the map as it
    was; nothing else in the store changes. *)
Theorem loadConversations_merges :
  ∀ (st : Store) (fetched : list ConversationDoc),
    let st' := loadConversations_resolve fetched (loadConversations_call st) in
    requests st' = requests st ++ [ListConversations]
    ∧ (∀ id, id ∈ c_id <$> fetched →
             ∃ c, c ∈ fetched ∧ c_id c = id
                  ∧ conversations (state st') !! id = Some c)
    ∧ (NoDup (c_id <$> fetched) →
       ∀ c, c ∈ fetched → conversations (state st') !! c_id c = Some c)
    ∧ (∀ id, id ∉ c_id <$> fetched →
             conversations (state st') !! id = conversations (state st) !! id)
    ∧ messages (state st') = messages (state st)
    ∧ messagesByConversation (state st') = messagesByConversation (state st)
    ∧ agentStateByConversation (state st') = agentStateByConversation (state st)
    ∧ activeConversationId (state st') = activeConversationId (state st).
Proof.
  intros st fetched st'. split; [done |].
  assert (Hlook : ∀ id,
            conversations (state st') !! id =
            match conversationsMap fetched !! id with
            | Some c => Some c
            | None => conversations (state st) !! id
            end).
  { intros id. subst st'. cbn. unfold mergeStoreNode. rewrite lookup_union.
    destruct (conversationsMap fetched !! id), (conversations (state st) !! id); done. }
  split; [| split; [| split]].
  - intros id Hin.
    destruct (conversationsMap_from ∅ fetched id) as [_ Hfound].
    destruct (Hfound Hin) as (c & Hc & Hid & Hmap).
    exists c. split; [done |]. split; [done |].
    rewrite Hlook. unfold conversationsMap. by rewrite Hmap.
  - intros Hnd c Hc.
    destruct (conversationsMap_from ∅ fetched (c_id c)) as [_ Hfound].
    destruct Hfound as (c' & Hc' & Hid & Hmap); [by apply list_elem_of_fmap_2 |].
    rewrite Hlook. unfold conversationsMap. rewrite Hmap. f_equal.
    clear Hmap Hlook. induction fetched as [|a l IH]; [by apply elem_of_nil in Hc |].
    rewrite fmap_cons in Hnd. apply NoDup_cons in Hnd as [Ha Hnd].
    apply elem_of_cons in Hc as [->|Hc]; apply elem_of_cons in Hc' as [->|Hc'].
    + done.
    + exfalso. apply Ha. rewrite <- Hid. by apply list_elem_of_fmap_2.
    + exfalso. apply Ha. rewrite Hid. by apply list_elem_of_fmap_2.
    + by apply IH.
  - intros id Hout.
    destruct (conversationsMap_from ∅ fetched id) as [Hnone _].
    rewrite Hlook. unfold conversationsMap. rewrite (Hnone Hout), lookup_empty. done.
  - done.
Qed.

Example printJson_compact :
  printJson (JArr [JNum 1; JNum (-20); JBool true; JNull; JArr []; JObj []])
  = "[1,-20,true,null,[],{}]".
Proof. vm_compute. reflexivity. Qed.

Example parseJson_printJson_record :
  parseJson (printJson (persistedData 1700 sampleSnapshot))
  = Some (persistedData 1700 sampleSnapshot)
  ∧ parseJson "" = None
  ∧ parseJson (printJson (JStr (String dquote (String backslash "x"))))
    = Some (JStr (String dquote (String backslash "x"))).
Proof. vm_compute. done. Qed.

(** ** Persistence round trip *)

Section PersistenceProperties.

Variable JSON_stringify : json → string.
Variable JSON_parse : string → option json.

Lemma loadAgentState_stored (ls : LocalStorage) (stored : string) :
  getItem STORAGE_KEY ls = Some stored →
  loadAgentState JSON_parse ls =
    if nonEmpty stored then
      match JSON_parse stored with
      | Some (JObj members) =>
          match member "version" members with
          | Some (JNum v) =>
              if bool_decide (v = STORAGE_VERSION) then
                match member "data" members with
                | Some JNull | None => None
                | Some data => Some data
                end
              else None
          | _ => None
          end
      | _ => None
      end
    else None.
Proof.
  intros Hget. unfold loadAgentState. rewrite Hget.
  destruct (nonEmpty stored); [| done].
  destruct (JSON_parse stored) as [[]|]; done.
Qed.

(** C9 (as amended). For every agent-state snapshot whose record the storage
    accepts (the write stays within the quota), saving it and then loading
    returns the snapshot, given that the platform's JSON functions carry the
    record through unchanged; and loading returns [null] when the stored
    record has a version other than the current one, when no record is
    stored, and when the stored text does not parse. *)
Theorem persistence_round_trip :
  ∀ (now : Z) (state : list (string * json)) (ls : LocalStorage),
    (JSON_parse "" = None) →
    (JSON_parse (JSON_stringify (persistedData now state))
       = Some (persistedData now state)) →
    (usage (<[STORAGE_KEY := JSON_stringify (persistedData now state)]> (items ls))
       ≤ quota ls)%nat →
    roundTrips JSON_stringify JSON_parse now state ls
    ∧ (∀ ls' stored,
         getItem STORAGE_KEY ls' = Some stored →
         storedVersion JSON_parse stored ≠ Some (JNum STORAGE_VERSION) →
         loadAgentState JSON_parse ls' = None)
    ∧ (∀ ls', getItem STORAGE_KEY ls' = None → loadAgentState JSON_parse ls' = None)
    ∧ (∀ ls' stored,
         getItem STORAGE_KEY ls' = Some stored →
         JSON_parse stored = None →
         loadAgentState JSON_parse ls' = None).
Proof.
  intros now state ls Hempty Hjson Hfits.
  split; [| split; [| split]].
  - unfold roundTrips, saveAgentState, setItem.
    rewrite bool_decide_eq_true_2 by done.
    erewrite loadAgentState_stored; [| unfold getItem; cbn; apply lookup_insert_eq].
    destruct (nonEmpty (JSON_stringify (persistedData now state))) eqn:Hne.
    + rewrite Hjson. done.
    + apply nonEmpty_false in Hne. rewrite Hne, Hempty in Hjson. discriminate.
  - intros ls' stored Hget Hversion. rewrite (loadAgentState_stored _ _ Hget).
    unfold storedVersion in Hversion.
    destruct (nonEmpty stored); [| done].
    destruct (JSON_parse stored) as [[| | | | |members]|]; try done.
    destruct (member "version" members) as [[| |v| | |]|]; try done.
    destruct (bool_decide (v = STORAGE_VERSION)) eqn:Hv; [| done].
    apply bool_decide_eq_true in Hv. by subst v.
  - intros ls' Hget. unfold loadAgentState. by rewrite Hget.
  - intros ls' stored Hget Hparse. rewrite (loadAgentState_stored _ _ Hget).
    rewrite Hparse. by destruct (nonEmpty stored).
Qed.

End PersistenceProperties.

Lemma persistence_round_trip_witness :
  loadAgentState parseJson (saveAgentState printJson 1700 sampleSnapshot (emptyStorage 5000))
    = Some (JObj sampleSnapshot)
  ∧ loadAgentState parseJson
      (mkLocalStorage {[STORAGE_KEY := olderRecord]} 5000) = None
  ∧ loadAgentState parseJson (emptyStorage 5000) = None
  ∧ loadAgentState parseJson
      (mkLocalStorage {[STORAGE_KEY := "{not json"]} 5000) = None.
Proof.
  destruct (persistence_round_trip printJson parseJson 1700 sampleSnapshot
              (emptyStorage 5000)) as (Hround & Hversion & Habsent & Hbroken).
  - vm_compute. reflexivity.
  - vm_compute. reflexivity.
  - vm_compute. lia.
  - split; [exact Hround |]. split; [| split].
    + apply (Hversion _ olderRecord); [vm_compute; reflexivity |].
      vm_compute. discriminate.
    + apply Habsent. vm_compute. reflexivity.
    + apply (Hbroken _ "{not json"); vm_compute; reflexivity.
Defined.

(** C9, counterexample.  A write over the quota is caught and leaves the
    storage as it was, so the load that follows does not return the snapshot
    just saved: here the storage is empty and too small for the record. *)
Lemma persistence_write_over_quota :
  loadAgentState parseJson (saveAgentState printJson 1700 sampleSnapshot (emptyStorage 100))
    = None
  ∧ ¬ roundTrips printJson parseJson 1700 sampleSnapshot (emptyStorage 100).
Proof.
  split; [vm_compute; reflexivity |].
  unfold roundTrips. vm_compute. discriminate.
Qed.

(** * Properties of the store as a whole, and of its collaborators *)

(** ** Invariants of the store, and what its handlers do at the edges *)

Lemma stepShape_refl s : stepShape s s.
Proof. split; by left. Qed.

Lemma addToConversation_shape (c id : Id) (s : ChatState) :
  is_Some (messages s !! id) →
  messagesByConversation (addToConversation c id s) = messagesByConversation s
  ∨ ∃ c' id',
      let cur := default [] (messagesByConversation s !! c') in
      (id' ∉ cur)
      ∧ messagesByConversation (addToConversation c id s)
        = <[c' := cur ++ [id']]> (messagesByConversation s)
      ∧ is_Some (messages (addToConversation c id s) !! id').
Proof.
  intros Hid. unfold addToConversation, appendIfNew, includes. cbn.
  destruct (messagesByConversation s !! c) as [cur|] eqn:Hc; cbn.
  - case_bool_decide as Hin.
    + left. by apply insert_id.
    + right. exists c, id. cbn. rewrite Hc. done.
  - rewrite bool_decide_eq_false_2 by apply not_elem_of_nil.
    right. exists c, id. cbn. rewrite Hc. cbn. split; [apply not_elem_of_nil | done].
Qed.

Lemma mergeAt_shape (m : MessageDoc) (ms : gmap Id MessageDoc) :
  ∃ m', mergeAt mergeMessage (m_id m) m ms = <[m_id m := m']> ms ∧ m_id m' = m_id m.
Proof. unfold mergeAt. destruct (ms !! m_id m); eexists; split; done. Qed.

Lemma handle_shape (now : string) (ev : Event) (s : ChatState) :
  stepShape s (stateOf (handle now ev s)).
Proof.
  destruct ev; cbn [handle].
  - unchanged.
  - unchanged.
  - unfold onConversationArchived. destruct (conversations s !! _); unchanged.
  - (* message.created *)
    unfold onMessageCreated.
    destruct (mergeAt_shape message (messages s)) as (m' & Hm' & Hid).
    assert (Hstored : is_Some (messages (set_messages (mergeAt mergeMessage (m_id message) message) s)
                                 !! m_id message)).
    { cbn. rewrite Hm', lookup_insert_eq. done. }
    destruct (m_conversationId message) as [cid|]; cbn [stateOf].
    + split.
      * right. exists (m_id message), m'. cbn. split; [done | by left].
      * exact (addToConversation_shape cid (m_id message) _ Hstored).
      * by left.
    + split; [| by left | by left].
      right. exists (m_id message), m'. cbn. split; [done | by left].
  - (* TEXT_MESSAGE_START *)
    unfold onTextMessageStart. cbn [stateOf].
    set (msg := match messages s !! messageId with Some prev => _ | None => _ end).
    assert (Hid : m_id msg = messageId) by (subst msg; by destruct (messages s !! messageId)).
    split.
    + right. exists messageId, msg. split; [| by left].
      destruct (js_or _ _) as [c|]; [| done].
      destruct (nonEmpty c); [| done]. by destruct (includes _ _).
    + destruct (js_or _ _) as [c|]; [| by left].
      destruct (nonEmpty c); [| by left].
      unfold includes. cbn. case_bool_decide as Hin; [by left |].
      right. exists c, messageId. cbn. split; [done |]. split; [done |].
      rewrite lookup_insert_eq. done.
    + left. destruct (js_or _ _) as [c|]; [| done].
      destruct (nonEmpty c); [| done]. by destruct (includes _ _).
  - unchanged.
  - (* TEXT_MESSAGE_END *)
    unfold onTextMessageEnd. destruct (messages s !! messageId) as [m0|] eqn:Hm.
    + destruct (truthy (streaming s !! messageId)).
      * rewrite (setMessageKey_Some _ _ _ _ Hm). cbn [andThen].
        erewrite setMessageKey_Some; [| cbn; apply lookup_insert_eq].
        split; [| by left | by left]. right. eexists messageId, _. cbn.
        rewrite insert_insert_eq. split; [done |]. right. exists m0. done.
      * cbn [andThen]. erewrite setMessageKey_Some; [| exact Hm].
        split; [| by left | by left]. right. eexists messageId, _. cbn.
        split; [done |]. right. exists m0. done.
    + destruct (truthy (streaming s !! messageId)).
      * rewrite (setMessageKey_None _ _ _ Hm). unchanged.
      * cbn [andThen]. rewrite setMessageKey_None by exact Hm. unchanged.
  - (* message.errored *)
    unfold onMessageErrored, setMessageKey.
    destruct (messages s !! messageId) as [m0|] eqn:Hm; [| unchanged].
    split; [| by left | by left]. right. eexists messageId, _. cbn.
    split; [done |]. right. exists m0. done.
  - (* message.canceled *)
    unfold onMessageCanceled. destruct (messages s !! messageId) as [m0|] eqn:Hm.
    + destruct (truthy (streaming s !! messageId)).
      * rewrite (setMessageKey_Some _ _ _ _ Hm). cbn [andThen].
        erewrite setMessageKey_Some; [| cbn; apply lookup_insert_eq].
        split; [| by left | by left]. right. eexists messageId, _. cbn.
        rewrite insert_insert_eq. split; [done |]. right. exists m0. done.
      * cbn [andThen]. erewrite setMessageKey_Some; [| exact Hm].
        split; [| by left | by left]. right. eexists messageId, _. cbn.
        split; [done |]. right. exists m0. done.
    + destruct (truthy (streaming s !! messageId)).
      * rewrite (setMessageKey_None _ _ _ Hm). unchanged.
      * cbn [andThen]. rewrite setMessageKey_None by exact Hm. unchanged.
  - (* TOOL_CALL_START *)
    unfold onToolCallStart. cbn [stateOf].
    destruct (messages s !! parentMessageId) as [m0|] eqn:Hm.
    + split; [by left | by left |]. right. left. eexists toolCallId, _. cbn.
      split; [done |]. left. cbn. rewrite Hm. done.
    + set (parent := mkMessage parentMessageId RoleAssistant "" _ Completed (Some now) None None).
      assert (Hstored : is_Some (messages (set_messages (insert parentMessageId parent) s)
                                   !! parentMessageId))
        by (cbn; rewrite lookup_insert_eq; done).
      assert (Hpid : m_id parent = parentMessageId) by done.
      clearbody parent.
      split.
      * right. exists parentMessageId, parent. split; [| by left].
        destruct (js_or _ _) as [c|]; [| reflexivity]. destruct (nonEmpty c); reflexivity.
      * destruct (js_or _ _) as [c|]; [| by left].
        destruct (nonEmpty c); [| by left]. cbn.
        exact (addToConversation_shape c parentMessageId _ Hstored).
      * right. left.
        exists toolCallId, (mkInProgress toolCallId toolCallName "" parentMessageId).
        destruct (js_or _ _) as [c|]; [destruct (nonEmpty c) |];
          (split; [reflexivity |]); left; cbn; by rewrite lookup_insert_eq.
  - (* TOOL_CALL_ARGS *)
    unfold onToolCallArgs. destruct (toolCallsInProgress s !! toolCallId) as [e0|] eqn:He;
      [| unchanged].
    split; [by left | by left |]. right. left. eexists toolCallId, _. cbn.
    split; [done |]. right. exists e0. done.
  - (* TOOL_CALL_END *)
    unfold onToolCallEnd. destruct (toolCallsInProgress s !! toolCallId) as [e0|] eqn:He;
      [| unchanged]. cbn [stateOf].
    destruct (messages s !! tp_messageId e0) as [m0|] eqn:Hm.
    + split; [| by left |].
      * right. eexists (tp_messageId e0), _. cbn. split; [done |]. right. exists m0. done.
      * right. right. exists toolCallId. done.
    + split; [by left | by left |]. right. right. exists toolCallId. done.
  - (* TOOL_CALL_RESULT *)
    unfold onToolCallResult. cbn [stateOf].
    set (stored := match messages s !! messageId with Some prev => _ | None => _ end).
    assert (Hid : m_id stored = messageId) by (subst stored; by destruct (messages s !! messageId)).
    assert (Hstored : is_Some (messages (set_messages (insert messageId stored) s) !! messageId))
      by (cbn; rewrite lookup_insert_eq; done).
    split.
    + right. exists messageId, stored. split; [| by left].
      destruct (js_or _ _) as [c|]; [| done]. by destruct (nonEmpty c).
    + destruct (js_or _ _) as [c|]; [| by left].
      destruct (nonEmpty c); [| by left].
      exact (addToConversation_shape c messageId _ Hstored).
    + left. destruct (js_or _ _) as [c|]; [| done]. by destruct (nonEmpty c).
  - (* attachment.uploading *)
    unfold storeAttachment. cbn. destruct (activeConversationId s) as [c|]; cbn;
      [destruct (nonEmpty c) |]; unchanged.
  - unfold onAttachmentProgress. destruct (attachments s !! _); unchanged.
  - unfold storeAttachment. cbn. destruct (activeConversationId s) as [c|]; cbn;
      [destruct (nonEmpty c) |]; unchanged.
  - (* attachment.failed *)
    unfold onAttachmentFailed. cbn [stateOf].
    destruct (attachments s !! fileId); cbn;
      (destruct (activeConversationId s) as [c|]; cbn; [| unchanged]);
      (destruct (nonEmpty c); [| unchanged]);
      destruct (conversationAttachment _ _ _); unchanged.
  - unfold onStateSnapshot. destruct (js_or _ _) as [c|]; [| unchanged].
    destruct snapshot; [| unchanged]. destruct (nonEmpty c); unchanged.
Qed.

Lemma stepShape_stays (s s' : ChatState) (k : Id) :
  stepShape s s' → is_Some (messages s !! k) → is_Some (messages s' !! k).
Proof.
  intros [[-> | (k' & m' & -> & _)] _ _] Hk; [done |].
  destruct (decide (k' = k)) as [->|Hne].
  - rewrite lookup_insert_eq. done.
  - by rewrite lookup_insert_ne.
Qed.

Lemma stepShape_keyed (s s' : ChatState) :
  stepShape s s' → keyedById s → keyedById s'.
Proof.
  intros [[Hm | (k' & m' & Hm & Hid)] _ _] Hkeyed k m; rewrite Hm; [apply Hkeyed |].
  destruct (decide (k' = k)) as [->|Hne].
  - rewrite lookup_insert_eq. intros [= <-].
    destruct Hid as [Hid | (m0 & Hm0 & Hid)]; [done |].
    rewrite Hid. by apply Hkeyed.
  - rewrite lookup_insert_ne by done. apply Hkeyed.
Qed.

Lemma stepShape_nodup (s s' : ChatState) :
  stepShape s s' → sequencesNoDup s → sequencesNoDup s'.
Proof.
  intros [_ [Hs | (c' & id & Hnew & Hs & _)] _] Hnd c l; rewrite Hs; [apply Hnd |].
  destruct (decide (c' = c)) as [->|Hne].
  - rewrite lookup_insert_eq. intros [= <-].
    apply NoDup_app. split; [| split].
    + destruct (messagesByConversation s !! c) as [cur|] eqn:Hc; cbn.
      * by apply (Hnd c).
      * constructor.
    + intros x Hx Hx'. apply list_elem_of_singleton in Hx'. by subst x.
    + apply NoDup_singleton.
  - rewrite lookup_insert_ne by done. apply Hnd.
Qed.

Lemma stepShape_stored (s s' : ChatState) :
  stepShape s s' → sequencesStored s → sequencesStored s'.
Proof.
  intros Hstep Hst c l id.
  destruct (shape_sequences _ _ Hstep) as [Hs | (c' & id' & Hnew & Hs & Hid')]; rewrite Hs.
  - intros Hl Hin. apply (stepShape_stays s); [done |]. by apply (Hst c l).
  - destruct (decide (c' = c)) as [->|Hne].
    + rewrite lookup_insert_eq. intros [= <-] Hin.
      apply elem_of_app in Hin as [Hin | Hin].
      * apply (stepShape_stays s); [done |].
        destruct (messagesByConversation s !! c) as [cur|] eqn:Hc; cbn in Hin.
        -- by apply (Hst c cur).
        -- by apply elem_of_nil in Hin.
      * apply list_elem_of_singleton in Hin. by subst id.
    + rewrite lookup_insert_ne by done. intros Hl Hin.
      apply (stepShape_stays s); [done |]. by apply (Hst c l).
Qed.

Lemma stepShape_parents (s s' : ChatState) :
  stepShape s s' → parentsStored s → parentsStored s'.
Proof.
  intros Hstep Hp tc e.
  destruct (shape_tools _ _ Hstep) as [Ht | [(tc' & e' & Ht & He') | (tc' & Ht)]]; rewrite Ht.
  - intros He. apply (stepShape_stays s); [done |]. by apply (Hp tc).
  - destruct (decide (tc' = tc)) as [->|Hne].
    + rewrite lookup_insert_eq. intros [= <-].
      destruct He' as [He' | (e0 & He0 & Hsame)]; [done |].
      rewrite Hsame. apply (stepShape_stays s); [done |]. by apply (Hp tc).
    + rewrite lookup_insert_ne by done. intros He.
      apply (stepShape_stays s); [done |]. by apply (Hp tc).
  - intros He. apply lookup_delete_Some in He as [_ He].
    apply (stepShape_stays s); [done |]. by apply (Hp tc).
Qed.

Lemma storeAll_stays (l : list MessageDoc) (s : ChatState) (k : Id) :
  is_Some (messages s !! k) → is_Some (messages (storeAll l s) !! k).
Proof.
  intros Hk. destruct (decide (k ∈ m_id <$> l)) as [Hin|Hout].
  - destruct (storeAll_stored l s k Hin) as (m' & -> & _). done.
  - by rewrite storeAll_other.
Qed.

Lemma storeAll_keyed (l : list MessageDoc) (s : ChatState) :
  keyedById s → keyedById (storeAll l s).
Proof.
  intros Hkeyed k m Hm. destruct (decide (k ∈ m_id <$> l)) as [Hin|Hout].
  - destruct (storeAll_stored l s k Hin) as (m' & Hm' & Hid). congruence.
  - rewrite storeAll_other in Hm by done. by apply Hkeyed.
Qed.

Lemma storeAll_tools (l : list MessageDoc) (s : ChatState) :
  toolCallsInProgress (storeAll l s) = toolCallsInProgress s.
Proof.
  revert s. induction l as [|m l IH]; intros s; [done |].
  by rewrite storeAll_cons, IH.
Qed.

Lemma local_ids_NoDup (s : ChatState) (l : list Id) :
  keyedById s → NoDup l →
  NoDup (m_id <$> omap (fun id => messages s !! id) l)
  ∧ ∀ x, x ∈ m_id <$> omap (fun id => messages s !! id) l → x ∈ l.
Proof.
  intros Hkeyed. induction 1 as [|a l Ha Hnd [IH1 IH2]]; cbn.
  - split; [constructor | done].
  - destruct (messages s !! a) as [m|] eqn:Hm; cbn.
    + rewrite (Hkeyed a m Hm). split.
      * constructor; [| done]. intros Hin. apply Ha. by apply IH2.
      * intros x Hx. apply elem_of_cons in Hx as [->|Hx];
          [apply list_elem_of_here | apply list_elem_of_further; by apply IH2].
    + split; [done |]. intros x Hx. apply list_elem_of_further. by apply IH2.
Qed.

Lemma filter_ids_NoDup (f : MessageDoc → bool) (l : list MessageDoc) :
  NoDup (m_id <$> l) → NoDup (m_id <$> List.filter f l).
Proof.
  induction l as [|m l IH]; cbn; [done |].
  intros Hnd. apply NoDup_cons in Hnd as [Hm Hnd].
  destruct (f m); cbn; [| by apply IH].
  constructor; [| by apply IH].
  intros Hin. apply Hm. apply list_elem_of_fmap in Hin as (y & Hy & Hyin).
  apply elem_of_filter_bool in Hyin as [Hyin _].
  rewrite Hy. by apply list_elem_of_fmap_2.
Qed.

Lemma retained_ids_NoDup (conversationId : Id) (fetched : list MessageDoc) (s : ChatState) :
  keyedById s → sequencesNoDup s →
  NoDup (m_id <$> retained conversationId fetched s).
Proof.
  intros Hkeyed Hnd. unfold retained. apply filter_ids_NoDup. unfold localMessages.
  apply local_ids_NoDup; [done |].
  destruct (messagesByConversation s !! conversationId) as [l|] eqn:Hl; cbn.
  - by apply (Hnd conversationId).
  - constructor.
Qed.

Lemma handle_frames :
  ∀ (now : string) (ev : Event) (s : ChatState),
    let s' := stateOf (handle now ev s) in
    (isConversationEvent ev = false → conversations s' = conversations s)
    ∧ (isAttachmentEvent ev = false → attachments s' = attachments s)
    ∧ (isAttachmentEvent ev = false → isSnapshotEvent ev = false →
       agentStateByConversation s' = agentStateByConversation s)
    ∧ (isConversationCreated ev = false →
       activeConversationId s' = activeConversationId s)
    ∧ (isConversationEvent ev = true ∨ isAttachmentEvent ev = true
       ∨ isSnapshotEvent ev = true →
       messages s' = messages s
       ∧ messagesByConversation s' = messagesByConversation s
       ∧ streaming s' = streaming s
       ∧ toolCallsInProgress s' = toolCallsInProgress s).
Proof.
  intros now ev s s'. subst s'.
  destruct ev; run_handler; repeat split; intros;
    repeat match goal with H : _ ∨ _ |- _ => destruct H end; done.
Qed.

Lemma resolve_state (parseDate : string → option Z) (conversationId : Id)
    (fetched : list MessageDoc) (st : Store) :
  state (loadMessages_resolve parseDate conversationId fetched st) =
  set_messagesByConversation
    (insert conversationId
       (m_id <$> sortByCreatedAt parseDate
                   (retained conversationId fetched (state st) ++ fetched)))
    (storeAll
       (sortByCreatedAt parseDate (retained conversationId fetched (state st) ++ fetched))
       (state st)).
Proof. unfold loadMessages_resolve. cbn [state]. apply reconcile_eq. Qed.

(** X1.  No event and no load removes a stored message or a stored conversation:
    a message (a conversation) that is in the store is still there after any
    event handler has run, after loadMessages has reconciled any server
    answer for any conversation, and after loadConversations has stored any
    list. *)
Theorem store_never_forgets :
  ∀ (parseDate : string → option Z) (now : string) (ev : Event) (st : Store)
    (conversationId : Id) (fetched : list MessageDoc) (listed : list ConversationDoc),
    (∀ k, is_Some (messages (state st) !! k) →
          is_Some (messages (state (dispatch now ev st)) !! k)
          ∧ is_Some (messages (state (loadMessages_resolve parseDate conversationId
                                        fetched st)) !! k)
          ∧ is_Some (messages (state (loadConversations_resolve listed st)) !! k))
    ∧ (∀ k, is_Some (conversations (state st) !! k) →
            is_Some (conversations (state (dispatch now ev st)) !! k)
            ∧ is_Some (conversations (state (loadMessages_resolve parseDate conversationId
                                               fetched st)) !! k)
            ∧ is_Some (conversations (state (loadConversations_resolve listed st)) !! k)).
Proof.
  intros parseDate now ev st cid fetched listed. split.
  - intros k Hk. split; [| split].
    + cbn. apply (stepShape_stays (state st)); [apply handle_shape | done].
    + rewrite resolve_state. cbn. by apply storeAll_stays.
    + done.
  - intros k Hk. split; [| split].
    + change (state (dispatch now ev st)) with (stateOf (handle now ev (state st))).
      destruct (handle_frames now ev (state st)) as (Hconv & _).
      destruct ev; try (rewrite (Hconv eq_refl); exact Hk); clear Hconv;
        cbn [handle stateOf].
      * cbn. unfold mergeAt. destruct (conversations (state st) !! c_id conversation);
          (destruct (decide (c_id conversation = k)) as [->|Hne];
           [rewrite lookup_insert_eq; done | by rewrite lookup_insert_ne]).
      * cbn. unfold mergeAt. destruct (conversations (state st) !! c_id conversation);
          (destruct (decide (c_id conversation = k)) as [->|Hne];
           [rewrite lookup_insert_eq; done | by rewrite lookup_insert_ne]).
      * unfold onConversationArchived.
        destruct (conversations (state st) !! conversationId) eqn:Hc; cbn; [| done].
        destruct (decide (conversationId = k)) as [->|Hne];
          [rewrite lookup_insert_eq; done | by rewrite lookup_insert_ne].
    + rewrite resolve_state. cbn.
      assert (∀ l s, conversations (storeAll l s) = conversations s) as ->; [| done].
      { induction l as [|m l IH]; intros s; [done |]. by rewrite storeAll_cons, IH. }
    + cbn. unfold mergeStoreNode. rewrite lookup_union.
      destruct Hk as [c Hc]. rewrite Hc. by destruct (conversationsMap listed !! k).
Qed.

(** X2.  Every message is stored under its own id: the new store is so, and
    every event handler and every reconciliation of loadMessages keeps it
    so. *)
Theorem messages_stay_keyed_by_id :
  ∀ (parseDate : string → option Z) (now : string) (ev : Event) (st : Store)
    (conversationId : Id) (fetched : list MessageDoc)
    (persisted : option (gmap Id ChatAgentState)) (hasSetActiveThread : bool),
    keyedById (state (createAgUiStore persisted hasSetActiveThread))
    ∧ (keyedById (state st) →
       keyedById (state (dispatch now ev st))
       ∧ keyedById (state (loadMessages_resolve parseDate conversationId fetched st))).
Proof.
  intros parseDate now ev st cid fetched persisted flag. split.
  - intros k m Hm. cbn in Hm. by rewrite lookup_empty in Hm.
  - intros Hkeyed. split.
    + cbn. apply (stepShape_keyed (state st)); [apply handle_shape | done].
    + rewrite resolve_state. intros k m. cbn. by apply storeAll_keyed.
Qed.

(** X3.  No message id occurs twice in the sequence of a conversation: the new
    store is so, every event handler keeps it so, and so does the
    reconciliation of loadMessages when the messages are keyed by their ids
    and the server answer lists no id twice. *)
Theorem sequences_stay_duplicate_free :
  ∀ (parseDate : string → option Z) (now : string) (ev : Event) (st : Store)
    (conversationId : Id) (fetched : list MessageDoc)
    (persisted : option (gmap Id ChatAgentState)) (hasSetActiveThread : bool),
    sequencesNoDup (state (createAgUiStore persisted hasSetActiveThread))
    ∧ (sequencesNoDup (state st) →
       sequencesNoDup (state (dispatch now ev st))
       ∧ (keyedById (state st) → NoDup (m_id <$> fetched) →
          sequencesNoDup (state (loadMessages_resolve parseDate conversationId
                                   fetched st)))).
Proof.
  intros parseDate now ev st cid fetched persisted flag. split.
  - intros c l Hl. cbn in Hl. by rewrite lookup_empty in Hl.
  - intros Hnd. split.
    + cbn. apply (stepShape_nodup (state st)); [apply handle_shape | done].
    + intros Hkeyed Hsrv c l. rewrite resolve_state. cbn. rewrite storeAll_sequences.
      destruct (decide (cid = c)) as [->|Hne].
      * rewrite lookup_insert_eq. intros [= <-].
        rewrite sortByCreatedAt_perm, fmap_app. apply NoDup_app.
        split; [by apply retained_ids_NoDup |]. split; [| done].
        intros x Hx. apply list_elem_of_fmap in Hx as (m & -> & Hm).
        by apply retained_spec in Hm as (_ & _ & Hnot).
      * rewrite lookup_insert_ne by done. apply Hnd.
Qed.

(** X4.  Every id in the sequence of a conversation is the key of a stored
    message: the new store is so, and every event handler and every
    reconciliation of loadMessages keeps it so. *)
Theorem sequences_name_stored_messages :
  ∀ (parseDate : string → option Z) (now : string) (ev : Event) (st : Store)
    (conversationId : Id) (fetched : list MessageDoc)
    (persisted : option (gmap Id ChatAgentState)) (hasSetActiveThread : bool),
    sequencesStored (state (createAgUiStore persisted hasSetActiveThread))
    ∧ (sequencesStored (state st) →
       sequencesStored (state (dispatch now ev st))
       ∧ sequencesStored (state (loadMessages_resolve parseDate conversationId
                                   fetched st))).
Proof.
  intros parseDate now ev st cid fetched persisted flag. split.
  - intros c l id Hl. cbn in Hl. by rewrite lookup_empty in Hl.
  - intros Hst. split.
    + cbn. apply (stepShape_stored (state st)); [apply handle_shape | done].
    + intros c l id. rewrite resolve_state. cbn. rewrite storeAll_sequences.
      destruct (decide (cid = c)) as [->|Hne].
      * rewrite lookup_insert_eq. intros [= <-] Hin.
        destruct (storeAll_stored _ (state st) id Hin) as (m' & -> & _). done.
      * rewrite lookup_insert_ne by done. intros Hl Hin.
        apply storeAll_stays. by apply (Hst c l).
Qed.

Lemma hasToolCall_app (id : Id) (l1 l2 : list ToolCall) :
  hasToolCall id (l1 ++ l2) = hasToolCall id l1 || hasToolCall id l2.
Proof. unfold hasToolCall. apply existsb_app. Qed.

Lemma hasToolCall_appendToolCall (toolCall : ToolCall) (arr : list ToolCall) :
  hasToolCall (tc_id toolCall) (appendToolCall toolCall arr) = true.
Proof.
  unfold appendToolCall. destruct (hasToolCall (tc_id toolCall) arr) eqn:Hhas; [done |].
  rewrite hasToolCall_app, Hhas. cbn. by rewrite bool_decide_eq_true_2.
Qed.

(** X5.  The parent message of every tool call in progress is stored: the new
    store is so, and every event handler and every reconciliation of
    loadMessages keeps it so.  Hence TOOL_CALL_END for a tool call in
    progress always finds the parent: it runs to its end, the parent then
    holds an entry with the id of the call, and the call is no longer in
    progress. *)
Theorem tool_call_parent_is_stored :
  ∀ (parseDate : string → option Z) (now : string) (ev : Event) (st : Store)
    (conversationId : Id) (fetched : list MessageDoc)
    (persisted : option (gmap Id ChatAgentState)) (hasSetActiveThread : bool),
    parentsStored (state (createAgUiStore persisted hasSetActiveThread))
    ∧ (parentsStored (state st) →
       parentsStored (state (dispatch now ev st))
       ∧ parentsStored (state (loadMessages_resolve parseDate conversationId fetched st))
       ∧ ∀ tc e,
           toolCallsInProgress (state st) !! tc = Some e →
           ∃ s' pm calls,
             handle now (TOOL_CALL_END tc) (state st) = Done s'
             ∧ messages s' !! tp_messageId e = Some pm
             ∧ m_toolCalls pm = Some calls
             ∧ hasToolCall (tp_id e) calls = true
             ∧ toolCallsInProgress s' !! tc = None).
Proof.
  intros parseDate now ev st cid fetched persisted flag. split.
  - intros tc e He. cbn in He. by rewrite lookup_empty in He.
  - intros Hp. split; [| split].
    + cbn. apply (stepShape_parents (state st)); [apply handle_shape | done].
    + intros tc e. rewrite resolve_state. cbn. rewrite storeAll_tools.
      intros He. apply storeAll_stays. by apply (Hp tc).
    + intros tc e He. destruct (Hp tc e He) as [msg Hmsg].
      cbn [handle]. unfold onToolCallEnd. rewrite He, Hmsg.
      eexists _, _, _. split; [done |]. cbn. rewrite lookup_insert_eq.
      split; [done |]. split; [done |].
      split; [| apply lookup_delete_eq].
      apply (hasToolCall_appendToolCall (mkToolCall (tp_id e) (tp_name e) (tp_args e))).
Qed.

(** X6.  A handler throws in exactly these cases: conversation.archived for a
    conversation that is not stored, message.created without a
    conversationId, TEXT_MESSAGE_END, message.errored or message.canceled
    for a message that is not stored, and TOOL_CALL_ARGS for a tool call
    that is not in progress.  Every other event runs to its end.  When a
    handler throws, the conversations, the sequences, the tool calls in
    progress, the attachments and the agent states are as before, and so
    are the messages unless the event was message.created. *)
Theorem handlers_throw_exactly_on_missing_keys :
  ∀ (now : string) (ev : Event) (s : ChatState),
    (throwsOn ev s = false → ∃ s', handle now ev s = Done s')
    ∧ (throwsOn ev s = true →
       ∃ s', handle now ev s = Threw s'
             ∧ conversations s' = conversations s
             ∧ messagesByConversation s' = messagesByConversation s
             ∧ toolCallsInProgress s' = toolCallsInProgress s
             ∧ attachments s' = attachments s
             ∧ agentStateByConversation s' = agentStateByConversation s
             ∧ (isMessageCreated ev = false → messages s' = messages s)).
Proof.
  intros now ev s.
  assert (Hend : ∀ id st,
            (isNone (messages s !! id) = false →
             ∃ s', ((if truthy (streaming s !! id)
                     then setMessageKey id (withContent (default "" (streaming s !! id))) s
                     else Done s)
                    >>> (fun s0 => Done (set_streaming (delete id) s0))
                    >>> setMessageKey id (withStatus st)) = Done s')
            ∧ (isNone (messages s !! id) = true →
               ∃ s', ((if truthy (streaming s !! id)
                       then setMessageKey id (withContent (default "" (streaming s !! id))) s
                       else Done s)
                      >>> (fun s0 => Done (set_streaming (delete id) s0))
                      >>> setMessageKey id (withStatus st)) = Threw s'
                     ∧ conversations s' = conversations s
                     ∧ messagesByConversation s' = messagesByConversation s
                     ∧ toolCallsInProgress s' = toolCallsInProgress s
                     ∧ attachments s' = attachments s
                     ∧ agentStateByConversation s' = agentStateByConversation s
                     ∧ messages s' = messages s)).
  { intros id st. destruct (messages s !! id) as [m0|] eqn:Hm; cbn [isNone];
      (split; intros Hx); try done.
    - destruct (truthy (streaming s !! id)).
      + rewrite (setMessageKey_Some _ _ _ _ Hm). cbn [andThen].
        erewrite setMessageKey_Some; [| cbn; apply lookup_insert_eq]. eauto.
      + cbn [andThen]. erewrite setMessageKey_Some; [| exact Hm]. eauto.
    - destruct (truthy (streaming s !! id)).
      + rewrite (setMessageKey_None _ _ _ Hm). cbn [andThen]. eexists; split; [reflexivity |]; repeat split.
      + cbn [andThen]. rewrite setMessageKey_None by exact Hm.
        eexists; split; [reflexivity |]; repeat split. }
  destruct ev; cbn [throwsOn isMessageCreated handle];
    try solve [split; [intros _; eexists; reflexivity | intros Hx; discriminate Hx]].
  - unfold onConversationArchived. destruct (conversations s !! conversationId);
      cbn [isNone]; (split; intros Hthrow); try done;
      first [ by eauto | eexists; (split; [reflexivity |]); repeat split ].
  - unfold onMessageCreated. destruct (m_conversationId message);
      cbn [isNone]; (split; intros Hthrow); try done; [eauto |].
    eexists. split; [done |]. repeat split; done.
  - unfold onTextMessageEnd. destruct (Hend messageId Completed) as [Hok Hbad].
    split; [exact Hok |]. intros Hthrow. destruct (Hbad Hthrow) as (s' & -> & H).
    exists s'. split; [done |]. intuition.
  - unfold onMessageErrored, setMessageKey. destruct (messages s !! messageId);
      cbn [isNone]; (split; intros Hthrow); try done;
      first [ by eauto | eexists; (split; [reflexivity |]); repeat split ].
  - unfold onMessageCanceled.
    destruct (messages s !! messageId) as [m0|] eqn:Hm; cbn [isNone];
      (split; intros Hthrow); try done.
    + destruct (truthy (streaming s !! messageId)).
      * rewrite (setMessageKey_Some _ _ _ _ Hm). cbn [andThen].
        erewrite setMessageKey_Some; [| cbn; apply lookup_insert_eq]. eauto.
      * cbn [andThen]. erewrite setMessageKey_Some; [| exact Hm]. eauto.
    + destruct (truthy (streaming s !! messageId)).
      * rewrite (setMessageKey_None _ _ _ Hm). cbn [andThen]. eexists; split; [reflexivity |]; repeat split.
      * cbn [andThen]. rewrite setMessageKey_None by exact Hm.
        eexists; split; [reflexivity |]; repeat split.
  - unfold onToolCallArgs. destruct (toolCallsInProgress s !! toolCallId);
      cbn [isNone]; (split; intros Hthrow); try done;
      first [ by eauto | eexists; (split; [reflexivity |]); repeat split ].
  - unfold onToolCallEnd. split; [intros _ | done].
    destruct (toolCallsInProgress s !! toolCallId); eauto.
  - unfold onAttachmentProgress. split; [intros _ | done].
    destruct (attachments s !! fileId); eauto.
  - unfold onStateSnapshot. split; [intros _ | done].
    destruct (js_or _ _) as [c|]; [| eauto]. destruct snapshot; [| eauto].
    destruct (nonEmpty c); eauto.
Qed.

Lemma start_state (now : string) (m : Id) (role : option Role) (cid : option Id)
    (s : ChatState) :
  let s1 := stateOf (handle now (TEXT_MESSAGE_START m role cid) s) in
  activeConversationId s1 = activeConversationId s
  ∧ streaming s1 = <[m := ""]> (streaming s)
  ∧ (∀ k, k ≠ m → messages s1 !! k = messages s !! k)
  ∧ messagesByConversation s1 =
      match js_or cid (activeConversationId s) with
      | Some c =>
          if nonEmpty c then
            let old := default [] (messagesByConversation s !! c) in
            if includes m old then messagesByConversation s
            else <[c := old ++ [m]]> (messagesByConversation s)
          else messagesByConversation s
      | None => messagesByConversation s
      end.
Proof.
  cbn [handle]. unfold onTextMessageStart. cbn [stateOf].
  destruct (js_or cid (activeConversationId s)) as [c|]; cbn.
  - destruct (nonEmpty c); cbn.
    + destruct (includes m _); cbn; repeat split; try done;
        intros k Hk; by rewrite lookup_insert_ne.
    + repeat split; try done. intros k Hk; by rewrite lookup_insert_ne.
  - repeat split; try done. intros k Hk; by rewrite lookup_insert_ne.
Qed.

(** X7.  TEXT_MESSAGE_START delivered twice for the same message lists the
    message once: the second delivery leaves the sequences and the
    streaming buffers as the first one made them.  After the first, the
    message is in the sequence of the conversation the event names (or,
    when it names none, of the active one): the sequence is as before when
    it listed the message, and has the message appended otherwise. *)
Theorem text_message_start_inserts_once :
  ∀ (now again : string) (s : ChatState) (m : Id) (role : option Role)
    (conversationId : option Id),
    let s1 := stateOf (handle now (TEXT_MESSAGE_START m role conversationId) s) in
    let s2 := stateOf (handle again (TEXT_MESSAGE_START m role conversationId) s1) in
    messagesByConversation s2 = messagesByConversation s1
    ∧ streaming s2 = streaming s1
    ∧ ∀ c, js_or conversationId (activeConversationId s) = Some c →
           nonEmpty c = true →
           let old := default [] (messagesByConversation s !! c) in
           messagesByConversation s1 !! c
             = Some (if bool_decide (m ∈ old) then old else old ++ [m])
           ∧ m ∈ default [] (messagesByConversation s1 !! c).
Proof.
  intros now again s m role cid s1 s2.
  destruct (start_state now m role cid s) as (Hact1 & Hstr1 & _ & Hseq1).
  destruct (start_state again m role cid s1) as (_ & Hstr2 & _ & Hseq2).
  fold s1 in Hact1, Hstr1, Hseq1, Hstr2, Hseq2. fold s2 in Hstr2, Hseq2.
  assert (Hc : ∀ c, js_or cid (activeConversationId s) = Some c → nonEmpty c = true →
               let old := default [] (messagesByConversation s !! c) in
               messagesByConversation s1 !! c
                 = Some (if bool_decide (m ∈ old) then old else old ++ [m])).
  { intros c Hjs Hne old. rewrite Hseq1, Hjs, Hne. cbn zeta. fold old.
    unfold includes. case_bool_decide as Hin.
    - subst old. destruct (messagesByConversation s !! c); [done |].
      by apply elem_of_nil in Hin.
    - apply lookup_insert_eq. }
  split; [| split].
  - rewrite Hseq2, Hact1.
    destruct (js_or cid (activeConversationId s)) as [c|] eqn:Hjs; [| done].
    destruct (nonEmpty c) eqn:Hne; [| done]. cbn zeta.
    rewrite (Hc c eq_refl Hne). cbn [default]. unfold includes.
    rewrite bool_decide_eq_true_2; [done |].
    case_bool_decide; [done | apply elem_of_app; right; apply list_elem_of_here].
  - rewrite Hstr2, Hstr1. apply insert_insert_eq.
  - intros c Hjs Hne old. rewrite (Hc c Hjs Hne). fold old. cbn [default].
    split; [done |].
    case_bool_decide; [done | apply elem_of_app; right; apply list_elem_of_here].
Qed.

(** X8.  For a stored message, TEXT_MESSAGE_END runs to its end and leaves the
    message completed and without a streaming buffer, and TEXT_MESSAGE_END
    delivered once more changes nothing. *)
Theorem text_message_end_redelivered :
  ∀ (now again : string) (s : ChatState) (m : Id) (msg : MessageDoc),
    messages s !! m = Some msg →
    ∃ s1 msg1,
      handle now (TEXT_MESSAGE_END m) s = Done s1
      ∧ messages s1 !! m = Some msg1
      ∧ m_status msg1 = Completed
      ∧ streaming s1 !! m = None
      ∧ handle again (TEXT_MESSAGE_END m) s1 = Done s1.
Proof.
  intros now again s m msg Hm.
  assert (Hsecond : ∀ s1 msg1,
            messages s1 !! m = Some msg1 → m_status msg1 = Completed →
            streaming s1 !! m = None →
            handle again (TEXT_MESSAGE_END m) s1 = Done s1).
  { intros s1 msg1 Hm1 Hst Hs1. cbn [handle]. unfold onTextMessageEnd.
    rewrite Hs1. cbn [truthy andThen].
    erewrite setMessageKey_Some; [| exact Hm1]. f_equal.
    destruct s1 as [rv cs ms ats mbc str tcs ags act]. cbn in *.
    unfold set_messages, set_streaming. cbn. f_equal.
    - apply insert_id. rewrite Hm1. f_equal. destruct msg1. cbn in *. by subst.
    - by apply delete_id. }
  cbn [handle]. unfold onTextMessageEnd.
  destruct (truthy (streaming s !! m)).
  - rewrite (setMessageKey_Some _ _ _ _ Hm). cbn [andThen].
    erewrite setMessageKey_Some; [| cbn; apply lookup_insert_eq].
    eexists _, _. split; [done |].
    assert (H1 : messages (set_messages
                   (insert m (withStatus Completed
                                (withContent (default "" (streaming s !! m)) msg)))
                   (set_streaming (delete m)
                      (set_messages (insert m (withContent (default "" (streaming s !! m)) msg)) s)))
                 !! m = Some (withStatus Completed
                                (withContent (default "" (streaming s !! m)) msg)))
      by (cbn; apply lookup_insert_eq).
    split; [exact H1 |]. split; [done |].
    split; [cbn; apply lookup_delete_eq |].
    eapply Hsecond; [exact H1 | done | cbn; apply lookup_delete_eq].
  - cbn [andThen]. erewrite setMessageKey_Some; [| exact Hm].
    eexists _, _. split; [done |].
    assert (H1 : messages (set_messages (insert m (withStatus Completed msg))
                             (set_streaming (delete m) s)) !! m
                 = Some (withStatus Completed msg))
      by (cbn; apply lookup_insert_eq).
    split; [exact H1 |]. split; [done |].
    split; [cbn; apply lookup_delete_eq |].
    eapply Hsecond; [exact H1 | done | cbn; apply lookup_delete_eq].
Qed.

Lemma text_message_end_redelivered_witness :
  ∃ s1 msg1,
    handle "t2" (TEXT_MESSAGE_END "m1") partialStream = Done s1
    ∧ messages s1 !! "m1" = Some msg1
    ∧ m_status msg1 = Completed
    ∧ streaming s1 !! "m1" = None
    ∧ handle "t3" (TEXT_MESSAGE_END "m1") s1 = Done s1.
Proof.
  apply (text_message_end_redelivered "t2" "t3" partialStream "m1"
           (mkMessage "m1" RoleAssistant "" (Some "c1") Streaming (Some "t0") None None)).
  by vm_compute.
Defined.

(** X9.  TOOL_CALL_START never throws.  It records the tool call as in progress
    with empty arguments and touches no other tool call and no message but
    the parent.  A parent that is stored is left as it is, and so are all
    sequences.  A parent that is not stored is created as an empty,
    completed assistant message of the conversation the event names (or of
    the active one), and is appended to the sequence of that conversation
    unless it is listed there; when there is no such conversation, the
    sequences stay as they are. *)
Theorem tool_call_start_makes_parent :
  ∀ (now : string) (s : ChatState) (p tc : Id) (name : string)
    (conversationId : option Id),
    ∃ s',
      handle now (TOOL_CALL_START p tc name conversationId) s = Done s'
      ∧ toolCallsInProgress s' !! tc = Some (mkInProgress tc name "" p)
      ∧ (∀ k, k ≠ tc → toolCallsInProgress s' !! k = toolCallsInProgress s !! k)
      ∧ (∀ k, k ≠ p → messages s' !! k = messages s !! k)
      ∧ (is_Some (messages s !! p) →
         messages s' = messages s
         ∧ messagesByConversation s' = messagesByConversation s)
      ∧ (messages s !! p = None →
         messages s' !! p =
           Some (mkMessage p RoleAssistant ""
                   (js_or conversationId (activeConversationId s))
                   Completed (Some now) None None)
         ∧ (∀ c, js_or conversationId (activeConversationId s) = Some c →
                 nonEmpty c = true →
                 messagesByConversation s' !! c
                   = Some (appendIfNew p (default [] (messagesByConversation s !! c)))
                 ∧ p ∈ appendIfNew p (default [] (messagesByConversation s !! c)))
         ∧ (truthy (js_or conversationId (activeConversationId s)) = false →
            messagesByConversation s' = messagesByConversation s)).
Proof.
  intros now s p tc name cid. cbn [handle]. unfold onToolCallStart.
  eexists. split; [done |].
  destruct (messages s !! p) as [pm|] eqn:Hp.
  - cbn. split; [apply lookup_insert_eq |].
    split; [intros k Hk; by rewrite lookup_insert_ne |].
    split; [done |]. split; [done |]. done.
  - assert (Happ : ∀ l : list Id, p ∈ appendIfNew p l).
    { intros l. unfold appendIfNew, includes. case_bool_decide; [done |].
      apply elem_of_app. right. apply list_elem_of_here. }
    destruct (js_or cid (activeConversationId s)) as [c|] eqn:Hjs; cbn.
    + destruct (nonEmpty c) eqn:Hne; cbn.
      * split; [apply lookup_insert_eq |].
        split; [intros k Hk; by rewrite lookup_insert_ne |].
        split; [intros k Hk; by rewrite lookup_insert_ne |].
        split; [by intros [? ?] |]. intros _.
        split; [apply lookup_insert_eq |].
        split; [| intros Hf; discriminate Hf].
        intros c' [= <-] _. split; [apply lookup_insert_eq | apply Happ].
      * split; [apply lookup_insert_eq |].
        split; [intros k Hk; by rewrite lookup_insert_ne |].
        split; [intros k Hk; by rewrite lookup_insert_ne |].
        split; [by intros [? ?] |]. intros _.
        split; [apply lookup_insert_eq |].
        split; [| done]. intros c' [= <-] Hc. congruence.
    + split; [apply lookup_insert_eq |].
      split; [intros k Hk; by rewrite lookup_insert_ne |].
      split; [intros k Hk; by rewrite lookup_insert_ne |].
      split; [by intros [? ?] |]. intros _.
      split; [apply lookup_insert_eq |]. split; [done | done].
Qed.

Lemma findParent_carrier (tc : Id) (s : ChatState) (pm : MessageDoc) :
  findParent tc s = Some pm →
  ∃ k, messages s !! k = Some pm
       ∧ hasToolCall tc (default [] (m_toolCalls pm)) = true.
Proof.
  unfold findParent, objectValues. intros Hfind.
  destruct (list_find _ _) as [[i x]|] eqn:Hlf; [| done].
  cbn in Hfind. injection Hfind as ->.
  apply list_find_Some in Hlf as (Hi & HP & _).
  apply list_elem_of_lookup_2 in Hi. apply list_elem_of_fmap in Hi as ([k y] & -> & Hky).
  apply elem_of_map_to_list in Hky. eauto.
Qed.

Lemma findParent_exists (tc : Id) (s : ChatState) (pm : MessageDoc) (k : Id) :
  messages s !! k = Some pm →
  hasToolCall tc (default [] (m_toolCalls pm)) = true →
  is_Some (findParent tc s).
Proof.
  intros Hk Hhas. unfold findParent, objectValues.
  destruct (list_find_elem_of
              (fun m => hasToolCall tc (default [] (m_toolCalls m)) = true)
              (map_to_list (messages s)).*2 pm) as [[i x] Hfound]; [| done |].
  - apply list_elem_of_fmap. exists (k, pm). split; [done |].
    by apply elem_of_map_to_list.
  - rewrite Hfound. done.
Qed.


Lemma handle_tools (now : string) (ev : Event) (s : ChatState) :
  toolCallsInProgress (stateOf (handle now ev s)) =
  match ev with
  | TOOL_CALL_START p tc name _ =>
      <[tc := mkInProgress tc name "" p]> (toolCallsInProgress s)
  | TOOL_CALL_ARGS tc delta =>
      match toolCallsInProgress s !! tc with
      | Some e =>
          <[tc := mkInProgress (tp_id e) (tp_name e) (tp_args e +:+ orEmpty delta)
                    (tp_messageId e)]> (toolCallsInProgress s)
      | None => toolCallsInProgress s
      end
  | TOOL_CALL_END tc =>
      match toolCallsInProgress s !! tc with
      | Some _ => delete tc (toolCallsInProgress s)
      | None => toolCallsInProgress s
      end
  | _ => toolCallsInProgress s
  end.
Proof. destruct ev; run_handler; done. Qed.

Lemma handle_toolsKeyed (now : string) (ev : Event) (s : ChatState) :
  toolsKeyed s → toolsKeyed (stateOf (handle now ev s)).
Proof.
  intros Hk k e. rewrite handle_tools.
  destruct ev; try apply Hk.
  - destruct (decide (toolCallId = k)) as [->|Hne].
    + rewrite lookup_insert_eq. by intros [= <-].
    + rewrite lookup_insert_ne by done. apply Hk.
  - destruct (toolCallsInProgress s !! toolCallId) as [e0|] eqn:He; [| apply Hk].
    destruct (decide (toolCallId = k)) as [->|Hne].
    + rewrite lookup_insert_eq. intros [= <-]. cbn. by apply Hk.
    + rewrite lookup_insert_ne by done. apply Hk.
  - destruct (toolCallsInProgress s !! toolCallId) as [e0|] eqn:He; [| apply Hk].
    intros Hl. apply lookup_delete_Some in Hl as [_ Hl]. by apply Hk.
Qed.

Lemma setMessageKey_toolCalls (id p : Id) (f : MessageDoc → MessageDoc) (s : ChatState)
    (pm : MessageDoc) :
  (∀ x, m_toolCalls (f x) = m_toolCalls x) →
  messages s !! p = Some pm →
  ∃ pm', messages (stateOf (setMessageKey id f s)) !! p = Some pm'
         ∧ m_toolCalls pm' = m_toolCalls pm.
Proof.
  intros Hf Hm. unfold setMessageKey.
  destruct (messages s !! id) as [x|] eqn:Hx; cbn; [| by exists pm].
  destruct (decide (id = p)) as [->|Hne].
  - rewrite lookup_insert_eq. exists (f x). split; [done |].
    rewrite Hf. congruence.
  - rewrite lookup_insert_ne by done. by exists pm.
Qed.

Lemma hasToolCall_appendToolCall_other (tc : Id) (toolCall : ToolCall)
    (arr : list ToolCall) :
  tc_id toolCall ≠ tc →
  hasToolCall tc (appendToolCall toolCall arr) = hasToolCall tc arr.
Proof.
  intros Hne. unfold appendToolCall. destruct (hasToolCall (tc_id toolCall) arr); [done |].
  rewrite hasToolCall_app. cbn. rewrite bool_decide_eq_false_2 by done.
  by rewrite !orb_false_r.
Qed.

(** A foreign event leaves the entries with id [tc] of the parent alone. *)
Lemma foreign_keeps_parent (now : string) (ev : Event) (s : ChatState)
    (tc p : Id) (pm : MessageDoc) :
  foreignTo tc p ev = true → toolsKeyed s → messages s !! p = Some pm →
  ∃ pm', messages (stateOf (handle now ev s)) !! p = Some pm'
         ∧ hasToolCall tc (default [] (m_toolCalls pm'))
           = hasToolCall tc (default [] (m_toolCalls pm)).
Proof.
  intros Hforeign Hkeyed Hm.
  assert (Hsame : ∀ s', messages s' = messages s →
            ∃ pm', messages s' !! p = Some pm'
                   ∧ hasToolCall tc (default [] (m_toolCalls pm'))
                     = hasToolCall tc (default [] (m_toolCalls pm)))
    by (intros s' ->; by exists pm).
  assert (Hkeep : ∀ o, (∃ pm', messages (stateOf o) !! p = Some pm'
                               ∧ m_toolCalls pm' = m_toolCalls pm) →
            ∃ pm', messages (stateOf o) !! p = Some pm'
                   ∧ hasToolCall tc (default [] (m_toolCalls pm'))
                     = hasToolCall tc (default [] (m_toolCalls pm)))
    by (intros o (pm' & H1 & H2); exists pm'; by rewrite H2).
  destruct (handle_frames now ev s) as (_ & _ & _ & _ & Hframe).
  destruct ev; cbn [foreignTo] in Hforeign;
    try (apply Hsame; apply Hframe; cbn; tauto); clear Hframe; cbn [handle].
  - (* message.created *)
    apply negb_true_iff, bool_decide_eq_false in Hforeign. unfold onMessageCreated.
    exists pm. split; [| done].
    destruct (m_conversationId message); cbn; by rewrite mergeAt_other.
  - (* TEXT_MESSAGE_START *)
    unfold onTextMessageStart. cbn [stateOf].
    destruct (decide (messageId = p)) as [->|Hne].
    + rewrite Hm.
      set (msg := mkMessage p _ _ _ _ _ _ _).
      assert (Hcalls : m_toolCalls msg = m_toolCalls pm) by done. clearbody msg.
      exists msg. split; [| by rewrite Hcalls].
      destruct (js_or _ _) as [c|]; cbn; [| apply lookup_insert_eq].
      destruct (nonEmpty c); cbn; [| apply lookup_insert_eq].
      destruct (includes _ _); cbn; apply lookup_insert_eq.
    + exists pm. split; [| done].
      destruct (js_or _ _) as [c|]; cbn; [| by rewrite lookup_insert_ne].
      destruct (nonEmpty c); cbn; [| by rewrite lookup_insert_ne].
      destruct (includes _ _); cbn; by rewrite lookup_insert_ne.
  - apply Hsame. done.
  - (* TEXT_MESSAGE_END *)
    apply Hkeep. unfold onTextMessageEnd.
    destruct (truthy (streaming s !! messageId)).
    + destruct (messages s !! messageId) as [x|] eqn:Hx.
      * rewrite (setMessageKey_Some _ _ _ _ Hx). cbn [andThen].
        destruct (setMessageKey_toolCalls messageId p (withStatus Completed)
                    (set_streaming (delete messageId)
                       (set_messages
                          (insert messageId
                             (withContent (default "" (streaming s !! messageId)) x)) s))
                    (if decide (messageId = p)
                     then withContent (default "" (streaming s !! messageId)) x else pm))
          as (pm' & H1 & H2); [done | |].
        -- cbn. destruct (decide (messageId = p)) as [->|Hne];
             [apply lookup_insert_eq | by rewrite lookup_insert_ne].
        -- exists pm'. split; [exact H1 |]. rewrite H2.
           destruct (decide (messageId = p)) as [->|Hne]; [cbn; congruence | done].
      * rewrite (setMessageKey_None _ _ _ Hx). cbn. by exists pm.
    + cbn [andThen]. by apply setMessageKey_toolCalls.
  - apply Hkeep. unfold onMessageErrored. by apply setMessageKey_toolCalls.
  - (* message.canceled *)
    apply Hkeep. unfold onMessageCanceled.
    destruct (truthy (streaming s !! messageId)).
    + destruct (messages s !! messageId) as [x|] eqn:Hx.
      * rewrite (setMessageKey_Some _ _ _ _ Hx). cbn [andThen].
        destruct (setMessageKey_toolCalls messageId p (withStatus Canceled)
                    (set_messages
                       (insert messageId
                          (withContent (default "" (streaming s !! messageId)) x)) s)
                    (if decide (messageId = p)
                     then withContent (default "" (streaming s !! messageId)) x else pm))
          as (pm' & H1 & H2); [done | |].
        -- cbn. destruct (decide (messageId = p)) as [->|Hne];
             [apply lookup_insert_eq | by rewrite lookup_insert_ne].
        -- exists pm'. split; [exact H1 |]. rewrite H2.
           destruct (decide (messageId = p)) as [->|Hne]; [cbn; congruence | done].
      * rewrite (setMessageKey_None _ _ _ Hx). cbn. by exists pm.
    + cbn [andThen]. by apply setMessageKey_toolCalls.
  - (* TOOL_CALL_START *)
    unfold onToolCallStart. cbn [stateOf]. exists pm. split; [| done].
    destruct (messages s !! parentMessageId) as [x|] eqn:Hx; [done |].
    assert (parentMessageId ≠ p) by congruence.
    destruct (js_or _ _) as [c|]; cbn; [| by rewrite lookup_insert_ne].
    destruct (nonEmpty c); cbn; by rewrite lookup_insert_ne.
  - (* TOOL_CALL_ARGS *)
    apply Hsame. unfold onToolCallArgs. by destruct (toolCallsInProgress s !! _).
  - (* TOOL_CALL_END *)
    apply negb_true_iff, bool_decide_eq_false in Hforeign.
    unfold onToolCallEnd.
    destruct (toolCallsInProgress s !! toolCallId) as [e|] eqn:He; [| by exists pm].
    cbn [stateOf]. destruct (messages s !! tp_messageId e) as [x|] eqn:Hx; [| by exists pm].
    cbn [messages set_toolCallsInProgress set_messages].
    destruct (decide (tp_messageId e = p)) as [Hp|Hne].
    + rewrite Hp in *. rewrite lookup_insert_eq. eexists. split; [done |].
      cbn [m_toolCalls withToolCalls default id]. rewrite hasToolCall_appendToolCall_other.
      * congruence.
      * cbn. rewrite (Hkeyed _ _ He). done.
    + rewrite lookup_insert_ne by done. by exists pm.
  - (* TOOL_CALL_RESULT *)
    unfold onToolCallResult. cbn [stateOf].
    destruct (decide (messageId = p)) as [->|Hne].
    + rewrite Hm.
      set (msg := mkMessage p _ _ _ _ _ _ _).
      assert (Hcalls : m_toolCalls msg = m_toolCalls pm) by done. clearbody msg.
      exists msg. split; [| by rewrite Hcalls].
      destruct (js_or _ _) as [c|]; cbn; [| apply lookup_insert_eq].
      destruct (nonEmpty c); cbn; apply lookup_insert_eq.
    + exists pm. split; [| done].
      destruct (js_or _ _) as [c|]; cbn; [| by rewrite lookup_insert_ne].
      destruct (nonEmpty c); cbn; by rewrite lookup_insert_ne.
Qed.

Lemma foreign_keeps_entry (now : string) (ev : Event) (s : ChatState) (tc p : Id) :
  foreignTo tc p ev = true →
  toolCallsInProgress (stateOf (handle now ev s)) !! tc = toolCallsInProgress s !! tc
  ∧ ownDelta tc ev = None.
Proof.
  intros Hforeign. rewrite handle_tools.
  destruct ev; cbn [foreignTo ownDelta] in *; try done.
  - apply negb_true_iff, bool_decide_eq_false in Hforeign.
    by rewrite lookup_insert_ne.
  - apply negb_true_iff, bool_decide_eq_false in Hforeign.
    rewrite bool_decide_eq_false_2 by done. split; [| done].
    destruct (toolCallsInProgress s !! toolCallId); [| done].
    by rewrite lookup_insert_ne.
  - apply negb_true_iff, bool_decide_eq_false in Hforeign. split; [| done].
    destruct (toolCallsInProgress s !! toolCallId); [| done].
    by rewrite lookup_delete_ne.
Qed.

Lemma arrive_cons (now : string) (ev : Event) (evs : list (string * Event))
    (s : ChatState) :
  arrive ((now, ev) :: evs) s = arrive evs (stateOf (handle now ev s)).
Proof. done. Qed.

Lemma arrive_interleaved (tc p : Id) (name : string) (evs : list (string * Event)) :
  ∀ (s : ChatState) (acc : string) (pm : MessageDoc),
    interleaved tc p evs → toolsKeyed s →
    toolCallsInProgress s !! tc = Some (mkInProgress tc name acc p) →
    messages s !! p = Some pm →
    hasToolCall tc (default [] (m_toolCalls pm)) = false →
    toolCallsInProgress (arrive evs s) !! tc
      = Some (mkInProgress tc name (acc +:+ joinDeltas (ownDeltas tc evs)) p)
    ∧ ∃ pm', messages (arrive evs s) !! p = Some pm'
             ∧ hasToolCall tc (default [] (m_toolCalls pm')) = false.
Proof.
  induction evs as [|[now ev] evs IH]; intros s acc pm Hall Hkeyed Htc Hp Hfresh.
  - cbn. rewrite append_empty_r. eauto.
  - apply Forall_cons in Hall as [Hev Hall]. cbn [snd] in Hev.
    rewrite arrive_cons.
    pose proof (handle_toolsKeyed now ev s Hkeyed) as Hkeyed'.
    destruct (ownDelta tc ev) as [d|] eqn:Hown.
    + (* an ARGS event of this tool call *)
      destruct ev; cbn [ownDelta] in Hown; try done.
      case_bool_decide as Heq; [| done]. injection Hown as <-. subst toolCallId.
      unfold ownDeltas. cbn [omap list_omap snd ownDelta].
      rewrite bool_decide_eq_true_2 by done. cbn [joinDeltas foldr].
      fold (ownDeltas tc evs). rewrite <- append_assoc.
      apply (IH _ _ pm); [done | done | | |done].
      * cbn [handle]. unfold onToolCallArgs. rewrite Htc. cbn. apply lookup_insert_eq.
      * cbn [handle]. unfold onToolCallArgs. by rewrite Htc.
    + destruct Hev as [Hforeign | [? ?]]; [| done].
      destruct (foreign_keeps_entry now ev s tc p Hforeign) as [Hsame _].
      destruct (foreign_keeps_parent now ev s tc p pm Hforeign Hkeyed Hp)
        as (pm' & Hp' & Hhas).
      unfold ownDeltas. cbn [omap list_omap snd]. rewrite Hown.
      fold (ownDeltas tc evs).
      apply (IH _ _ pm'); [done | done | by rewrite Hsame | done | congruence].
Qed.

(** X11.  Tool calls that are streamed at the same time do not mix.  Let tool
    call tc be new to its parent p, and let every tool call in progress be
    stored under its own id.  Between TOOL_CALL_START and TOOL_CALL_END of
    tc any events may arrive, as long as those that are START, ARGS or END
    belong to other tool calls or are ARGS of tc, and no message.created
    stores a message under the id of p.  Then END runs to its end, p holds
    exactly one entry with the id of tc, the arguments of that entry are
    the deltas of tc joined in the order of their arrival, and tc is no
    longer in progress. *)
Theorem tool_calls_do_not_mix :
  ∀ (s : ChatState) (p tc : Id) (name : string) (conversationId : option Id)
    (tStart tEnd : string) (evs : list (string * Event)),
    freshToolCall s p tc → toolsKeyed s → interleaved tc p evs →
    let s1 := stateOf (handle tStart (TOOL_CALL_START p tc name conversationId) s) in
    ∃ s' pm calls,
      handle tEnd (TOOL_CALL_END tc) (arrive evs s1) = Done s'
      ∧ messages s' !! p = Some pm
      ∧ m_toolCalls pm = Some calls
      ∧ entriesFor tc calls = [mkToolCall tc name (joinDeltas (ownDeltas tc evs))]
      ∧ toolCallsInProgress s' !! tc = None.
Proof.
  intros s p tc name cid tStart tEnd evs Hfresh Hkeyed Hall s1.
  destruct (onToolCallStart_spec tStart p tc name cid s)
    as (s1' & pm & H1 & Hp1 & Hcalls & Htc1).
  assert (Hs1 : s1 = s1') by (subst s1; cbn [handle]; by rewrite H1).
  rewrite <- Hs1 in *. clear Hs1 s1' H1.
  assert (Hno : hasToolCall tc (default [] (m_toolCalls pm)) = false).
  { rewrite Hcalls. destruct (messages s !! p) as [m0|] eqn:Hp; [| done].
    by apply Hfresh. }
  destruct (arrive_interleaved tc p name evs s1 "" pm Hall
              (handle_toolsKeyed tStart _ s Hkeyed) Htc1 Hp1 Hno)
    as (Htc2 & pm2 & Hp2 & Hno2).
  change ("" +:+ joinDeltas (ownDeltas tc evs)) with (joinDeltas (ownDeltas tc evs)) in Htc2.
  cbn [handle]. unfold onToolCallEnd. rewrite Htc2.
  cbn [tp_messageId tp_id tp_name tp_args]. rewrite Hp2.
  eexists _, _, _. split; [done |].
  split; [cbn; apply lookup_insert_eq |].
  split.
  { cbn [m_toolCalls withToolCalls]. unfold appendToolCall. cbn [tc_id].
    by rewrite Hno2. }
  split; [| cbn; apply lookup_delete_eq].
  rewrite entriesFor_app, (entriesFor_absent _ _ Hno2), app_nil_l.
  unfold entriesFor. rewrite filter_cons_True by done. by rewrite filter_nil.
Qed.

Lemma tool_calls_do_not_mix_witness :
  ∃ s' pm calls,
    handle "t9" (TOOL_CALL_END "tc1")
      (arrive [("t1", TOOL_CALL_START "p1" "tc2" "fetch" (Some "c1"));
               ("t2", TOOL_CALL_ARGS "tc1" (Some "[1,"));
               ("t3", TOOL_CALL_ARGS "tc2" (Some "[9]"));
               ("t4", TOOL_CALL_END "tc2");
               ("t5", TOOL_CALL_ARGS "tc1" (Some "2]"))]
         (stateOf (handle "t0" (TOOL_CALL_START "p1" "tc1" "search" (Some "c1"))
                     (initialState None)))) = Done s'
    ∧ messages s' !! "p1" = Some pm
    ∧ m_toolCalls pm = Some calls
    ∧ entriesFor "tc1" calls = [mkToolCall "tc1" "search" "[1,2]"]
    ∧ toolCallsInProgress s' !! "tc1" = None.
Proof.
  apply (tool_calls_do_not_mix (initialState None) "p1" "tc1" "search" (Some "c1")
           "t0" "t9").
  - intros msg Hmsg. vm_compute in Hmsg. discriminate.
  - intros k e He. vm_compute in He. discriminate.
  - unfold interleaved.
    repeat (apply Forall_cons; split); try exact (Forall_nil_2 _);
      first [ left; vm_compute; reflexivity | right; vm_compute; eexists; reflexivity ].
Defined.

(** ** Attachments, snapshots and the active conversation

    Where a property below speaks of the copy of an attachment in the agent
    state of the active conversation after a write to an entry that is
    there, it speaks of what the handler writes through both paths (the
    [state] and the [error] of the [metadata]), or of a copy that the
    handler stores anew.  On these the source, where the two copies may be
    one object, and the embedding by value agree. *)

Lemma deliver_progress (fileId : Id) (steps : list (string * UploadProgress)) :
  ∀ (s : ChatState) (a : AttachmentDoc),
    attachments s !! fileId = Some a →
    ∃ s' a',
      deliver (progressEvents fileId steps) s = Done s'
      ∧ attachments s' !! fileId = Some a'
      ∧ a_id a' = a_id a
      ∧ a_name a' = a_name a
      ∧ activeConversationId s' = activeConversationId s
      ∧ agentStateByConversation s' = agentStateByConversation s.
Proof.
  induction steps as [|[t p] steps IH]; intros s a Ha.
  - exists s, a. by cbn.
  - cbn [progressEvents fmap list_fmap deliver fst snd handle].
    unfold onAttachmentProgress. rewrite Ha. cbn [andThen].
    destruct (IH (set_attachments (insert fileId (withProgress p a)) s)
                (withProgress p a)) as (s' & a' & Hrun & Ha' & Hid & Hname & Hact & Hag).
    { cbn. apply lookup_insert_eq. }
    exists s', a'. cbn in Hid, Hname, Hact, Hag. done.
Qed.

Lemma storeAttachment_global (a : AttachmentDoc) (s : ChatState) :
  ∃ s1 g,
    storeAttachment a s = Done s1
    ∧ attachments s1 !! a_id a = Some g
    ∧ a_id g = a_id a ∧ a_name g = a_name a ∧ a_state g = a_state a
    ∧ activeConversationId s1 = activeConversationId s
    ∧ (∀ c, activeConversationId s = Some c → nonEmpty c = true →
            conversationAttachment c (a_id a) s1 = Some a)
    ∧ (activeConversationId s = None →
       agentStateByConversation s1 = agentStateByConversation s).
Proof.
  unfold storeAttachment.
  set (s0 := set_attachments (mergeAt mergeAttachment (a_id a) a) s).
  assert (Hg : ∃ g, attachments s0 !! a_id a = Some g
                    ∧ a_id g = a_id a ∧ a_name g = a_name a ∧ a_state g = a_state a).
  { subst s0. cbn. unfold mergeAt.
    destruct (attachments s !! a_id a) as [prev|];
      rewrite lookup_insert_eq; eauto 10. }
  destruct Hg as (g & Hg & Hid & Hname & Hstate).
  assert (Hact : activeConversationId s0 = activeConversationId s) by done.
  rewrite Hact.
  destruct (activeConversationId s) as [c|] eqn:Hc.
  - destruct (nonEmpty c) eqn:Hne.
    + eexists _, g. split; [done |]. repeat split; try done.
      intros c' [= <-] _. unfold conversationAttachment. cbn.
      rewrite lookup_insert_eq. cbn. apply lookup_insert_eq.
    + eexists _, g. split; [done |]. repeat split; try done.
      intros c' [= <-] ?. congruence.
  - eexists _, g. split; [done |]. repeat split; done.
Qed.


(** X13.  STATE_SNAPSHOT for a conversation (the one the event names, or the
    active one when it names none) overwrites exactly the keys the snapshot
    carries: the suggested questions and the attachments of the
    conversation are each replaced when the snapshot has the key and kept
    when it has not.  So a snapshot that carries attachments drops the
    attachments recorded for the conversation before.  The other
    conversations, the global attachments, the messages, the sequences and
    the active conversation are as before, and the same snapshot delivered
    once more changes nothing. *)
Theorem state_snapshot_overwrites_the_keys_it_carries :
  ∀ (now again : string) (s : ChatState) (conversationId : option Id)
    (snapshot : ChatAgentState) (c : Id),
    js_or conversationId (activeConversationId s) = Some c →
    nonEmpty c = true →
    ∃ s' merged,
      handle now (STATE_SNAPSHOT conversationId (Some snapshot)) s = Done s'
      ∧ agentStateByConversation s' !! c = Some merged
      ∧ suggestedQuestions merged
        = match suggestedQuestions snapshot with
          | Some q => Some q
          | None => agentStateByConversation s !! c ≫= suggestedQuestions
          end
      ∧ (∀ fileId,
           conversationAttachment c fileId s'
           = match ag_attachments snapshot with
             | Some atts => atts !! fileId
             | None => conversationAttachment c fileId s
             end)
      ∧ (∀ c', c' ≠ c →
               agentStateByConversation s' !! c' = agentStateByConversation s !! c')
      ∧ attachments s' = attachments s
      ∧ messages s' = messages s
      ∧ messagesByConversation s' = messagesByConversation s
      ∧ conversations s' = conversations s
      ∧ activeConversationId s' = activeConversationId s
      ∧ handle again (STATE_SNAPSHOT conversationId (Some snapshot)) s' = Done s'.
Proof.
  intros now again s cid snapshot c Hc Hne.
  cbn [handle]. unfold onStateSnapshot. rewrite Hc, Hne.
  eexists _, _. split; [done |].
  split; [cbn; apply lookup_insert_eq |].
  split.
  { unfold mergeAgentState, keep. cbn.
    destruct (suggestedQuestions snapshot); [done |].
    by destruct (agentStateByConversation s !! c). }
  split.
  { intros fileId. unfold conversationAttachment. cbn. rewrite lookup_insert_eq.
    unfold mergeAgentState, keep. cbn.
    destruct (ag_attachments snapshot); [done |].
    by destruct (agentStateByConversation s !! c). }
  split; [intros c' Hc'; cbn; by rewrite lookup_insert_ne |].
  repeat (split; [done |]).
  cbn [activeConversationId set_agentStateByConversation]. rewrite Hc, Hne.
  f_equal. unfold set_agentStateByConversation. cbn. f_equal.
  rewrite lookup_insert_eq. cbn. rewrite insert_insert_eq. f_equal.
  unfold mergeAgentState, keep. cbn.
  by destruct (suggestedQuestions snapshot), (ag_attachments snapshot).
Qed.

Lemma state_snapshot_overwrites_the_keys_it_carries_witness :
  let s := stateOf (handle "t0"
                      (AttachmentUploading
                         (mkAttachment "f1" "a.png" "image/png" 10 "" AttUploading
                            (Some (mkMeta None None))))
                      (set_activeConversationId (Some "c1") (initialState None))) in
  conversationAttachment "c1" "f1" s
    = Some (mkAttachment "f1" "a.png" "image/png" 10 "" AttUploading
              (Some (mkMeta None None)))
  ∧ ∃ s' merged,
      handle "t1" (STATE_SNAPSHOT None (Some (mkAgentState (Some ["why?"]) (Some ∅)))) s
        = Done s'
      ∧ agentStateByConversation s' !! "c1" = Some merged
      ∧ suggestedQuestions merged = Some ["why?"]
      ∧ conversationAttachment "c1" "f1" s' = None
      ∧ handle "t2" (STATE_SNAPSHOT None (Some (mkAgentState (Some ["why?"]) (Some ∅)))) s'
        = Done s'.
Proof.
  intros s. split; [by vm_compute |].
  destruct (state_snapshot_overwrites_the_keys_it_carries "t1" "t2" s None
              (mkAgentState (Some ["why?"]) (Some ∅)) "c1" eq_refl eq_refl)
    as (s' & merged & Hrun & Hmerged & Hq & Hatt & _ & _ & _ & _ & _ & _ & Hagain).
  exists s', merged. repeat split; try done; by rewrite Hatt.
Defined.

(** X14.  setActiveConversation sets the active conversation and, when the
    client has setActiveThread, issues that one call; it leaves every map
    of the store as it was.  This includes the global attachments:
    setState on attachments with an object without keys merges nothing into
    the stored map.  So an attachment.failed that arrives after the switch
    still finds the entry of its file in the global map and marks it
    failed. *)
Theorem switching_the_conversation_keeps_the_global_attachments :
  ∀ (st : Store) (id : Id),
    let st' := setActiveConversation id st in
    activeConversationId (state st') = Some id
    ∧ attachments (state st') = attachments (state st)
    ∧ agentStateByConversation (state st') = agentStateByConversation (state st)
    ∧ messages (state st') = messages (state st)
    ∧ messagesByConversation (state st') = messagesByConversation (state st)
    ∧ conversations (state st') = conversations (state st)
    ∧ streaming (state st') = streaming (state st)
    ∧ toolCallsInProgress (state st') = toolCallsInProgress (state st)
    ∧ loadedConversations st' = loadedConversations st
    ∧ loadingConversations st' = loadingConversations st
    ∧ requests st'
      = requests st ++ (if clientHasSetActiveThread st then [SetActiveThread id] else [])
    ∧ (∀ now fileId error a,
         attachments (state st) !! fileId = Some a →
         ∃ g, attachments (state (dispatch now (AttachmentFailed fileId error) st')) !! fileId
              = Some g
              ∧ failedWith error g ∧ a_id g = a_id a ∧ a_name g = a_name a).
Proof.
  intros st id st'.
  assert (Hstate : state st' = set_attachments (mergeStoreNode ∅)
                                 (set_activeConversationId (Some id) (state st))).
  { subst st'. unfold setActiveConversation. cbn.
    by destruct (clientHasSetActiveThread st). }
  assert (Hatt : attachments (state st') = attachments (state st)).
  { rewrite Hstate. cbn. unfold mergeStoreNode. apply (left_id_L ∅ (∪)). }
  rewrite Hstate at 1 3 4 5 6 7 8.
  split; [done |]. split; [exact Hatt |]. do 6 (split; [done |]).
  split; [subst st'; unfold setActiveConversation; cbn;
          by destruct (clientHasSetActiveThread st) |].
  split; [subst st'; unfold setActiveConversation; cbn;
          by destruct (clientHasSetActiveThread st) |].
  split.
  { subst st'. unfold setActiveConversation. cbn.
    destruct (clientHasSetActiveThread st); [done |]. by rewrite app_nil_r. }
  intros now fileId error a Ha.
  unfold dispatch, withState. cbn [state handle]. unfold onAttachmentFailed.
  rewrite Hatt, Ha.
  set (s1 := set_attachments (insert fileId (markFailed error a)) (state st')).
  assert (Hg : attachments s1 !! fileId = Some (markFailed error a))
    by (subst s1; cbn; apply lookup_insert_eq).
  exists (markFailed error a).
  split; [| by repeat split].
  destruct (activeConversationId s1) as [c|]; [| done].
  destruct (nonEmpty c); [| done].
  destruct (conversationAttachment c fileId s1); [| done].
  done.
Qed.

(** ** Loading while events arrive *)

Lemma dispatchAll_state (evs : list (string * Event)) (st : Store) :
  state (dispatchAll evs st) = arrive evs (state st).
Proof.
  revert st. induction evs as [|[now ev] evs IH]; intros st; [done |].
  change (dispatchAll ((now, ev) :: evs) st) with (dispatchAll evs (dispatch now ev st)).
  by rewrite IH.
Qed.

Lemma arrive_app (l1 l2 : list (string * Event)) (s : ChatState) :
  arrive (l1 ++ l2) s = arrive l2 (arrive l1 s).
Proof. apply foldl_app. Qed.

Lemma arrive_done (evs : list (string * Event)) (s s' : ChatState) :
  deliver evs s = Done s' → arrive evs s = s'.
Proof.
  revert s. induction evs as [|[now ev] evs IH]; intros s Hrun.
  - by injection Hrun.
  - cbn [deliver] in Hrun. rewrite arrive_cons.
    destruct (handle now ev s) as [s1|s1]; [| done]. by apply IH.
Qed.

Lemma joinDeltas_app (l1 l2 : list (option string)) :
  joinDeltas (l1 ++ l2) = joinDeltas l1 +:+ joinDeltas l2.
Proof.
  induction l1 as [|d l1 IH]; [done |].
  cbn [app]. unfold joinDeltas in *. cbn [foldr]. by rewrite IH, append_assoc.
Qed.

Lemma storeAll_streaming (l : list MessageDoc) (s : ChatState) :
  streaming (storeAll l s) = streaming s
  ∧ conversations (storeAll l s) = conversations s
  ∧ attachments (storeAll l s) = attachments s
  ∧ agentStateByConversation (storeAll l s) = agentStateByConversation s
  ∧ activeConversationId (storeAll l s) = activeConversationId s
  ∧ toolCallsInProgress (storeAll l s) = toolCallsInProgress s.
Proof.
  revert s. induction l as [|m l IH]; intros s; [done |].
  rewrite storeAll_cons. destruct (IH (set_messages (mergeAt mergeMessage (m_id m) m) s))
    as (-> & -> & -> & -> & -> & ->). done.
Qed.

Lemma stream_state (m : Id) (role : option Role) (cid : option Id) (tStart : string)
    (deltas : list (string * option string)) (s : ChatState) :
  let s1 := arrive ((tStart, TEXT_MESSAGE_START m role cid) :: contentEvents m deltas) s in
  (∃ msg, messages s1 !! m = Some msg ∧ m_status msg = Streaming ∧ m_id msg = m)
  ∧ streaming s1 !! m = Some (joinDeltas deltas.*2)
  ∧ ∀ c, js_or cid (activeConversationId s) = Some c → nonEmpty c = true →
         m ∈ default [] (messagesByConversation s1 !! c).
Proof.
  intros s1. subst s1. rewrite arrive_cons.
  set (s0 := stateOf (handle tStart (TEXT_MESSAGE_START m role cid) s)).
  assert (Hm0 : ∃ msg, messages s0 !! m = Some msg ∧ m_status msg = Streaming
                       ∧ m_id msg = m).
  { subst s0. cbn [handle]. unfold onTextMessageStart. cbn [stateOf].
    destruct (messages s !! m);
      (destruct (js_or cid (activeConversationId s)) as [c|];
       [destruct (nonEmpty c); [destruct (includes m _) |] |]);
      cbn; rewrite lookup_insert_eq; eauto. }
  assert (Hs0 : streaming s0 !! m = Some "").
  { destruct (start_state tStart m role cid s) as (_ & Hstr & _). fold s0 in Hstr.
    rewrite Hstr. apply lookup_insert_eq. }
  assert (Hseq0 : ∀ c, js_or cid (activeConversationId s) = Some c → nonEmpty c = true →
                       m ∈ default [] (messagesByConversation s0 !! c)).
  { intros c Hc Hne. destruct (start_state tStart m role cid s) as (_ & _ & _ & Hseq).
    fold s0 in Hseq. rewrite Hseq, Hc, Hne. cbn zeta. unfold includes.
    case_bool_decide as Hin; [done |]. rewrite lookup_insert_eq. cbn.
    apply elem_of_app. right. apply list_elem_of_here. }
  destruct (deliver_content m deltas s0 "" Hs0) as (s1 & Hrun & Hmsgs & Hstr).
  apply arrive_done in Hrun. rewrite Hrun.
  assert (Hseq1 : messagesByConversation s1 = messagesByConversation s0).
  { rewrite <- Hrun. clear. generalize s0.
    induction deltas as [|[t d] deltas IH]; intros s'; [done |].
    cbn [contentEvents fmap list_fmap]. rewrite arrive_cons.
    fold (contentEvents m deltas). rewrite (IH _). done. }
  rewrite Hmsgs, Hseq1. done.
Qed.

Lemma content_after (m : Id) (deltas : list (string * option string)) (s : ChatState)
    (acc : string) :
  streaming s !! m = Some acc →
  let s' := arrive (contentEvents m deltas) s in
  messages s' = messages s
  ∧ streaming s' !! m = Some (acc +:+ joinDeltas deltas.*2).
Proof.
  intros Hs. destruct (deliver_content m deltas s acc Hs) as (s1 & Hrun & Hmsgs & Hstr).
  apply arrive_done in Hrun. cbn zeta. by rewrite Hrun.
Qed.

Section Reload.

Variable parseDate : string → option Z.

(** X15.  An answer to loadMessages that arrives in the middle of a text stream
    does not disturb the stream.  After TEXT_MESSAGE_START and some deltas,
    the reconciliation of any server answer for any conversation, more
    deltas and TEXT_MESSAGE_END, the message is completed, its content is
    the text of all the deltas in order (for a text that is not empty), and
    its streaming buffer is gone; the message is listed in the sequence of
    its conversation right after the reload and at the end. *)
Theorem reload_in_mid_stream_keeps_the_stream :
  ∀ (st : Store) (m : Id) (role : option Role) (conversationId : option Id)
    (tStart tEnd : string) (before after : list (string * option string))
    (loaded : Id) (fetched : list MessageDoc),
    let text := joinDeltas (before.*2 ++ after.*2) in
    nonEmpty text = true →
    let st1 := dispatchAll ((tStart, TEXT_MESSAGE_START m role conversationId)
                              :: contentEvents m before) st in
    let st2 := loadMessages_resolve parseDate loaded fetched st1 in
    let st3 := dispatchAll (contentEvents m after ++ [(tEnd, TEXT_MESSAGE_END m)]) st2 in
    (∃ msg, messages (state st3) !! m = Some msg
            ∧ m_content msg = text ∧ m_status msg = Completed)
    ∧ streaming (state st3) !! m = None
    ∧ ∀ c, js_or conversationId (activeConversationId (state st)) = Some c →
           nonEmpty c = true →
           m ∈ default [] (messagesByConversation (state st2) !! c)
           ∧ m ∈ default [] (messagesByConversation (state st3) !! c).
Proof.
  intros st m role cid tStart tEnd before after loaded fetched text Htext st1 st2 st3.
  destruct (stream_state m role cid tStart before (state st))
    as ((msg1 & Hmsg1 & Hst1 & Hid1) & Hstr1 & Hseq1).
  rewrite <- dispatchAll_state in Hmsg1, Hstr1, Hseq1. fold st1 in Hmsg1, Hstr1, Hseq1.
  (* the load *)
  assert (Hstate2 : state st2
            = set_messagesByConversation
                (insert loaded
                   (m_id <$> sortByCreatedAt parseDate
                               (retained loaded fetched (state st1) ++ fetched)))
                (storeAll
                   (sortByCreatedAt parseDate
                      (retained loaded fetched (state st1) ++ fetched)) (state st1)))
    by apply resolve_state.
  assert (Hstr2 : streaming (state st2) !! m = Some (joinDeltas before.*2)).
  { rewrite Hstate2. unfold set_messagesByConversation. cbn [streaming].
    destruct (storeAll_streaming
                (sortByCreatedAt parseDate (retained loaded fetched (state st1) ++ fetched))
                (state st1)) as (-> & _). done. }
  assert (Hmsg2 : is_Some (messages (state st2) !! m)).
  { rewrite Hstate2. unfold set_messagesByConversation. cbn [messages].
    apply storeAll_stays. by rewrite Hmsg1. }
  destruct Hmsg2 as [msg2 Hmsg2].
  assert (Hseq2 : ∀ c, js_or cid (activeConversationId (state st)) = Some c →
                       nonEmpty c = true →
                       m ∈ default [] (messagesByConversation (state st2) !! c)).
  { intros c Hc Hne. specialize (Hseq1 c Hc Hne).
    rewrite Hstate2. unfold set_messagesByConversation. cbn [messagesByConversation].
    rewrite storeAll_sequences.
    destruct (decide (loaded = c)) as [->|Hother];
      [| by rewrite lookup_insert_ne].
    rewrite lookup_insert_eq. cbn.
    rewrite sortByCreatedAt_perm, fmap_app. apply elem_of_app.
    destruct (decide (m ∈ m_id <$> fetched)) as [Hin|Hout]; [by right | left].
    apply list_elem_of_fmap. exists msg1. split; [done |].
    apply retained_spec. split; [| split; [by left | by rewrite Hid1]].
    apply elem_of_localMessages. by exists m. }
  (* the rest of the stream *)
  destruct (content_after m after (state st2) _ Hstr2) as (Hmsgs3 & Hstr3).
  assert (Hseq3 : ∀ evs s, (∀ e, e ∈ evs → ∃ d, e.2 = TEXT_MESSAGE_CONTENT m d
                                          ∨ e.2 = TEXT_MESSAGE_END m) →
                           messagesByConversation (arrive evs s)
                           = messagesByConversation s).
  { induction evs as [|[t e] evs IH]; intros s Hevs; [done |].
    rewrite arrive_cons, IH.
    - destruct (Hevs (t, e)) as [d [He | He]]; [apply list_elem_of_here | |];
        cbn in He; subst e; [done |].
      cbn [snd handle]. unfold onTextMessageEnd, setMessageKey.
      destruct (truthy _); cbn; repeat (destruct (_ !! m); cbn); done.
    - intros e' He'. apply Hevs. by apply list_elem_of_further. }
  subst st3. rewrite dispatchAll_state, arrive_app.
  set (s3 := arrive (contentEvents m after) (state st2)) in *.
  rewrite <- Hmsgs3 in Hmsg2.
  rewrite <- joinDeltas_app in Hstr3. fold text in Hstr3.
  destruct (onTextMessageEnd_spec m s3 msg2 text Hmsg2 Hstr3)
    as (s4 & Hend & Hmsg4 & Hstr4).
  change (arrive [(tEnd, TEXT_MESSAGE_END m)] s3)
    with (stateOf (handle tEnd (TEXT_MESSAGE_END m) s3)).
  cbn [handle]. rewrite Hend. cbn [stateOf].
  rewrite Htext in Hmsg4.
  split; [eexists; split; [exact Hmsg4 | done] |].
  split; [done |].
  intros c Hc Hne. split; [by apply Hseq2 |].
  assert (Hsame : messagesByConversation s4 = messagesByConversation (state st2)).
  { transitivity (messagesByConversation
                    (arrive (contentEvents m after ++ [(tEnd, TEXT_MESSAGE_END m)])
                       (state st2))).
    - rewrite arrive_app. fold s3.
      change (arrive [(tEnd, TEXT_MESSAGE_END m)] s3)
        with (stateOf (handle tEnd (TEXT_MESSAGE_END m) s3)).
      cbn [handle]. by rewrite Hend.
    - apply Hseq3. intros e He. apply elem_of_app in He as [He | He].
      + apply list_elem_of_fmap in He as ([t d] & -> & _). exists d. by left.
      + apply list_elem_of_singleton in He as ->. exists None. by right. }
  rewrite Hsame. by apply Hseq2.
Qed.

End Reload.

Lemma reload_in_mid_stream_keeps_the_stream_witness :
  let st1 := dispatchAll [("||", TEXT_MESSAGE_START "b" None (Some "c1"));
                          ("||", TEXT_MESSAGE_CONTENT "b" (Some "par"))]
               (createAgUiStore None false) in
  let st2 := loadMessages_resolve tickClock "c1" [serverB; serverA] st1 in
  let st3 := dispatchAll [("|||", TEXT_MESSAGE_CONTENT "b" (Some "tial"));
                          ("||||", TEXT_MESSAGE_END "b")] st2 in
  (∃ msg, messages (state st3) !! "b" = Some msg
          ∧ m_content msg = "partial" ∧ m_status msg = Completed)
  ∧ streaming (state st3) !! "b" = None
  ∧ messagesByConversation (state st2) !! "c1" = Some ["a"; "b"].
Proof.
  intros st1 st2 st3.
  destruct (reload_in_mid_stream_keeps_the_stream tickClock (createAgUiStore None false)
              "b" None (Some "c1") "||" "||||" [("||", Some "par")] [("|||", Some "tial")]
              "c1" [serverB; serverA] eq_refl) as (Hmsg & Hstr & _).
  split; [exact Hmsg |]. split; [exact Hstr |]. by vm_compute.
Defined.

Lemma state_after_call (conversationId : Id) (force : bool) (st st1 : Store) :
  loadMessages_call conversationId force st = (Fetching, st1) →
  state st1 = state st
  ∧ loadedConversations st1 = loadedConversations st
  ∧ loadingConversations st1 = {[conversationId]} ∪ loadingConversations st
  ∧ (conversationId ∉ loadingConversations st)
  ∧ requests st1
    = requests st
      ++ (if clientHasSetActiveThread st then [SetActiveThread conversationId] else [])
      ++ [GetMessages conversationId].
Proof.
  unfold loadMessages_call. case_bool_decide as Hin; [done |].
  destruct (negb force && bool_decide (conversationId ∈ loadedConversations st));
    [done |].
  by intros [= <-].
Qed.

Lemma fetchesOf_app (conversationId : Id) (l1 l2 : list Request) :
  fetchesOf conversationId (l1 ++ l2)
  = fetchesOf conversationId l1 ++ fetchesOf conversationId l2.
Proof. apply filter_app. Qed.

Lemma fetchesOf_call (conversationId : Id) (flag : bool) :
  fetchesOf conversationId
    ((if flag then [SetActiveThread conversationId] else [])
       ++ [GetMessages conversationId])
  = [GetMessages conversationId].
Proof.
  unfold fetchesOf. destruct flag; cbn [app].
  - rewrite filter_cons_False by done. by rewrite filter_cons_True.
  - by rewrite filter_cons_True.
Qed.

Section Retry.

Variable parseDate : string → option Z.

(** X16.  Once its fetch is settled, a conversation can be loaded again.  A fetch
    that fails leaves the state as the events in between made it and the
    marks of loaded and in-flight conversations as they were before the
    call: a forced call fetches again, and a call without force fetches
    again unless the conversation had been loaded earlier.  After a fetch
    that succeeds, a call without force is skipped, and a forced call
    fetches again and leaves the state as it is. *)
Theorem loadMessages_after_the_fetch_settled :
  ∀ (st st1 : Store) (conversationId : Id) (force : bool)
    (evs : list (string * Event)) (fetched : list MessageDoc),
    loadMessages_call conversationId force st = (Fetching, st1) →
    let failed := loadMessages_reject conversationId (dispatchAll evs st1) in
    let loaded := loadMessages_resolve parseDate conversationId fetched
                    (dispatchAll evs st1) in
    state failed = state (dispatchAll evs st)
    ∧ loadedConversations failed = loadedConversations st
    ∧ loadingConversations failed = loadingConversations st
    ∧ (∀ again, ∃ st2,
         loadMessages_call conversationId true failed = (Fetching, st2)
         ∧ fetchesOf conversationId (requests (dispatchAll again st2))
           = fetchesOf conversationId (requests st)
             ++ [GetMessages conversationId; GetMessages conversationId])
    ∧ (conversationId ∉ loadedConversations st →
       ∃ st2, loadMessages_call conversationId false failed = (Fetching, st2))
    ∧ (conversationId ∈ loadedConversations st →
       loadMessages_call conversationId false failed = (Skipped, failed))
    ∧ loadMessages_call conversationId false loaded = (Skipped, loaded)
    ∧ ∃ st3, loadMessages_call conversationId true loaded = (Fetching, st3)
             ∧ state st3 = state loaded
             ∧ fetchesOf conversationId (requests st3)
               = fetchesOf conversationId (requests st)
                 ++ [GetMessages conversationId; GetMessages conversationId].
Proof.
  intros st st1 c force evs fetched Hcall failed loaded.
  destruct (state_after_call c force st st1 Hcall)
    as (Hstate & Hloaded & Hloading & Hfree & Hreq).
  destruct (dispatchAll_loading evs st1) as (Hl1 & Hd1 & Hr1).
  assert (Hfl : loadingConversations failed = loadingConversations st).
  { subst failed. cbn. rewrite Hl1, Hloading. apply set_eq. intros x.
    rewrite elem_of_difference, elem_of_union, elem_of_singleton.
    split; [intros [[-> | Hx] Hne]; done | intros Hx; split; [by right | by intros ->]]. }
  assert (Hll : c ∉ loadingConversations loaded).
  { subst loaded. cbn. apply not_elem_of_difference. right. by apply elem_of_singleton. }
  assert (Hfetches : fetchesOf c (requests st1)
                     = fetchesOf c (requests st) ++ [GetMessages c]).
  { rewrite Hreq, fetchesOf_app. f_equal. apply fetchesOf_call. }
  split; [subst failed; cbn [state loadMessages_reject];
          by rewrite !dispatchAll_state, Hstate |].
  split; [subst failed; cbn; congruence |].
  split; [exact Hfl |].
  split.
  { intros again. unfold loadMessages_call. rewrite Hfl.
    rewrite bool_decide_eq_false_2 by done. cbn [negb andb].
    eexists. split; [done |].
    destruct (dispatchAll_loading again
                (mkStore (state failed) (loadedConversations failed)
                   ({[c]} ∪ loadingConversations st) (clientHasSetActiveThread failed)
                   (requests failed
                      ++ (if clientHasSetActiveThread failed
                          then [SetActiveThread c] else [])
                      ++ [GetMessages c]))) as (_ & _ & ->).
    cbn [requests]. rewrite fetchesOf_app, fetchesOf_call.
    subst failed. cbn [requests loadMessages_reject]. rewrite Hr1, Hfetches.
    by rewrite <- app_assoc. }
  split.
  { intros Hnot. unfold loadMessages_call. rewrite Hfl.
    rewrite bool_decide_eq_false_2 by done.
    rewrite (bool_decide_eq_false_2 (c ∈ loadedConversations failed));
      [eauto |]. subst failed. cbn. congruence. }
  split.
  { intros Hin. unfold loadMessages_call. rewrite Hfl.
    rewrite bool_decide_eq_false_2 by done.
    rewrite (bool_decide_eq_true_2 (c ∈ loadedConversations failed)); [done |].
    subst failed. cbn. congruence. }
  split.
  { unfold loadMessages_call. rewrite bool_decide_eq_false_2 by done.
    rewrite (bool_decide_eq_true_2 (c ∈ loadedConversations loaded)); [done |].
    subst loaded. cbn. apply elem_of_union. left. by apply elem_of_singleton. }
  unfold loadMessages_call. rewrite bool_decide_eq_false_2 by done. cbn [negb andb].
  eexists. split; [done |]. split; [done |].
  cbn [requests]. rewrite fetchesOf_app, fetchesOf_call.
  subst loaded. cbn [requests loadMessages_resolve]. rewrite Hr1, Hfetches.
  by rewrite <- app_assoc.
Qed.

End Retry.

Lemma loadMessages_after_the_fetch_settled_witness :
  let st1 := (loadMessages_call "c1" false streamingB).2 in
  let failed := loadMessages_reject "c1" st1 in
  let loaded := loadMessages_resolve tickClock "c1" [serverB; serverA] st1 in
  state failed = state streamingB
  ∧ (∃ st2, loadMessages_call "c1" false failed = (Fetching, st2))
  ∧ loadMessages_call "c1" false loaded = (Skipped, loaded)
  ∧ ∃ st3, loadMessages_call "c1" true loaded = (Fetching, st3)
           ∧ fetchesOf "c1" (requests st3) = [GetMessages "c1"; GetMessages "c1"].
Proof.
  intros st1 failed loaded.
  destruct (loadMessages_after_the_fetch_settled tickClock streamingB st1 "c1" false []
              [serverB; serverA] eq_refl)
    as (Hstate & _ & _ & _ & Hretry & _ & Hskip & st3 & Hforce & _ & Hfetches).
  split; [exact Hstate |].
  split; [apply Hretry; by vm_compute |].
  split; [exact Hskip |].
  exists st3. split; [exact Hforce | exact Hfetches].
Defined.

Lemma mergeMessage_same (m : MessageDoc) : mergeMessage m m = m.
Proof.
  destruct m as [id role content cid status created calls callId].
  unfold mergeMessage, keep. cbn.
  by destruct cid, created, calls, callId.
Qed.

Lemma storeAll_same (l : list MessageDoc) (s : ChatState) (k : Id) :
  (∀ m, m ∈ l → m_id m = k → messages s !! k = Some m) →
  messages (storeAll l s) !! k = messages s !! k.
Proof.
  revert s. induction l as [|x l IH]; intros s Hl; [done |].
  rewrite storeAll_cons.
  assert (Hx : mergeAt mergeMessage (m_id x) x (messages s) !! k = messages s !! k).
  { destruct (decide (m_id x = k)) as [Hk|Hk]; [| by apply mergeAt_other].
    pose proof (Hl x (list_elem_of_here _ _) Hk) as Hstored.
    unfold mergeAt. rewrite Hk, Hstored, lookup_insert_eq.
    by rewrite mergeMessage_same. }
  rewrite IH; [exact Hx |].
  intros m Hm Hk. cbn. rewrite Hx. apply Hl; [by apply list_elem_of_further | done].
Qed.

Lemma dispatchAll_keyed (evs : list (string * Event)) (st : Store) :
  keyedById (state st) → keyedById (state (dispatchAll evs st)).
Proof.
  revert st. induction evs as [|[now ev] evs IH]; intros st Hst; [done |].
  change (dispatchAll ((now, ev) :: evs) st) with (dispatchAll evs (dispatch now ev st)).
  apply IH. cbn. apply (stepShape_keyed (state st)); [apply handle_shape | done].
Qed.

Lemma created_keyed (persisted : option (gmap Id ChatAgentState)) (flag : bool) :
  keyedById (state (createAgUiStore persisted flag)).
Proof. intros k m Hm. cbn in Hm. by rewrite lookup_empty in Hm. Qed.

Section Independence.

Variable parseDate : string → option Z.

(** X17.  With the messages keyed by their ids, the reconciliation of the answer
    for one conversation leaves the others alone: the sequence of every
    other conversation, its marks as loaded and as in flight, and what
    loadMessages does when called for it are as before; a message the
    answer does not name is as before; and the streaming buffers, the tool
    calls in progress, the conversations, the attachments, the agent
    states, the active conversation and the request log are as before. *)
Theorem loading_one_conversation_leaves_the_others :
  ∀ (st : Store) (conversationId : Id) (fetched : list MessageDoc),
    keyedById (state st) →
    let st' := loadMessages_resolve parseDate conversationId fetched st in
    (∀ other, other ≠ conversationId →
       messagesByConversation (state st') !! other
         = messagesByConversation (state st) !! other
       ∧ (other ∈ loadedConversations st' ↔ other ∈ loadedConversations st)
       ∧ (other ∈ loadingConversations st' ↔ other ∈ loadingConversations st)
       ∧ ∀ force, (loadMessages_call other force st').1
                  = (loadMessages_call other force st).1)
    ∧ (∀ k, k ∉ m_id <$> fetched →
            messages (state st') !! k = messages (state st) !! k)
    ∧ streaming (state st') = streaming (state st)
    ∧ toolCallsInProgress (state st') = toolCallsInProgress (state st)
    ∧ conversations (state st') = conversations (state st)
    ∧ attachments (state st') = attachments (state st)
    ∧ agentStateByConversation (state st') = agentStateByConversation (state st)
    ∧ activeConversationId (state st') = activeConversationId (state st)
    ∧ requests st' = requests st.
Proof.
  intros st c fetched Hkeyed st'.
  assert (Hstate : state st'
            = set_messagesByConversation
                (insert c
                   (m_id <$> sortByCreatedAt parseDate
                               (retained c fetched (state st) ++ fetched)))
                (storeAll
                   (sortByCreatedAt parseDate (retained c fetched (state st) ++ fetched))
                   (state st)))
    by apply resolve_state.
  destruct (storeAll_streaming
              (sortByCreatedAt parseDate (retained c fetched (state st) ++ fetched))
              (state st)) as (Hstr & Hconv & Hatt & Hag & Hact & Htools).
  split.
  { intros other Hother.
    assert (Hloaded : other ∈ loadedConversations st' ↔ other ∈ loadedConversations st).
    { subst st'. cbn. rewrite elem_of_union, elem_of_singleton.
      split; [by intros [? | ?] | by right]. }
    assert (Hloading : other ∈ loadingConversations st' ↔ other ∈ loadingConversations st).
    { subst st'. cbn. rewrite elem_of_difference, elem_of_singleton.
      split; [by intros [? _] | by intros ?]. }
    split.
    { rewrite Hstate. unfold set_messagesByConversation. cbn [messagesByConversation].
      rewrite lookup_insert_ne by done. by rewrite storeAll_sequences. }
    split; [done |]. split; [done |].
    intros force. unfold loadMessages_call.
    rewrite (bool_decide_ext _ _ Hloading), (bool_decide_ext _ _ Hloaded).
    case_bool_decide; [done |]. by destruct (negb force && _). }
  split.
  { intros k Hk. rewrite Hstate. unfold set_messagesByConversation. cbn [messages].
    apply storeAll_same. intros m Hm Hid.
    rewrite sortByCreatedAt_perm in Hm. apply elem_of_app in Hm as [Hm | Hm].
    - apply retained_spec in Hm as (Hlocal & _ & _).
      apply elem_of_localMessages in Hlocal as (id & _ & Hstored).
      by rewrite <- Hid, (Hkeyed id m Hstored).
    - exfalso. apply Hk. rewrite <- Hid. by apply list_elem_of_fmap_2. }
  rewrite Hstate. unfold set_messagesByConversation. cbn. done.
Qed.

End Independence.

Lemma loading_one_conversation_leaves_the_others_witness :
  let st' := loadMessages_resolve tickClock "c2" [serverA] streamingB in
  messagesByConversation (state st') !! "c1" = Some ["b"]
  ∧ messages (state st') !! "b" = messages (state streamingB) !! "b"
  ∧ streaming (state st') !! "b" = Some "par"
  ∧ (loadMessages_call "c1" false st').1 = Fetching.
Proof.
  intros st'. subst st'.
  destruct (loading_one_conversation_leaves_the_others tickClock streamingB "c2" [serverA]
              (dispatchAll_keyed _ _ (created_keyed None false)))
    as (Hother & Hmsgs & Hstr & _).
  destruct (Hother "c1") as (Hseq & _ & _ & Hcall); [done |].
  split; [rewrite Hseq; by vm_compute |].
  split; [apply Hmsgs; cbn; by rewrite list_elem_of_singleton |].
  split; [rewrite Hstr; by vm_compute |].
  rewrite Hcall. by vm_compute.
Defined.

(** X18.  Storing the same conversation list a second time changes nothing; a
    conversation is stored after loadConversations exactly when it was
    stored before or the list names it; and of several entries of the list
    with the same id the last one is the one stored. *)
Theorem reloading_the_conversation_list :
  ∀ (st : Store) (fetched : list ConversationDoc),
    let st' := loadConversations_resolve fetched st in
    loadConversations_resolve fetched st' = st'
    ∧ (∀ id, is_Some (conversations (state st') !! id)
             ↔ is_Some (conversations (state st) !! id) ∨ id ∈ c_id <$> fetched)
    ∧ (∀ l1 c l2, fetched = l1 ++ c :: l2 → c_id c ∉ c_id <$> l2 →
                  conversations (state st') !! c_id c = Some c).
Proof.
  intros st fetched st'. split; [| split].
  - subst st'. unfold loadConversations_resolve, withState. cbn. f_equal.
    unfold set_conversations. cbn. f_equal. unfold mergeStoreNode.
    by rewrite (assoc_L (∪)), (idemp_L (∪)).
  - intros id. subst st'. cbn. unfold mergeStoreNode. rewrite lookup_union.
    destruct (decide (id ∈ c_id <$> fetched)) as [Hin|Hout].
    + destruct (conversationsMap_from ∅ fetched id) as (_ & Hsome).
      destruct (Hsome Hin) as (c & _ & _ & Hc). unfold conversationsMap. rewrite Hc.
      split; [by right |]. intros _. by destruct (conversations (state st) !! id).
    + destruct (conversationsMap_from ∅ fetched id) as (Hnone & _).
      unfold conversationsMap. rewrite (Hnone Hout), lookup_empty.
      rewrite (left_id_L None (∪)). split; [by left | by intros [? | ?]].
  - intros l1 c l2 -> Hlast. subst st'. cbn. unfold mergeStoreNode, conversationsMap.
    rewrite lookup_union, foldl_app. cbn [foldl].
    destruct (conversationsMap_from
                (<[c_id c := c]> (foldl (fun acc c0 => <[c_id c0 := c0]> acc) ∅ l1))
                l2 (c_id c)) as (Hkeep & _).
    rewrite (Hkeep Hlast), lookup_insert_eq.
    by destruct (conversations (state st) !! c_id c).
Qed.

(** ** Which events write which maps *)

(** X19.  A run of events writes only the maps of the kinds of its events.  A run
    of conversation, attachment and snapshot events leaves the messages, the
    sequences, the streaming buffers and the tool calls in progress as they
    were.  A run without conversation events leaves the conversations, a
    run without attachment events the global attachments, a run without
    attachment and snapshot events the agent states, and a run without
    conversation.created the active conversation.  No event changes the
    marks of loaded and in-flight conversations or the request log. *)
Theorem event_kinds_keep_to_their_maps :
  ∀ (evs : list (string * Event)) (st : Store),
    let st' := dispatchAll evs st in
    (forallb (fun e => negb (isChatEvent e.2)) evs = true →
     messages (state st') = messages (state st)
     ∧ messagesByConversation (state st') = messagesByConversation (state st)
     ∧ streaming (state st') = streaming (state st)
     ∧ toolCallsInProgress (state st') = toolCallsInProgress (state st))
    ∧ (forallb (fun e => negb (isConversationEvent e.2)) evs = true →
       conversations (state st') = conversations (state st))
    ∧ (forallb (fun e => negb (isAttachmentEvent e.2)) evs = true →
       attachments (state st') = attachments (state st))
    ∧ (forallb (fun e => negb (isAttachmentEvent e.2 || isSnapshotEvent e.2)) evs = true →
       agentStateByConversation (state st') = agentStateByConversation (state st))
    ∧ (forallb (fun e => negb (isConversationCreated e.2)) evs = true →
       activeConversationId (state st') = activeConversationId (state st))
    ∧ loadedConversations st' = loadedConversations st
    ∧ loadingConversations st' = loadingConversations st
    ∧ requests st' = requests st.
Proof.
  intros evs st st'. subst st'.
  destruct (dispatchAll_loading evs st) as (Hloading & Hloaded & Hreq).
  rewrite dispatchAll_state.
  assert (Hrun : ∀ (keep : Event → bool) (P : ChatState → ChatState → Prop),
            (∀ s, P s s) → (∀ s1 s2 s3, P s1 s2 → P s2 s3 → P s1 s3) →
            (∀ now ev s, keep ev = true → P s (stateOf (handle now ev s))) →
            ∀ l s, forallb (fun e => keep e.2) l = true → P s (arrive l s)).
  { intros keep P Hrefl Htrans Hstep. induction l as [|[now ev] l IH]; intros s Hall.
    - apply Hrefl.
    - cbn [forallb snd] in Hall. apply andb_true_iff in Hall as [Hev Hall].
      rewrite arrive_cons. eapply Htrans; [by apply Hstep | by apply IH]. }
  split; [| split; [| split; [| split; [| split]]]]; [| | | | | done].
  - apply (Hrun (fun ev => negb (isChatEvent ev))
             (fun s s' => messages s' = messages s
                          ∧ messagesByConversation s' = messagesByConversation s
                          ∧ streaming s' = streaming s
                          ∧ toolCallsInProgress s' = toolCallsInProgress s)).
    + done.
    + intros s1 s2 s3 (-> & -> & -> & ->) (-> & -> & -> & ->). done.
    + intros now ev s Hev. destruct (handle_frames now ev s) as (_ & _ & _ & _ & Hchat).
      apply Hchat. unfold isChatEvent in Hev. rewrite negb_involutive in Hev.
      apply orb_true_iff in Hev as [Hev | Hev]; [| auto].
      apply orb_true_iff in Hev as [Hev | Hev]; auto.
  - apply (Hrun (fun ev => negb (isConversationEvent ev))
             (fun s s' => conversations s' = conversations s)); [done | congruence |].
    intros now ev s Hev. destruct (handle_frames now ev s) as (Hconv & _).
    apply Hconv. by apply negb_true_iff.
  - apply (Hrun (fun ev => negb (isAttachmentEvent ev))
             (fun s s' => attachments s' = attachments s)); [done | congruence |].
    intros now ev s Hev. destruct (handle_frames now ev s) as (_ & Hatt & _).
    apply Hatt. by apply negb_true_iff.
  - apply (Hrun (fun ev => negb (isAttachmentEvent ev || isSnapshotEvent ev))
             (fun s s' => agentStateByConversation s' = agentStateByConversation s));
      [done | congruence |].
    intros now ev s Hev. destruct (handle_frames now ev s) as (_ & _ & Hag & _).
    apply negb_true_iff, orb_false_iff in Hev as [? ?]. by apply Hag.
  - apply (Hrun (fun ev => negb (isConversationCreated ev))
             (fun s s' => activeConversationId s' = activeConversationId s));
      [done | congruence |].
    intros now ev s Hev. destruct (handle_frames now ev s) as (_ & _ & _ & Hact & _).
    apply Hact. by apply negb_true_iff.
Qed.



(** ** The persistence cache: clearing, overwriting, viewing, debouncing *)

Section PersistenceMore.

Variable JSON_stringify : json → string.

Variable JSON_parse : string → option json.

Lemma save_fits (now : Z) (state : list (string * json)) (ls : LocalStorage) :
  (usage (<[STORAGE_KEY := JSON_stringify (persistedData now state)]> (items ls))
     ≤ quota ls)%nat →
  saveAgentState JSON_stringify now state ls
  = mkLocalStorage (<[STORAGE_KEY := JSON_stringify (persistedData now state)]> (items ls))
      (quota ls).
Proof.
  intros Hfits. unfold saveAgentState, setItem. by rewrite bool_decide_eq_true_2.
Qed.

Lemma save_over_quota (now : Z) (state : list (string * json)) (ls : LocalStorage) :
  ¬ (usage (<[STORAGE_KEY := JSON_stringify (persistedData now state)]> (items ls))
       ≤ quota ls)%nat →
  saveAgentState JSON_stringify now state ls = ls.
Proof.
  intros Hfits. unfold saveAgentState, setItem. by rewrite bool_decide_eq_false_2.
Qed.

Lemma load_record (now : Z) (state : list (string * json)) (ls : LocalStorage) :
  JSON_parse "" = None →
  JSON_parse (JSON_stringify (persistedData now state)) = Some (persistedData now state) →
  getItem STORAGE_KEY ls = Some (JSON_stringify (persistedData now state)) →
  loadAgentState JSON_parse ls = Some (JObj state)
  ∧ viewPersistedState JSON_parse ls = persistedData now state.
Proof.
  intros Hempty Hjson Hget.
  assert (Hne : nonEmpty (JSON_stringify (persistedData now state)) = true).
  { destruct (nonEmpty _) eqn:Hne; [done |].
    apply nonEmpty_false in Hne. rewrite Hne, Hempty in Hjson. discriminate. }
  split.
  - rewrite (loadAgentState_stored _ _ _ Hget), Hne, Hjson. done.
  - unfold viewPersistedState. by rewrite Hget, Hne, Hjson.
Qed.

(** X21.  clearPersistedState forgets the snapshot: after a save and a clear,
    loadAgentState returns null and so does viewPersistedState; clearing an
    already cleared storage changes nothing; and neither saving nor
    clearing touches another key of the storage, or its quota. *)
Theorem clearing_forgets_the_snapshot :
  ∀ (now : Z) (state : list (string * json)) (ls : LocalStorage),
    let cleared := clearPersistedState (saveAgentState JSON_stringify now state ls) in
    loadAgentState JSON_parse cleared = None
    ∧ viewPersistedState JSON_parse cleared = JNull
    ∧ loadAgentState JSON_parse (clearPersistedState ls) = None
    ∧ clearPersistedState cleared = cleared
    ∧ (∀ key, key ≠ STORAGE_KEY →
              getItem key cleared = getItem key ls
              ∧ getItem key (saveAgentState JSON_stringify now state ls) = getItem key ls)
    ∧ quota cleared = quota ls.
Proof.
  intros now state ls cleared.
  assert (Hgone : ∀ l, getItem STORAGE_KEY (clearPersistedState l) = None)
    by (intros l; apply lookup_delete_eq).
  assert (Hsave : ∀ key, key ≠ STORAGE_KEY →
            getItem key (saveAgentState JSON_stringify now state ls) = getItem key ls).
  { intros key Hkey. unfold saveAgentState, setItem. case_bool_decide; [| done].
    unfold getItem. cbn. by rewrite lookup_insert_ne. }
  subst cleared.
  split; [unfold loadAgentState; by rewrite Hgone |].
  split; [unfold viewPersistedState; by rewrite Hgone |].
  split; [unfold loadAgentState; by rewrite Hgone |].
  split.
  { unfold clearPersistedState, removeItem. cbn. f_equal.
    apply delete_id, lookup_delete_eq. }
  split.
  { intros key Hkey. split; [| by apply Hsave].
    rewrite <- (Hsave key Hkey). unfold getItem. cbn.
    by rewrite lookup_delete_ne. }
  cbn. unfold saveAgentState, setItem. by case_bool_decide.
Qed.

(** X22.  Of two saves one after the other, the first of which fits the quota,
    loadAgentState returns the snapshot of the second when its record fits
    the quota too, and the storage is then as if only the second had been
    saved; when the second write exceeds the quota, the storage stays as
    the first save left it and loadAgentState returns the snapshot of the
    first.  (The JSON functions of the platform are taken to carry both
    records through unchanged.) *)
Theorem the_latest_stored_snapshot_is_loaded :
  ∀ (t1 t2 : Z) (first second : list (string * json)) (ls : LocalStorage),
    JSON_parse "" = None →
    JSON_parse (JSON_stringify (persistedData t1 first)) = Some (persistedData t1 first) →
    JSON_parse (JSON_stringify (persistedData t2 second))
      = Some (persistedData t2 second) →
    (usage (<[STORAGE_KEY := JSON_stringify (persistedData t1 first)]> (items ls))
       ≤ quota ls)%nat →
    let ls1 := saveAgentState JSON_stringify t1 first ls in
    let ls2 := saveAgentState JSON_stringify t2 second ls1 in
    let fits :=
      (usage (<[STORAGE_KEY := JSON_stringify (persistedData t2 second)]> (items ls))
         ≤ quota ls)%nat in
    loadAgentState JSON_parse ls1 = Some (JObj first)
    ∧ (fits → loadAgentState JSON_parse ls2 = Some (JObj second)
              ∧ ls2 = saveAgentState JSON_stringify t2 second ls)
    ∧ (¬ fits → ls2 = ls1 ∧ loadAgentState JSON_parse ls2 = Some (JObj first)).
Proof.
  intros t1 t2 first second ls Hempty Hjson1 Hjson2 Hfits1 ls1 ls2 fits.
  assert (Hls1 : ls1 = mkLocalStorage
                         (<[STORAGE_KEY := JSON_stringify (persistedData t1 first)]>
                            (items ls)) (quota ls))
    by (by apply save_fits).
  assert (Hload1 : loadAgentState JSON_parse ls1 = Some (JObj first)).
  { apply (load_record t1); [done | done |]. rewrite Hls1. apply lookup_insert_eq. }
  assert (Hover : <[STORAGE_KEY := JSON_stringify (persistedData t2 second)]> (items ls1)
                  = <[STORAGE_KEY := JSON_stringify (persistedData t2 second)]> (items ls)).
  { rewrite Hls1. cbn. apply insert_insert_eq. }
  assert (Hquota : quota ls1 = quota ls) by (by rewrite Hls1).
  split; [exact Hload1 |]. split.
  - intros Hfits2. subst fits.
    assert (Hls2 : ls2 = saveAgentState JSON_stringify t2 second ls).
    { subst ls2. rewrite !save_fits; [| done | by rewrite Hover, Hquota].
      by rewrite Hover, Hquota. }
    split; [| exact Hls2]. rewrite Hls2.
    apply (load_record t2); [done | done |]. rewrite save_fits by done.
    apply lookup_insert_eq.
  - intros Hnot. subst fits.
    assert (Hls2 : ls2 = ls1).
    { subst ls2. apply save_over_quota. by rewrite Hover, Hquota. }
    split; [exact Hls2 |]. by rewrite Hls2.
Qed.

(** X23.  Whenever loadAgentState returns data, viewPersistedState returns the
    stored record: an object whose version is the current format version
    and whose data is what loadAgentState returned, which is never null. *)
Theorem view_shows_the_record_load_reads :
  ∀ (ls : LocalStorage) (data : json),
    loadAgentState JSON_parse ls = Some data →
    ∃ members,
      viewPersistedState JSON_parse ls = JObj members
      ∧ member "version" members = Some (JNum STORAGE_VERSION)
      ∧ member "data" members = Some data
      ∧ data ≠ JNull.
Proof.
  intros ls data Hload. unfold loadAgentState in Hload. unfold viewPersistedState.
  destruct (getItem STORAGE_KEY ls) as [stored|]; [| done].
  destruct (nonEmpty stored); [| done].
  destruct (JSON_parse stored) as [[| | | | |members]|]; try done.
  exists members. split; [done |].
  destruct (member "version" members) as [[| |v| | |]|]; try done.
  case_bool_decide as Hv; [| done]. subst v. split; [done |].
  destruct (member "data" members) as [[]|]; try done; by injection Hload as <-.
Qed.

End PersistenceMore.

Lemma the_latest_stored_snapshot_is_loaded_witness :
  let ls1 := saveAgentState printJson 1700 [] (emptyStorage 100) in
  let ls2 := saveAgentState printJson 1800 sampleSnapshot ls1 in
  loadAgentState parseJson ls1 = Some (JObj [])
  ∧ ls2 = ls1
  ∧ loadAgentState parseJson ls2 = Some (JObj []).
Proof.
  intros ls1 ls2.
  destruct (the_latest_stored_snapshot_is_loaded printJson parseJson 1700 1800 []
              sampleSnapshot (emptyStorage 100)) as (Hfirst & _ & Hkept).
  - by vm_compute.
  - by vm_compute.
  - by vm_compute.
  - vm_compute. lia.
  - split; [exact Hfirst |]. apply Hkept. vm_compute. lia.
Defined.

Lemma view_shows_the_record_load_reads_witness :
  ∃ members,
    viewPersistedState parseJson
      (saveAgentState printJson 1700 sampleSnapshot (emptyStorage 5000)) = JObj members
    ∧ member "version" members = Some (JNum STORAGE_VERSION)
    ∧ member "data" members = Some (JObj sampleSnapshot)
    ∧ JObj sampleSnapshot ≠ JNull.
Proof.
  apply (view_shows_the_record_load_reads parseJson). by vm_compute.
Defined.

Section Debounce.

Context {A E : Type}.

Variable fn : Z → A → E → E.

Variable delay : Z.

Lemma calls_leave_the_last (calls : list (Tick A)) (t : Z) (a : A)
    (st : Debounced A * E) :
  forallb isCalled calls = true →
  foldl (tick fn delay) st (calls ++ [Called t a])
  = (Some (mkTimer (t + delay)%Z a), st.2).
Proof.
  intros Hcalls. rewrite foldl_app. cbn [foldl tick]. unfold debounced. f_equal.
  revert st Hcalls. induction calls as [|e calls IH]; intros st Hcalls; [done |].
  cbn [forallb] in Hcalls. apply andb_true_iff in Hcalls as [He Hcalls].
  cbn [foldl]. rewrite IH by done. by destruct e.
Qed.


End Debounce.


(** ** The conversation hook *)

Lemma existsb_perm {A} (f : A → bool) (l1 l2 : list A) :
  l1 ≡ₚ l2 → existsb f l1 = existsb f l2.
Proof.
  induction 1 as [|x l1 l2 _ IH|x y l|l1 l2 l3 _ IH1 _ IH2]; cbn.
  - done.
  - by rewrite IH.
  - by destruct (f x), (f y).
  - congruence.
Qed.

Lemma localMessages_ids (c : Id) (s : ChatState) :
  keyedById s → sequencesStored s →
  m_id <$> localMessages c s = default [] (messagesByConversation s !! c).
Proof.
  intros Hkeyed Hstored. unfold localMessages.
  destruct (messagesByConversation s !! c) as [l|] eqn:Hl; [| done].
  change (default [] (Some l)) with l.
  assert (Hall : ∀ k, k ∈ l → is_Some (messages s !! k))
    by (intros k Hk; by apply (Hstored c l)).
  clear Hl. induction l as [|k l IH]; [done |].
  cbn [omap list_omap].
  destruct (Hall k (list_elem_of_here _ _)) as [m Hm]. rewrite Hm. cbn [fmap list_fmap].
  rewrite (Hkeyed k m Hm). f_equal. apply IH.
  intros k' Hk'. apply Hall. by apply list_elem_of_further.
Qed.

Section HookProperties.

Variable parseDate : string → option Z.

Lemma isStreaming_local (id : option Id) (s : ChatState) (c : Id) :
  UseConversation.conversationId id s = Some c → nonEmpty c = true →
  UseConversation.isStreaming parseDate id s
  = existsb (fun m => bool_decide (m_status m = Streaming)) (localMessages c s).
Proof.
  intros Hc Hne. unfold UseConversation.isStreaming, UseConversation.messages.
  rewrite Hc, Hne. apply existsb_perm, sortByCreatedAt_perm.
Qed.

(** X25.  The messages of useConversation, for the conversation the hook is
    given or the active one, are the stored messages of the sequence of
    that conversation: the view is a rearrangement of the stored messages
    of the sequence, and each of its messages is stored under an id of the
    sequence.  Where the createdAt of each of these messages is a date or
    is missing, the view is in ascending order of createdAt, a missing one
    counting as epoch 0 (a createdAt that is not a date makes the
    comparator answer NaN, and nothing is said of the order then).  With
    the messages keyed by their ids and every id of the sequence stored,
    the ids of the view are a rearrangement of the sequence.  isStreaming
    is true exactly when a message of the view is streaming. *)
Theorem the_conversation_view_lists_the_sequence_by_time :
  ∀ (id : option Id) (s : ChatState) (c : Id),
    UseConversation.conversationId id s = Some c → nonEmpty c = true →
    let view := UseConversation.messages parseDate id s in
    (Forall (dated parseDate) (localMessages c s) → Sorted (ascending parseDate) view)
    ∧ view ≡ₚ localMessages c s
    ∧ (∀ m, m ∈ view →
            ∃ k, k ∈ default [] (messagesByConversation s !! c)
                 ∧ messages s !! k = Some m)
    ∧ (keyedById s → sequencesStored s →
       m_id <$> view ≡ₚ default [] (messagesByConversation s !! c)
       ∧ ∀ m, m ∈ view → messages s !! m_id m = Some m)
    ∧ (UseConversation.isStreaming parseDate id s = true
       ↔ ∃ m, m ∈ view ∧ m_status m = Streaming).
Proof.
  intros id s c Hc Hne view.
  assert (Hview : view = sortByCreatedAt parseDate (localMessages c s)).
  { subst view. unfold UseConversation.messages. by rewrite Hc, Hne. }
  assert (Hperm : view ≡ₚ localMessages c s)
    by (rewrite Hview; apply sortByCreatedAt_perm).
  assert (Hin : ∀ m, m ∈ view →
            ∃ k, k ∈ default [] (messagesByConversation s !! c)
                 ∧ messages s !! k = Some m).
  { intros m Hm. rewrite Hperm in Hm. by apply elem_of_localMessages in Hm. }
  split; [rewrite Hview; apply sortByCreatedAt_sorted |].
  split; [exact Hperm |]. split; [exact Hin |]. split.
  - intros Hkeyed Hstored. split.
    + rewrite Hperm. by rewrite localMessages_ids.
    + intros m Hm. destruct (Hin m Hm) as (k & _ & Hk).
      by rewrite (Hkeyed k m Hk).
  - unfold UseConversation.isStreaming. fold view. rewrite existsb_exists. split.
    + intros (m & Hm & Hst). exists m. split; [by apply list_elem_of_In |].
      by apply bool_decide_eq_true in Hst.
    + intros (m & Hm & Hst). exists m. split; [by apply list_elem_of_In |].
      by apply bool_decide_eq_true.
Qed.

End HookProperties.

Lemma the_conversation_view_lists_the_sequence_by_time_witness :
  let s := state (loadMessages_resolve tickClock "c1" [serverB; serverA]
                    (createAgUiStore None false)) in
  UseConversation.messages tickClock (Some "c1") s = [serverA; serverB]
  ∧ Sorted (ascending tickClock) (UseConversation.messages tickClock (Some "c1") s)
  ∧ UseConversation.isStreaming tickClock (Some "c1") s = false
  ∧ UseConversation.messages tickClock None s = [].
Proof.
  intros s.
  destruct (the_conversation_view_lists_the_sequence_by_time tickClock (Some "c1") s "c1"
              eq_refl eq_refl) as (Hsorted & _).
  split; [by vm_compute |]. split; [| by vm_compute].
  apply Hsorted.
  assert (Hlocal : localMessages "c1" s = [serverA; serverB]) by (by vm_compute).
  rewrite Hlocal.
  repeat (apply Forall_cons; split); try exact (Forall_nil_2 _);
    intros t [= <-]; (split; [done | by eexists]).
Defined.

Section StreamingFlag.

Variable parseDate : string → option Z.

Lemma existsb_false {A} (f : A → bool) (l : list A) :
  existsb f l = false ↔ ∀ x, x ∈ l → f x = false.
Proof.
  induction l as [|y l IH]; cbn.
  - split; [intros _ x Hx; by apply elem_of_nil in Hx | done].
  - rewrite orb_false_iff, IH. split.
    + intros [Hy Hl] x Hx. apply elem_of_cons in Hx as [-> | Hx]; auto.
    + intros Hall. split; [apply Hall, list_elem_of_here |].
      intros x Hx. by apply Hall, list_elem_of_further.
Qed.

Lemma end_state (now : string) (m : Id) (ev : Event) (s : ChatState) (msg : MessageDoc) :
  endsStream m ev = true → messages s !! m = Some msg →
  let s' := stateOf (handle now ev s) in
  messagesByConversation s' = messagesByConversation s
  ∧ activeConversationId s' = activeConversationId s
  ∧ (∀ k, k ≠ m → messages s' !! k = messages s !! k)
  ∧ ∃ msg', messages s' !! m = Some msg' ∧ m_status msg' ≠ Streaming.
Proof.
  intros Hev Hm.
  destruct ev; cbn [endsStream] in Hev; try done;
    apply bool_decide_eq_true in Hev; subst; cbn [handle].
  - unfold onTextMessageEnd.
    destruct (truthy (streaming s !! m)).
    + rewrite (setMessageKey_Some _ _ _ _ Hm). cbn [andThen].
      erewrite setMessageKey_Some; [| cbn; apply lookup_insert_eq]. cbn.
      repeat split; try done.
      * intros k Hk. by rewrite !lookup_insert_ne.
      * rewrite lookup_insert_eq. eauto.
    + cbn [andThen]. erewrite setMessageKey_Some; [| exact Hm]. cbn.
      repeat split; try done.
      * intros k Hk. by rewrite lookup_insert_ne.
      * rewrite lookup_insert_eq. eauto.
  - unfold onMessageErrored. rewrite (setMessageKey_Some _ _ _ _ Hm). cbn.
    repeat split; try done.
    + intros k Hk. by rewrite lookup_insert_ne.
    + rewrite lookup_insert_eq. eauto.
  - unfold onMessageCanceled.
    destruct (truthy (streaming s !! m)).
    + rewrite (setMessageKey_Some _ _ _ _ Hm). cbn [andThen].
      erewrite setMessageKey_Some; [| cbn; apply lookup_insert_eq]. cbn.
      repeat split; try done.
      * intros k Hk. by rewrite !lookup_insert_ne.
      * rewrite lookup_insert_eq. eauto.
    + cbn [andThen]. erewrite setMessageKey_Some; [| exact Hm]. cbn.
      repeat split; try done.
      * intros k Hk. by rewrite lookup_insert_ne.
      * rewrite lookup_insert_eq. eauto.
Qed.

(** X26.  isStreaming of useConversation is raised for the time of a stream: when
    it is false, TEXT_MESSAGE_START and the deltas of a message of the
    conversation make it true, and TEXT_MESSAGE_END, message.canceled or
    message.errored for that message make it false again; the message is
    still in the view. *)
Theorem isStreaming_is_raised_for_the_time_of_the_stream :
  ∀ (id : option Id) (s : ChatState) (c m : Id) (role : option Role)
    (conversationId : option Id) (tStart tEnd : string)
    (deltas : list (string * option string)) (ending : Event),
    UseConversation.conversationId id s = Some c → nonEmpty c = true →
    js_or conversationId (activeConversationId s) = Some c →
    UseConversation.isStreaming parseDate id s = false →
    endsStream m ending = true →
    let s1 := arrive ((tStart, TEXT_MESSAGE_START m role conversationId)
                        :: contentEvents m deltas) s in
    let s2 := stateOf (handle tEnd ending s1) in
    UseConversation.isStreaming parseDate id s1 = true
    ∧ UseConversation.isStreaming parseDate id s2 = false
    ∧ (∃ msg, msg ∈ UseConversation.messages parseDate id s2 ∧ m_id msg = m).
Proof.
  intros id s c m role cid tStart tEnd deltas ending Hc Hne Hev Hquiet Hending s1 s2.
  destruct (stream_state m role cid tStart deltas s)
    as ((msg1 & Hmsg1 & Hst1 & Hid1) & _ & Hseq1).
  fold s1 in Hmsg1, Hseq1. specialize (Hseq1 c Hev Hne).
  (* what the stream leaves of the state it started from *)
  assert (Hframe : activeConversationId s1 = activeConversationId s
                   ∧ (∀ k, k ≠ m → messages s1 !! k = messages s !! k)
                   ∧ ∀ k, k ∈ default [] (messagesByConversation s1 !! c) →
                          k = m ∨ k ∈ default [] (messagesByConversation s !! c)).
  { subst s1. rewrite arrive_cons.
    destruct (start_state tStart m role cid s) as (Hact0 & Hstr0 & Hmsgs0 & Hseq0).
    set (s0 := stateOf (handle tStart (TEXT_MESSAGE_START m role cid) s)) in *.
    assert (Hs0 : streaming s0 !! m = Some "") by (rewrite Hstr0; apply lookup_insert_eq).
    destruct (content_after m deltas s0 "" Hs0) as (Hmsgs & _).
    assert (Hrest : ∀ s', activeConversationId (arrive (contentEvents m deltas) s')
                          = activeConversationId s'
                          ∧ messagesByConversation (arrive (contentEvents m deltas) s')
                            = messagesByConversation s').
    { clear. induction deltas as [|[t d] deltas IH]; intros s'; [done |].
      cbn [contentEvents fmap list_fmap]. rewrite arrive_cons.
      fold (contentEvents m deltas). destruct (IH (stateOf (handle (t, d).1
              (TEXT_MESSAGE_CONTENT m (t, d).2) s'))) as (-> & ->). done. }
    destruct (Hrest s0) as (-> & ->). rewrite Hmsgs.
    split; [exact Hact0 |]. split; [exact Hmsgs0 |].
    intros k. rewrite Hseq0, Hev, Hne. cbn zeta.
    destruct (includes m _); [by right |].
    rewrite lookup_insert_eq. cbn. intros Hk. apply elem_of_app in Hk as [Hk | Hk].
    - by right.
    - left. by apply list_elem_of_singleton in Hk. }
  destruct Hframe as (Hact1 & Hother1 & Hids1).
  assert (Hc1 : UseConversation.conversationId id s1 = Some c).
  { unfold UseConversation.conversationId in *. by rewrite Hact1. }
  rewrite (isStreaming_local parseDate id s c Hc Hne) in Hquiet.
  pose proof (proj1 (existsb_false _ _) Hquiet) as Hnone.
  destruct (end_state tEnd m ending s1 msg1 Hending Hmsg1)
    as (Hseq2 & Hact2 & Hother2 & msg2 & Hmsg2 & Hst2).
  fold s2 in Hseq2, Hact2, Hother2, Hmsg2.
  assert (Hc2 : UseConversation.conversationId id s2 = Some c).
  { unfold UseConversation.conversationId in *. by rewrite Hact2. }
  split; [| split].
  - rewrite (isStreaming_local parseDate id s1 c Hc1 Hne).
    apply existsb_exists. exists msg1. split; [| by apply bool_decide_eq_true].
    apply list_elem_of_In, elem_of_localMessages. by exists m.
  - rewrite (isStreaming_local parseDate id s2 c Hc2 Hne).
    apply existsb_false. intros x Hx.
    apply elem_of_localMessages in Hx as (k & Hk & Hx).
    rewrite Hseq2 in Hk. destruct (decide (k = m)) as [-> | Hkm].
    + rewrite Hmsg2 in Hx. injection Hx as <-. by apply bool_decide_eq_false.
    + rewrite (Hother2 k Hkm), (Hother1 k Hkm) in Hx.
      destruct (Hids1 k Hk) as [-> | Hold]; [done |].
      apply Hnone, elem_of_localMessages. by exists k.
  - exists msg2. split.
    + unfold UseConversation.messages. rewrite Hc2, Hne, sortByCreatedAt_perm.
      apply elem_of_localMessages. exists m. by rewrite Hseq2.
    + destruct (handle_shape tEnd ending s1) as [Hshape _ _]. fold s2 in Hshape.
      destruct Hshape as [Hsame | (k & m' & Hins & Hkey)].
      * rewrite Hsame, Hmsg1 in Hmsg2. by injection Hmsg2 as <-.
      * destruct (decide (k = m)) as [-> | Hkm].
        -- rewrite Hins, lookup_insert_eq in Hmsg2. injection Hmsg2 as <-.
           destruct Hkey as [Hkey | (m0 & Hm0 & Hkey)]; [done |].
           rewrite Hmsg1 in Hm0. injection Hm0 as <-. congruence.
        -- rewrite Hins, lookup_insert_ne, Hmsg1 in Hmsg2 by done.
           by injection Hmsg2 as <-.
Qed.

End StreamingFlag.

Lemma isStreaming_is_raised_for_the_time_of_the_stream_witness :
  let s := state (loadMessages_resolve tickClock "c1" [serverA]
                    (createAgUiStore None false)) in
  let s1 := arrive [("||", TEXT_MESSAGE_START "b" None (Some "c1"));
                    ("||", TEXT_MESSAGE_CONTENT "b" (Some "par"))] s in
  UseConversation.isStreaming tickClock (Some "c1") s = false
  ∧ UseConversation.isStreaming tickClock (Some "c1") s1 = true
  ∧ UseConversation.isStreaming tickClock (Some "c1")
      (stateOf (handle "|||" (MessageCanceled "b") s1)) = false.
Proof.
  intros s s1.
  destruct (isStreaming_is_raised_for_the_time_of_the_stream tickClock (Some "c1") s
              "c1" "b" None (Some "c1") "||" "|||" [("||", Some "par")]
              (MessageCanceled "b") eq_refl eq_refl eq_refl eq_refl eq_refl)
    as (Hup & Hdown & _).
  split; [by vm_compute |]. split; [exact Hup | exact Hdown].
Defined.

(** ** The upload hook

    The phases of [uploadFile], with the events they emit handled by the
    store.  What is said of the copies of an attachment in the store is
    said of the global one and of the one of the active conversation. *)

Import UseFileUpload.

Lemma storeAttachment_state (a : AttachmentDoc) (s : ChatState) (meta : AttachmentMeta) :
  a_metadata a = Some meta →
  let s' := stateOf (storeAttachment a s) in
  attachments s' = <[a_id a := a]> (attachments s)
  ∧ chatOf s' = chatOf s
  ∧ agentStateByConversation s'
    = match activeConversationId s with
      | Some c =>
          if nonEmpty c then
            <[c := putAttachment a
                     (default emptyAgentState (agentStateByConversation s !! c))]>
              (agentStateByConversation s)
          else agentStateByConversation s
      | None => agentStateByConversation s
      end.
Proof.
  intros Hmeta. unfold storeAttachment.
  assert (Hmerge : mergeAt mergeAttachment (a_id a) a (attachments s)
                   = <[a_id a := a]> (attachments s)).
  { unfold mergeAt. destruct (attachments s !! a_id a) as [prev|]; [| done].
    f_equal. unfold mergeAttachment, keep. rewrite Hmeta. destruct a. cbn in *.
    by rewrite Hmeta. }
  cbn [activeConversationId set_attachments].
  destruct (activeConversationId s) as [c|]; [destruct (nonEmpty c) |];
    cbn; by rewrite Hmerge.
Qed.

Lemma progress_state (fileId : Id) (progress : UploadProgress) (s : ChatState) :
  let s' := stateOf (onAttachmentProgress fileId progress s) in
  chatOf s' = chatOf s
  ∧ agentStateByConversation s' = agentStateByConversation s
  ∧ (∀ k, k ≠ fileId → attachments s' !! k = attachments s !! k)
  ∧ (is_Some (attachments s' !! fileId) ↔ is_Some (attachments s !! fileId)).
Proof.
  unfold onAttachmentProgress. destruct (attachments s !! fileId) as [a|] eqn:Ha; cbn.
  - split; [done |]. split; [done |]. split.
    + intros k Hk. by rewrite lookup_insert_ne.
    + rewrite lookup_insert_eq. split; eauto.
  - by rewrite Ha.
Qed.

Lemma perform_step (now : string) (ph : Phase) (uploads : gmap Id FileUploadState)
    (s : ChatState) :
  perform now ph (uploads, s)
  = ((step ph uploads).1,
     foldl (fun acc ev => stateOf (handle now ev acc)) s (step ph uploads).2).
Proof. unfold perform. cbn [fst snd]. by destruct (step ph uploads). Qed.

Lemma performAll_cons (now : string) (ph : Phase) (phases : list Phase)
    (st : gmap Id FileUploadState * ChatState) :
  performAll now (ph :: phases) st = performAll now phases (perform now ph st).
Proof. done. Qed.

Lemma performAll_app (now : string) (l1 l2 : list Phase)
    (st : gmap Id FileUploadState * ChatState) :
  performAll now (l1 ++ l2) st = performAll now l2 (performAll now l1 st).
Proof. apply foldl_app. Qed.

Lemma update_lookup (tempId : Id) (f : FileUploadState → FileUploadState)
    (uploads : gmap Id FileUploadState) :
  update tempId f uploads !! tempId = Some (f (default noKeys (uploads !! tempId)))
  ∧ ∀ k, k ≠ tempId → update tempId f uploads !! k = uploads !! k.
Proof.
  unfold update. split; [apply lookup_insert_eq |].
  intros k Hk. by rewrite lookup_insert_ne.
Qed.

(** The reports of one transfer. *)
Lemma reports_state (now : string) (tempId content_id : Id)
    (reports : list UploadProgress) :
  ∀ (uploads : gmap Id FileUploadState) (s : ChatState) (e : FileUploadState),
    uploads !! tempId = Some e →
    let st' := performAll now (Progressed tempId content_id <$> reports) (uploads, s) in
    (∃ e', st'.1 !! tempId = Some e'
           ∧ u_fileId e' = u_fileId e ∧ u_file e' = u_file e
           ∧ u_status e' = u_status e ∧ u_contentId e' = u_contentId e
           ∧ u_error e' = u_error e
           ∧ u_progress e' = last (u_progress e :: (Some <$> reports)) ≫= id)
    ∧ (∀ k, k ≠ tempId → st'.1 !! k = uploads !! k)
    ∧ chatOf st'.2 = chatOf s
    ∧ agentStateByConversation st'.2 = agentStateByConversation s
    ∧ (∀ k, k ≠ content_id → attachments st'.2 !! k = attachments s !! k)
    ∧ (is_Some (attachments st'.2 !! content_id) ↔ is_Some (attachments s !! content_id)).
Proof.
  induction reports as [|p reports IH]; intros uploads s e He.
  - cbn. split; [by exists e |]. done.
  - cbn [fmap list_fmap]. rewrite performAll_cons, perform_step.
    cbn [step fst snd foldl handle].
    destruct (update_lookup tempId (setProgress p) uploads) as (Hat & Hother).
    rewrite He in Hat. cbn [default] in Hat.
    destruct (progress_state content_id p s) as (Hchat & Hag & Hatt & Hsome).
    destruct (IH _ (stateOf (onAttachmentProgress content_id p s)) _ Hat)
      as ((e' & He' & H1 & H2 & H3 & H4 & H5 & H6) & Hk & Hchat' & Hag' & Hatt' & Hsome').
    cbn zeta. split; [| split; [| split; [| split; [| split]]]].
    + exists e'. split; [done |]. by repeat split.
    + intros k Hne. by rewrite Hk, Hother.
    + congruence.
    + congruence.
    + intros k Hne. by rewrite Hatt', Hatt.
    + by rewrite Hsome', Hsome.
Qed.

Lemma putAttachment_lookup (a : AttachmentDoc) (s : ChatState) (c : Id) :
  let ag' := <[c := putAttachment a
                      (default emptyAgentState (agentStateByConversation s !! c))]>
               (agentStateByConversation s) in
  ∀ s', agentStateByConversation s' = ag' →
        conversationAttachment c (a_id a) s' = Some a
        ∧ (∀ k, k ≠ a_id a →
                conversationAttachment c k s' = conversationAttachment c k s)
        ∧ (agentStateByConversation s' !! c ≫= suggestedQuestions)
          = (agentStateByConversation s !! c ≫= suggestedQuestions)
        ∧ ∀ c', c' ≠ c →
                agentStateByConversation s' !! c' = agentStateByConversation s !! c'.
Proof.
  intros ag' s' Hs'. unfold conversationAttachment. rewrite Hs'. subst ag'.
  rewrite lookup_insert_eq. cbn. rewrite lookup_insert_eq.
  split; [done |]. split; [| split].
  - intros k Hk. rewrite lookup_insert_ne by done.
    destruct (agentStateByConversation s !! c) as [st|]; cbn; [| done].
    by destruct (ag_attachments st).
  - by destruct (agentStateByConversation s !! c).
  - intros c' Hc'. by rewrite lookup_insert_ne.
Qed.

Lemma storeAttachment_storedAs (a : AttachmentDoc) (s : ChatState) (meta : AttachmentMeta) :
  a_metadata a = Some meta → storedAs a s (stateOf (storeAttachment a s)).
Proof.
  intros Hmeta.
  destruct (storeAttachment_state a s meta Hmeta) as (Hatt & Hchat & Hag).
  split; [rewrite Hatt; apply lookup_insert_eq |].
  split; [intros k Hk; rewrite Hatt; by rewrite lookup_insert_ne |].
  split; [done |].
  destruct (activeConversationId s) as [c|] eqn:Hc; [destruct (nonEmpty c) eqn:Hne |].
  - destruct (putAttachment_lookup a s c _ Hag) as (H1 & H2 & H3 & H4).
    split; [by intros c' [= <-] _ |]. split; [| split; [| done]].
    + intros conv k Hk. destruct (decide (conv = c)) as [-> | Hconv]; [by apply H2 |].
      unfold conversationAttachment. by rewrite H4.
    + intros conv. destruct (decide (conv = c)) as [-> | Hconv]; [done |].
      by rewrite H4.
  - split; [intros c' [= <-]; congruence |].
    unfold conversationAttachment. rewrite Hag. done.
  - split; [done |]. unfold conversationAttachment. rewrite Hag. done.
Qed.

(** X27.  An uploadFile whose three requests succeed resolves to the content id.
    Its entry in the uploads signal is completed and carries the content id
    and the last progress report; the other entries are as before.  With
    the emitted events handled by the store, the global map and the agent
    state of the active conversation hold exactly the final attachment
    under the content id (available when the completion status is
    available, uploaded otherwise); the attachments under other ids, in the
    global map and in every conversation, the suggested questions and the
    chat are as before.  The cleanup timer removes the entry. *)
Theorem a_finished_upload_is_stored_as_the_final_attachment :
  ∀ (now : string) (file : FileInfo) (tempId content_id : Id) (upload_url status : string)
    (reports : list UploadProgress) (uploads : gmap Id FileUploadState) (s : ChatState),
    let svc := mkService (Resolved (content_id, upload_url)) reports (Resolved tt)
                 (Resolved status) in
    let final := completedAttachment content_id upload_url file status in
    let after := performAll now (uploadFile file tempId svc).1 (uploads, s) in
    (uploadFile file tempId svc).2 = Resolved content_id
    ∧ after.1 !! tempId
      = Some (mkUpload (Some tempId) (Some file)
                (last (Some (mkProgress 0 (file_size file) 0) :: (Some <$> reports)) ≫= id)
                (Some UpCompleted) None (Some content_id))
    ∧ (∀ k, k ≠ tempId → after.1 !! k = uploads !! k)
    ∧ storedAs final s after.2
    ∧ a_state final = (if bool_decide (status = "available")
                       then AttAvailable else AttUploaded)
    ∧ (performAll now [CleanedUp tempId] after).1 = delete tempId after.1.
Proof.
  intros now file t c url status reports uploads s svc final after.
  split; [done |].
  subst after svc. cbn [uploadFile initiate transfer complete UseFileUpload.reports fst].
  rewrite performAll_app, (performAll_cons now (Started file t)),
    (performAll_cons now (Initiated t file c)).
  (* the first two phases *)
  set (e1 := mkUpload (Some t) (Some file) (Some (mkProgress 0 (file_size file) 0))
               (Some UpUploading) None (Some c)).
  set (s1 := stateOf (storeAttachment (uploadingAttachment c file) s)).
  assert (Hfirst : ∃ u1, perform now (Initiated t file c)
                           (perform now (Started file t) (uploads, s))
                         = (u1, s1)
                         ∧ u1 !! t = Some e1
                         ∧ ∀ k, k ≠ t → u1 !! k = uploads !! k).
  { exists (update t (setStatus UpUploading)
              (update t (setContentId c)
                 (<[t := mkUpload (Some t) (Some file)
                           (Some (mkProgress 0 (file_size file) 0)) (Some UpPending)
                           None None]> uploads))).
    split; [reflexivity |]. unfold update. split.
    - by rewrite lookup_insert_eq, !lookup_insert_eq.
    - intros k Hk. by rewrite !lookup_insert_ne. }
  destruct Hfirst as (u1 & -> & Hu1 & Hk1).
  destruct (storeAttachment_storedAs (uploadingAttachment c file) s _ eq_refl)
    as (Ha1 & Hak1 & Hchat1 & Hnew1 & Hold1 & Hq1 & Hnone1).
  fold s1 in Ha1, Hak1, Hchat1, Hnew1, Hold1, Hq1, Hnone1.
  change (a_id (uploadingAttachment c file)) with c in *.
  (* the reports *)
  destruct (reports_state now t c reports u1 s1 e1 Hu1)
    as ((e2 & He2 & Hf2 & Hfile2 & Hst2 & Hc2 & Herr2 & Hp2)
        & Hk2 & Hchat2 & Hag2 & Hak2 & Hsome2).
  destruct (performAll now (Progressed t c <$> reports) (u1, s1)) as [u2 s2] eqn:Hrun2.
  cbn [fst snd] in *.
  (* the last phase *)
  rewrite performAll_cons, perform_step. cbn [performAll foldl step fst snd handle].
  fold final.
  destruct (storeAttachment_storedAs final s2 _ eq_refl)
    as (Ha3 & Hak3 & Hchat3 & Hnew3 & Hold3 & Hq3 & Hnone3).
  change (a_id final) with c in *.
  set (s3 := stateOf (storeAttachment final s2)) in *.
  assert (Hact2 : activeConversationId s2 = activeConversationId s).
  { unfold chatOf in Hchat1, Hchat2. congruence. }
  split.
  { destruct (update_lookup t (fun e => setContentId c (setStatus UpCompleted e)) u2)
      as (-> & _). rewrite He2. cbn [default]. f_equal.
    destruct e2. cbn in *. subst. done. }
  split.
  { intros k Hk.
    destruct (update_lookup t (fun e => setContentId c (setStatus UpCompleted e)) u2)
      as (_ & ->); [| done]. by rewrite Hk2, Hk1. }
  split; [| split; [done |]].
  - assert (Hconv2 : ∀ conv k, conversationAttachment conv k s2
                               = conversationAttachment conv k s1).
    { intros conv k. unfold conversationAttachment. by rewrite Hag2. }
    split; [done |]. split; [intros k Hk; by rewrite Hak3, Hak2, Hak1 |].
    split; [by rewrite Hchat3, Hchat2 |].
    split; [intros c' Hc' Hne'; apply Hnew3; [by rewrite Hact2 | done] |].
    split; [intros conv k Hk; by rewrite Hold3, Hconv2, Hold1 |].
    split; [intros conv; by rewrite Hq3, Hag2, Hq1 |].
    intros Hnone. rewrite Hnone3 by (by rewrite Hact2). rewrite Hag2. by apply Hnone1.
  - done.
Qed.

Lemma failed_state (fileId : Id) (error : option ErrorValue) (s : ChatState) :
  let s' := stateOf (onAttachmentFailed fileId error s) in
  chatOf s' = chatOf s
  ∧ (∀ k, k ≠ fileId → attachments s' !! k = attachments s !! k)
  ∧ (∀ conv k, k ≠ fileId →
               conversationAttachment conv k s' = conversationAttachment conv k s)
  ∧ attachments s' !! fileId = markFailed error <$> attachments s !! fileId
  ∧ (∀ conv, activeConversationId s = Some conv → nonEmpty conv = true →
             conversationAttachment conv fileId s'
             = markFailed error <$> conversationAttachment conv fileId s)
  ∧ (attachments s !! fileId = None → absentFromActiveConversation s fileId → s' = s).
Proof.
  unfold onAttachmentFailed.
  set (s1 := match attachments s !! fileId with
             | Some a => set_attachments (insert fileId (markFailed error a)) s
             | None => s
             end).
  assert (H1 : chatOf s1 = chatOf s
               ∧ agentStateByConversation s1 = agentStateByConversation s
               ∧ (∀ k, k ≠ fileId → attachments s1 !! k = attachments s !! k)
               ∧ attachments s1 !! fileId = markFailed error <$> attachments s !! fileId
               ∧ (attachments s !! fileId = None → s1 = s)).
  { subst s1. destruct (attachments s !! fileId) as [a|] eqn:Ha; cbn.
    - split; [done |]. split; [done |]. split.
      + intros k Hk. by rewrite lookup_insert_ne.
      + by rewrite lookup_insert_eq.
    - by rewrite Ha. }
  destruct H1 as (Hchat1 & Hag1 & Hk1 & Hf1 & Hsame1).
  assert (Hconv1 : ∀ conv k, conversationAttachment conv k s1
                             = conversationAttachment conv k s).
  { intros conv k. unfold conversationAttachment. by rewrite Hag1. }
  assert (Hact1 : activeConversationId s1 = activeConversationId s).
  { unfold chatOf in Hchat1. congruence. }
  cbn zeta. rewrite Hact1.
  destruct (activeConversationId s) as [conv|] eqn:Hactive.
  - destruct (nonEmpty conv) eqn:Hne.
    + rewrite Hconv1.
      destruct (conversationAttachment conv fileId s) as [h|] eqn:Hh.
      * pose proof Hh as Hh'. unfold conversationAttachment in Hh'.
        destruct (agentStateByConversation s !! conv) as [ag|] eqn:Hag; [| done].
        cbn [stateOf]. unfold set_agentStateByConversation.
        cbn [agentStateByConversation attachments chatOf conversations messages
               messagesByConversation streaming toolCallsInProgress activeConversationId].
        rewrite Hag1, Hag. fold (chatOf s1).
        split; [done |]. split; [done |]. split.
        { intros conv' k Hk. unfold conversationAttachment. cbn.
          destruct (decide (conv' = conv)) as [-> | Hc].
          - rewrite lookup_insert_eq, Hag. cbn. rewrite lookup_insert_ne by done.
            by destruct (ag_attachments ag).
          - by rewrite lookup_insert_ne. }
        split; [done |]. split.
        { intros conv' [= <-] _. rewrite Hh. unfold conversationAttachment. cbn.
          rewrite lookup_insert_eq. cbn. by rewrite lookup_insert_eq. }
        intros Hnone Habsent. rewrite (Habsent conv Hactive) in Hh. done.
      * cbn [stateOf]. split; [done |]. split; [done |]. split; [intros; apply Hconv1 |].
        split; [done |]. split.
        { intros conv' [= <-] _. by rewrite Hconv1, Hh. }
        intros Hnone _. by apply Hsame1.
    + cbn [stateOf]. split; [done |]. split; [done |]. split; [intros; apply Hconv1 |].
      split; [done |]. split; [intros conv' [= <-]; congruence |].
      intros Hnone _. by apply Hsame1.
  - cbn [stateOf]. split; [done |]. split; [done |]. split; [intros; apply Hconv1 |].
    split; [done |]. split; [done |]. intros Hnone _. by apply Hsame1.
Qed.

Lemma other_file_state (now : string) (ev : Event) (s : ChatState) (f k : Id) :
  fileOf ev = Some f → k ≠ f →
  let s' := stateOf (handle now ev s) in
  chatOf s' = chatOf s
  ∧ attachments s' !! k = attachments s !! k
  ∧ ∀ conv, conversationAttachment conv k s' = conversationAttachment conv k s.
Proof.
  intros Hev Hk.
  assert (Hstore : ∀ a, a_id a = f →
            let s' := stateOf (storeAttachment a s) in
            chatOf s' = chatOf s
            ∧ attachments s' !! k = attachments s !! k
            ∧ ∀ conv, conversationAttachment conv k s' = conversationAttachment conv k s).
  { intros a Ha. unfold storeAttachment.
    assert (Hatt : mergeAt mergeAttachment (a_id a) a (attachments s) !! k
                   = attachments s !! k) by (apply mergeAt_other; congruence).
    cbn [activeConversationId set_attachments].
    destruct (activeConversationId s) as [c|] eqn:Hc; [destruct (nonEmpty c) eqn:Hne |];
      cbn [stateOf]; (split; [done |]); (split; [exact Hatt |]); try done.
    intros conv. unfold conversationAttachment. cbn.
    destruct (decide (conv = c)) as [-> | Hconv]; [| by rewrite lookup_insert_ne].
    rewrite lookup_insert_eq. cbn. rewrite lookup_insert_ne by congruence.
    destruct (agentStateByConversation s !! c) as [ag|]; cbn; [| done].
    by destruct (ag_attachments ag). }
  destruct ev; cbn [fileOf] in Hev; try done; injection Hev as Hev; cbn [handle].
  - by apply Hstore.
  - subst. destruct (progress_state f progress s) as (Hchat & Hag & Hatt & _).
    split; [done |]. split; [by apply Hatt |].
    intros conv. unfold conversationAttachment. by rewrite Hag.
  - by apply Hstore.
  - subst. destruct (failed_state f error s) as (Hchat & Hatt & Hconv & _).
    split; [done |]. split; [by apply Hatt |]. intros conv. by apply Hconv.
Qed.

Lemma reports_attachment (now : string) (tempId content_id : Id)
    (reports : list UploadProgress) :
  ∀ (uploads : gmap Id FileUploadState) (s : ChatState) (a : AttachmentDoc),
    attachments s !! content_id = Some a →
    ∃ a', attachments (performAll now (Progressed tempId content_id <$> reports)
                         (uploads, s)).2 !! content_id = Some a'
          ∧ a_id a' = a_id a ∧ a_name a' = a_name a.
Proof.
  induction reports as [|p reports IH]; intros uploads s a Ha.
  - exists a. by cbn.
  - cbn [fmap list_fmap]. rewrite performAll_cons, perform_step.
    cbn [step fst snd foldl handle]. unfold onAttachmentProgress. rewrite Ha.
    cbn [stateOf].
    destruct (IH (update tempId (setProgress p) uploads)
                (set_attachments (insert content_id (withProgress p a)) s)
                (withProgress p a)) as (a' & Ha' & Hid & Hname).
    { cbn. apply lookup_insert_eq. }
    exists a'. done.
Qed.

Lemma announced_then_failed (now : string) (file : FileInfo) (t c : Id)
    (reports : list UploadProgress) (message : string)
    (uploads : gmap Id FileUploadState) (s : ChatState) :
  nonEmpty c = true →
  let after := performAll now
                 ((Started file t :: Initiated t file c :: (Progressed t c <$> reports))
                    ++ [Failed t message]) (uploads, s) in
  let error := Some (ErrorObject "UPLOAD_FAILED" message) in
  (∃ e, after.1 !! t = Some e
        ∧ u_status e = Some UpFailed ∧ u_error e = Some message
        ∧ u_fileId e = Some t ∧ u_file e = Some file ∧ u_contentId e = Some c)
  ∧ (∀ k, k ≠ t → after.1 !! k = uploads !! k)
  ∧ chatOf after.2 = chatOf s
  ∧ (∃ g, attachments after.2 !! c = Some g
          ∧ failedWith error g ∧ a_id g = c ∧ a_name g = file_name file)
  ∧ ∀ conv, activeConversationId s = Some conv → nonEmpty conv = true →
            ∃ h, conversationAttachment conv c after.2 = Some h
                 ∧ failedWith error h ∧ a_id h = c ∧ a_name h = file_name file.
Proof.
  intros Hc after error. subst after.
  rewrite performAll_app, (performAll_cons now (Started file t)),
    (performAll_cons now (Initiated t file c)).
  set (e1 := mkUpload (Some t) (Some file) (Some (mkProgress 0 (file_size file) 0))
               (Some UpUploading) None (Some c)).
  set (s1 := stateOf (storeAttachment (uploadingAttachment c file) s)).
  assert (Hfirst : ∃ u1, perform now (Initiated t file c)
                           (perform now (Started file t) (uploads, s))
                         = (u1, s1)
                         ∧ u1 !! t = Some e1
                         ∧ ∀ k, k ≠ t → u1 !! k = uploads !! k).
  { exists (update t (setStatus UpUploading)
              (update t (setContentId c)
                 (<[t := mkUpload (Some t) (Some file)
                           (Some (mkProgress 0 (file_size file) 0)) (Some UpPending)
                           None None]> uploads))).
    split; [reflexivity |]. unfold update. split.
    - by rewrite lookup_insert_eq, !lookup_insert_eq.
    - intros k Hk. by rewrite !lookup_insert_ne. }
  destruct Hfirst as (u1 & -> & Hu1 & Hk1).
  destruct (storeAttachment_storedAs (uploadingAttachment c file) s _ eq_refl)
    as (Ha1 & Hak1 & Hchat1 & Hnew1 & Hold1 & Hq1 & Hnone1).
  fold s1 in Ha1, Hak1, Hchat1, Hnew1, Hold1, Hq1, Hnone1.
  change (a_id (uploadingAttachment c file)) with c in *.
  destruct (reports_state now t c reports u1 s1 e1 Hu1)
    as ((e2 & He2 & Hf2 & Hfile2 & Hst2 & Hc2 & Herr2 & Hp2)
        & Hk2 & Hchat2 & Hag2 & Hak2 & Hsome2).
  destruct (reports_attachment now t c reports u1 s1 _ Ha1) as (a2 & Ha2 & Hid2 & Hname2).
  destruct (performAll now (Progressed t c <$> reports) (u1, s1)) as [u2 s2] eqn:Hrun2.
  cbn [fst snd] in *.
  rewrite performAll_cons, perform_step. cbn [performAll foldl step fst snd handle].
  destruct (update_lookup t (fun e => setError message (setStatus UpFailed e)) u2)
    as (Hu3 & Hk3).
  set (u3 := update t (fun e => setError message (setStatus UpFailed e)) u2) in *.
  rewrite He2 in Hu3. cbn [default] in Hu3.
  assert (Hid : reportedId t u3 = c).
  { unfold reportedId. rewrite Hu3. cbn. rewrite Hc2. cbn. unfold js_or, truthy.
    by rewrite Hc. }
  rewrite Hid. fold error.
  destruct (failed_state c error s2) as (Hchat3 & Hak3 & _ & Ha3 & Hconv3 & _).
  set (s3 := stateOf (onAttachmentFailed c error s2)) in *.
  assert (Hact2 : activeConversationId s2 = activeConversationId s).
  { unfold chatOf in Hchat1, Hchat2. congruence. }
  split.
  { exists (setError message (setStatus UpFailed e2)). split; [done |]. cbn.
    by rewrite Hf2, Hfile2, Hc2. }
  split; [intros k Hk; by rewrite Hk3, Hk2, Hk1 |].
  split; [by rewrite Hchat3, Hchat2 |].
  split.
  { exists (markFailed error a2). rewrite Ha3, Ha2. split; [done |].
    split; [by split |]. cbn. by rewrite Hid2, Hname2. }
  intros conv Hconv Hne. exists (markFailed error (uploadingAttachment c file)).
  rewrite (Hconv3 conv) by (by rewrite ?Hact2). unfold conversationAttachment at 1.
  rewrite Hag2. fold (conversationAttachment conv c s1).
  rewrite (Hnew1 conv Hconv Hne). by repeat split.
Qed.

(** X28.  An uploadFile that is rejected marks its entry in the uploads signal as
    failed, with the message of the error, and leaves the other entries and
    the chat as they were.  When the initiate request failed, the failure is
    reported under the temporary id, which the store has never been told:
    the store stays as it was.  When a later request failed (the content id
    not empty), the attachment that was announced under the content id is
    marked failed, in the global map and in the agent state of the active
    conversation, with the error code UPLOAD_FAILED and the message. *)
Theorem a_failed_upload_is_marked_where_it_was_announced :
  ∀ (now : string) (file : FileInfo) (tempId : Id) (svc : Service) (message : string)
    (uploads : gmap Id FileUploadState) (s : ChatState),
    (uploadFile file tempId svc).2 = Rejected message →
    let after := performAll now (uploadFile file tempId svc).1 (uploads, s) in
    let error := Some (ErrorObject "UPLOAD_FAILED" message) in
    (∃ e, after.1 !! tempId = Some e
          ∧ u_status e = Some UpFailed ∧ u_error e = Some message
          ∧ u_fileId e = Some tempId ∧ u_file e = Some file)
    ∧ (∀ k, k ≠ tempId → after.1 !! k = uploads !! k)
    ∧ chatOf after.2 = chatOf s
    ∧ (∀ m, initiate svc = Rejected m →
            attachments s !! tempId = None →
            absentFromActiveConversation s tempId →
            after.2 = s)
    ∧ (∀ content_id upload_url,
         initiate svc = Resolved (content_id, upload_url) →
         nonEmpty content_id = true →
         (∃ g, attachments after.2 !! content_id = Some g
               ∧ failedWith error g ∧ a_id g = content_id ∧ a_name g = file_name file)
         ∧ ∀ conv, activeConversationId s = Some conv → nonEmpty conv = true →
                   ∃ h, conversationAttachment conv content_id after.2 = Some h
                        ∧ failedWith error h ∧ a_id h = content_id
                        ∧ a_name h = file_name file).
Proof.
  intros now file t [ini reps tr fin] message uploads s Hresult after error.
  destruct ini as [[c url] | m].
  - (* the upload was announced under [c] *)
    assert (Hphases : (uploadFile file t (mkService (Resolved (c, url)) reps tr fin)).1
                      = (Started file t :: Initiated t file c :: (Progressed t c <$> reps))
                          ++ [Failed t message]).
    { cbn in Hresult |- *. destruct tr as [[]|m]; [destruct fin as [status|m] |];
        cbn in Hresult |- *; congruence. }
    subst after. rewrite Hphases.
    split; [| split; [| split; [| split]]].
    + destruct (decide (nonEmpty c = true)) as [Hc | Hc].
      * destruct (announced_then_failed now file t c reps message uploads s Hc)
          as ((e & He & H1 & H2 & H3 & H4 & _) & _). by exists e.
      * (* an empty content id: the bookkeeping is the same *)
        rewrite performAll_app, (performAll_cons now (Started file t)),
          (performAll_cons now (Initiated t file c)).
        set (e1 := mkUpload (Some t) (Some file)
                     (Some (mkProgress 0 (file_size file) 0))
                     (Some UpUploading) None (Some c)).
        assert (Hfirst : ∃ u1 s1, perform now (Initiated t file c)
                                    (perform now (Started file t) (uploads, s))
                                  = (u1, s1) ∧ u1 !! t = Some e1).
        { eexists (update t (setStatus UpUploading)
                     (update t (setContentId c)
                        (<[t := mkUpload (Some t) (Some file)
                                  (Some (mkProgress 0 (file_size file) 0)) (Some UpPending)
                                  None None]> uploads))), _.
          split; [reflexivity |]. unfold update.
          by rewrite lookup_insert_eq, !lookup_insert_eq. }
        destruct Hfirst as (u1 & s1 & -> & Hu1).
        destruct (reports_state now t c reps u1 s1 e1 Hu1)
          as ((e2 & He2 & Hf2 & Hfile2 & _) & _).
        destruct (performAll now (Progressed t c <$> reps) (u1, s1)) as [u2 s2].
        cbn [fst snd] in *.
        rewrite performAll_cons, perform_step. cbn [performAll foldl step fst snd].
        destruct (update_lookup t (fun e => setError message (setStatus UpFailed e)) u2)
          as (-> & _). rewrite He2. eexists. split; [done |]. cbn.
        by rewrite Hf2, Hfile2.
    + intros k Hk.
      rewrite performAll_app, (performAll_cons now (Started file t)),
        (performAll_cons now (Initiated t file c)).
      rewrite !perform_step. cbn [step fst snd].
      set (u1 := update t (setStatus UpUploading) _).
      set (s1 := foldl _ _ _).
      assert (Hk1 : u1 !! k = uploads !! k).
      { subst u1. unfold update. by rewrite !lookup_insert_ne. }
      clearbody u1 s1.
      assert (Hreports : ∀ u s', (performAll now (Progressed t c <$> reps) (u, s')).1 !! k
                                 = u !! k).
      { clear -Hk. induction reps as [|p reps IH]; intros u s'; [done |].
        cbn [fmap list_fmap]. rewrite performAll_cons, perform_step. cbn [step fst snd].
        rewrite IH. unfold update. by rewrite lookup_insert_ne. }
      specialize (Hreports u1 s1).
      destruct (performAll now (Progressed t c <$> reps) (u1, s1)) as [u2 s2].
      cbn [fst snd] in *.
      rewrite performAll_cons, perform_step. cbn [performAll foldl step fst snd].
      unfold update. rewrite lookup_insert_ne by done. congruence.
    + (* every event of the run is an attachment event *)
      assert (Hchat : ∀ phases st,
                chatOf (performAll now phases st).2 = chatOf st.2).
      { induction phases as [|ph phases IH]; intros st; [done |].
        rewrite performAll_cons, IH. destruct st as [u s']. rewrite perform_step.
        cbn [fst snd].
        assert (Hevs : ∀ evs s'',
                  Forall (fun ev => isAttachmentEvent ev = true) evs →
                  chatOf (foldl (fun acc ev => stateOf (handle now ev acc)) s'' evs)
                  = chatOf s'').
        { induction evs as [|ev evs IHe]; intros s'' Hall; [done |].
          apply Forall_cons in Hall as [Hev Hall]. cbn [foldl]. rewrite IHe by done.
          destruct (handle_frames now ev s'') as (Hconv & _ & _ & Hact & Hrest).
          destruct (Hrest (or_intror (or_introl Hev))) as (Hm & Hseq & Hstr & Htools).
          unfold chatOf. rewrite Hm, Hseq, Hstr, Htools, Hconv, Hact; [done | |];
            by destruct ev. }
        apply Hevs. destruct ph; cbn [step snd]; repeat constructor. }
      apply Hchat.
    + intros m Hm. done.
    + intros c' url' [= <- <-] Hc.
      destruct (announced_then_failed now file t c reps message uploads s Hc)
        as (_ & _ & _ & Hglobal & Hconv). done.
  - (* the initiate request failed: nothing was announced *)
    cbn in Hresult. injection Hresult as ->.
    subst after. cbn [uploadFile initiate fst].
    rewrite (performAll_cons now (Started file t)), (performAll_cons now (Failed t message)).
    rewrite !perform_step. cbn [step fst snd foldl performAll handle].
    set (u1 := <[t := _]> uploads).
    assert (Hu2 : update t (fun e => setError message (setStatus UpFailed e)) u1 !! t
                  = Some (mkUpload (Some t) (Some file)
                            (Some (mkProgress 0 (file_size file) 0)) (Some UpFailed)
                            (Some message) None)).
    { unfold update. subst u1. by rewrite lookup_insert_eq, lookup_insert_eq. }
    assert (Hid : reportedId t (update t (fun e => setError message (setStatus UpFailed e)) u1)
                  = t).
    { unfold reportedId. by rewrite Hu2. }
    rewrite Hid. fold error.
    destruct (failed_state t error s) as (Hchat & _ & _ & _ & _ & Hsame).
    split; [eexists; split; [exact Hu2 | done] |].
    split; [intros k Hk; unfold update; subst u1; by rewrite !lookup_insert_ne |].
    split; [done |]. split; [intros m _ Hnone Habsent; by apply Hsame |].
    intros c url Hini. done.
Qed.

Lemma a_failed_upload_is_marked_where_it_was_announced_witness :
  let svc := mkService (Resolved ("f1", "https://up/f1"))
               [mkProgress 5 10 50] (Rejected "Network error during upload")
               (Resolved "available") in
  let after := performAll "t0" (uploadFile picture "temp-1" svc).1 (∅, activeC1) in
  (uploadFile picture "temp-1" svc).2 = Rejected "Network error during upload"
  ∧ (∃ g, attachments after.2 !! "f1" = Some g
          ∧ a_state g = AttFailed
          ∧ a_metadata g
            = Some (mkMeta (Some (mkProgress 5 10 50))
                      (Some (ErrorObject "UPLOAD_FAILED" "Network error during upload"))))
  ∧ ∃ h, conversationAttachment "c1" "f1" after.2 = Some h ∧ a_state h = AttFailed.
Proof.
  intros svc after.
  destruct (a_failed_upload_is_marked_where_it_was_announced "t0" picture "temp-1" svc
              "Network error during upload" ∅ activeC1 eq_refl)
    as (_ & _ & _ & _ & Hannounced).
  destruct (Hannounced "f1" "https://up/f1" eq_refl eq_refl)
    as ((g & Hg & [Hstate _] & _) & Hconv).
  destruct (Hconv "c1" eq_refl eq_refl) as (h & Hh & [Hhstate _] & _).
  split; [done |]. split.
  - exists g. split; [exact Hg |]. split; [exact Hstate |].
    fold after in Hg. vm_compute in Hg. injection Hg as <-. by vm_compute.
  - exists h. split; [exact Hh | exact Hhstate].
Defined.

Lemma foreign_step (t c : Id) (ph : Phase) (uploads : gmap Id FileUploadState)
    (e : FileUploadState) :
  foreignPhase t c ph = true → uploads !! t = Some e → inFlight e = true →
  soleCarrier t c uploads →
  (step ph uploads).1 !! t = Some e
  ∧ soleCarrier t c (step ph uploads).1
  ∧ Forall (fun ev => ∃ f, fileOf ev = Some f ∧ f ≠ c) (step ph uploads).2.
Proof.
  intros Hph He Hflight Hsole.
  assert (Hupdate : ∀ t' f, t' ≠ t →
            (∀ x, u_contentId (f x) = u_contentId x ∨ u_contentId (f x) ≠ Some c) →
            update t' f uploads !! t = Some e ∧ soleCarrier t c (update t' f uploads)).
  { intros t' f Ht' Hf. unfold update. split; [by rewrite lookup_insert_ne |].
    intros k x Hx Hk. destruct (decide (k = t')) as [-> | Hkt].
    - rewrite lookup_insert_eq in Hx. injection Hx as <-.
      destruct (Hf (default noKeys (uploads !! t'))) as [-> | Hne]; [| done].
      destruct (uploads !! t') as [x|] eqn:Hx; [by apply (Hsole t' x) | done].
    - rewrite lookup_insert_ne in Hx by done. by apply (Hsole k x). }
  assert (Hdelete : ∀ t', t' ≠ t →
            delete t' uploads !! t = Some e ∧ soleCarrier t c (delete t' uploads)).
  { intros t' Ht'. split; [by rewrite lookup_delete_ne |].
    intros k x Hx Hk. apply lookup_delete_Some in Hx as [_ Hx]. by apply (Hsole k x). }
  destruct ph; cbn [foreignPhase] in Hph; cbn [step fst snd];
    repeat match goal with
           | H : _ && _ = true |- _ => apply andb_true_iff in H as [? ?]
           | H : negb (bool_decide _) = true |- _ =>
               apply negb_true_iff, bool_decide_eq_false in H
           end.
  - split; [by rewrite lookup_insert_ne |]. split; [| constructor].
    intros k x Hx Hk. destruct (decide (k = tempId)) as [-> | Hkt].
    + rewrite lookup_insert_eq in Hx. by injection Hx as <-.
    + rewrite lookup_insert_ne in Hx by done. by apply (Hsole k x).
  - assert (H1 : update tempId (setContentId content_id) uploads !! t = Some e
                 ∧ soleCarrier t c (update tempId (setContentId content_id) uploads)).
    { apply Hupdate; [done |]. intros x. right. cbn. congruence. }
    destruct H1 as (H1 & Hsole1). split; [| split].
    + unfold update at 1. by rewrite lookup_insert_ne.
    + intros k x Hx Hk. unfold update at 1 in Hx.
      destruct (decide (k = tempId)) as [-> | Hkt].
      * rewrite lookup_insert_eq in Hx. injection Hx as <-.
        unfold update. rewrite lookup_insert_eq. cbn. congruence.
      * rewrite lookup_insert_ne in Hx by done. by apply (Hsole1 k x).
    + repeat constructor. exists content_id. done.
  - destruct (Hupdate tempId (setProgress progress)) as (H1 & H2); [done | by left |].
    split; [done |]. split; [done |]. repeat constructor. by exists content_id.
  - destruct (Hupdate tempId (fun x => setContentId content_id (setStatus UpCompleted x)))
      as (H1 & H2); [done | right; cbn; congruence |].
    split; [done |]. split; [done |]. repeat constructor. by exists content_id.
  - destruct (Hdelete tempId) as (H1 & H2); [done |]. split; [done |].
    split; [done | constructor].
  - destruct (Hupdate tempId (fun x => setError message (setStatus UpFailed x)))
      as (H1 & H2); [done | by left |].
    split; [done |]. split; [done |]. repeat constructor.
    eexists. split; [done |]. unfold reportedId.
    destruct (update_lookup tempId (fun x => setError message (setStatus UpFailed x))
                uploads) as (Hat & _).
    destruct (update tempId _ uploads !! tempId) as [x|] eqn:Hx; [| done].
    cbn. unfold js_or, truthy.
    destruct (u_contentId x) as [cid|] eqn:Hcid; cbn; [| done].
    destruct (nonEmpty cid); cbn; [| done].
    intros ->. by apply (H2 tempId x).
  - destruct (Hdelete fileId) as (H1 & H2); [done |]. split; [done |].
    split; [done | constructor].
  - split; [| split; [| constructor]].
    + apply map_lookup_filter_Some. done.
    + intros k x Hx Hk. apply map_lookup_filter_Some in Hx as [Hx _].
      by apply (Hsole k x).
Qed.

(** X29.  Uploads that run at the same time do not disturb each other.  Let an
    upload with temporary id t and content id c be in flight, and let no
    other entry carry c.  The phases of other uploads (with other temporary
    and content ids), cancelUpload for other ids and clearUploads leave the
    entry of t as it is, and the events they emit leave the copies of the
    attachment c in the store, and the chat, as they are. *)
Theorem the_phases_of_other_uploads_leave_an_upload_alone :
  ∀ (now : string) (t c : Id) (phases : list Phase)
    (uploads : gmap Id FileUploadState) (s : ChatState) (e : FileUploadState),
    forallb (foreignPhase t c) phases = true →
    uploads !! t = Some e → inFlight e = true → soleCarrier t c uploads →
    let after := performAll now phases (uploads, s) in
    after.1 !! t = Some e
    ∧ attachments after.2 !! c = attachments s !! c
    ∧ (∀ conv, conversationAttachment conv c after.2 = conversationAttachment conv c s)
    ∧ chatOf after.2 = chatOf s.
Proof.
  intros now t c phases. induction phases as [|ph phases IH];
    intros uploads s e Hall He Hflight Hsole; [done |].
  cbn [forallb] in Hall. apply andb_true_iff in Hall as [Hph Hall].
  destruct (foreign_step t c ph uploads e Hph He Hflight Hsole) as (He1 & Hsole1 & Hevs).
  cbn zeta. rewrite performAll_cons, perform_step.
  set (s1 := foldl _ s _).
  assert (Hs1 : attachments s1 !! c = attachments s !! c
                ∧ (∀ conv, conversationAttachment conv c s1
                           = conversationAttachment conv c s)
                ∧ chatOf s1 = chatOf s).
  { subst s1. revert Hevs. generalize (step ph uploads).2. clear.
    intros evs. revert s. induction evs as [|ev evs IHe]; intros s Hevs; [done |].
    apply Forall_cons in Hevs as [(f & Hf & Hne) Hevs]. cbn [foldl].
    destruct (IHe (stateOf (handle now ev s)) Hevs) as (-> & Hconv & ->).
    destruct (other_file_state now ev s f c Hf) as (Hchat & Hatt & Hconv'); [done |].
    split; [done |]. split; [| done]. intros conv. by rewrite Hconv. }
  destruct Hs1 as (Hatt1 & Hconv1 & Hchat1).
  destruct (IH (step ph uploads).1 s1 e Hall He1 Hflight Hsole1)
    as (He2 & Hatt2 & Hconv2 & Hchat2).
  split; [done |]. split; [congruence |]. split; [| congruence].
  intros conv. by rewrite Hconv2.
Qed.

Lemma the_phases_of_other_uploads_leave_an_upload_alone_witness :
  let mine := performAll "t0" [Started picture "temp-1"; Initiated "temp-1" picture "f1"]
                (∅, activeC1) in
  let svc := mkService (Rejected "Upload initiate failed: Forbidden") [] (Resolved tt)
               (Resolved "available") in
  let after := performAll "t1" (uploadFile (mkFile "b.txt" "text/plain" 3) "temp-2" svc).1
                 mine in
  after.1 !! "temp-1" = mine.1 !! "temp-1"
  ∧ attachments after.2 !! "f1" = Some (uploadingAttachment "f1" picture)
  ∧ (∃ e, after.1 !! "temp-2" = Some e ∧ u_status e = Some UpFailed).
Proof.
  intros mine svc after.
  destruct (the_phases_of_other_uploads_leave_an_upload_alone "t1" "temp-1" "f1"
              (uploadFile (mkFile "b.txt" "text/plain" 3) "temp-2" svc).1
              mine.1 mine.2
              (mkUpload (Some "temp-1") (Some picture) (Some (mkProgress 0 10 0))
                 (Some UpUploading) None (Some "f1")))
    as (Hmine & Hatt & _).
  - by vm_compute.
  - by vm_compute.
  - by vm_compute.
  - intros k e Hk Hne. destruct (decide (k = "temp-1")) as [-> | Hother]; [done |].
    assert (Hnone : mine.1 !! k = None).
    { subst mine. rewrite !performAll_cons, !perform_step. cbn [step fst snd performAll foldl].
      unfold update. by rewrite !lookup_insert_ne by done. }
    by rewrite Hnone in Hk.
  - change (mine.1, mine.2) with mine in Hmine, Hatt. fold after in Hmine, Hatt.
    split; [rewrite Hmine; by vm_compute |].
    split; [rewrite Hatt; by vm_compute |].
    eexists. split; [by vm_compute | done].
Defined.

(** X30.  cancelUpload on an upload that has been announced removes the entry
    that holds the content id.  A failure of that upload is then reported
    under the temporary id: the store does not hear of it, the attachment
    stays in state uploading in the global map, the entry that the failure
    recreates has the status failed and neither file nor content id, and
    clearUploads removes it. *)
Theorem a_cancelled_upload_fails_under_its_temporary_id :
  ∀ (now : string) (file : FileInfo) (t c : Id) (message : string)
    (uploads : gmap Id FileUploadState) (s : ChatState),
    t ≠ c → attachments s !! t = None → absentFromActiveConversation s t →
    let announced := performAll now [Started file t; Initiated t file c] (uploads, s) in
    let cancelled := perform now (CancelUpload t) announced in
    let failed := perform now (Failed t message) cancelled in
    u_contentId <$> announced.1 !! t = Some (Some c)
    ∧ cancelled.1 !! t = None
    ∧ (step (Failed t message) cancelled.1).2
      = [AttachmentFailed t (Some (ErrorObject "UPLOAD_FAILED" message))]
    ∧ failed.1 !! t
      = Some (mkUpload None None None (Some UpFailed) (Some message) None)
    ∧ failed.2 = announced.2
    ∧ attachments failed.2 !! c = Some (uploadingAttachment c file)
    ∧ (perform now ClearUploads failed).1 !! t = None.
Proof.
  intros now file t c message uploads s Htc Hnone Habsent announced cancelled failed.
  set (u1 := update t (setStatus UpUploading)
               (update t (setContentId c)
                  (<[t := mkUpload (Some t) (Some file)
                            (Some (mkProgress 0 (file_size file) 0)) (Some UpPending)
                            None None]> uploads))).
  set (s1 := stateOf (storeAttachment (uploadingAttachment c file) s)).
  assert (Hann : announced = (u1, s1)) by reflexivity.
  assert (Hcan : cancelled = (delete t u1, s1)) by (subst cancelled; by rewrite Hann).
  destruct (storeAttachment_storedAs (uploadingAttachment c file) s _ eq_refl)
    as (Ha1 & Hak1 & Hchat1 & Hnew1 & Hold1 & Hq1 & Hnone1).
  fold s1 in Ha1, Hak1, Hchat1, Hnew1, Hold1, Hq1, Hnone1.
  change (a_id (uploadingAttachment c file)) with c in *.
  assert (Hgone : delete t u1 !! t = None) by apply lookup_delete_eq.
  assert (Hentry : update t (fun e => setError message (setStatus UpFailed e))
                     (delete t u1) !! t
                   = Some (mkUpload None None None (Some UpFailed) (Some message) None)).
  { unfold update. by rewrite lookup_insert_eq, Hgone. }
  assert (Hid : reportedId t (update t (fun e => setError message (setStatus UpFailed e))
                                (delete t u1)) = t).
  { unfold reportedId. by rewrite Hentry. }
  assert (Hfailed : failed
                    = (update t (fun e => setError message (setStatus UpFailed e))
                         (delete t u1),
                       stateOf (onAttachmentFailed t
                                  (Some (ErrorObject "UPLOAD_FAILED" message)) s1))).
  { subst failed. rewrite Hcan, perform_step. cbn [step fst snd foldl handle].
    by rewrite Hid. }
  assert (Hquiet : stateOf (onAttachmentFailed t
                              (Some (ErrorObject "UPLOAD_FAILED" message)) s1) = s1).
  { destruct (failed_state t (Some (ErrorObject "UPLOAD_FAILED" message)) s1)
      as (_ & _ & _ & _ & _ & Hsame). apply Hsame.
    - by rewrite Hak1.
    - intros conv Hconv.
      assert (Hact : activeConversationId s1 = activeConversationId s)
        by (unfold chatOf in Hchat1; congruence).
      rewrite Hact in Hconv. destruct (nonEmpty conv) eqn:Hne.
      + rewrite Hold1 by done. by apply Habsent.
      + unfold conversationAttachment.
        assert (Hag : agentStateByConversation s1 = agentStateByConversation s).
        { destruct (storeAttachment_state (uploadingAttachment c file) s _ eq_refl)
            as (_ & _ & Hag). fold s1 in Hag. by rewrite Hconv, Hne in Hag. }
        rewrite Hag. by apply Habsent. }
  split; [rewrite Hann; subst u1; unfold update at 1; cbn [fst];
          rewrite lookup_insert_eq; unfold update; by rewrite lookup_insert_eq |].
  split; [by rewrite Hcan |].
  split; [rewrite Hcan; cbn [step fst snd]; by rewrite Hid |].
  split; [by rewrite Hfailed |].
  split; [by rewrite Hfailed, Hann, Hquiet |].
  split; [by rewrite Hfailed, Hquiet |].
  rewrite Hfailed, perform_step. cbn [step fst snd].
  apply map_lookup_filter_None. right. intros e He. rewrite Hentry in He.
  by injection He as <-.
Qed.

Lemma a_cancelled_upload_fails_under_its_temporary_id_witness :
  let announced := performAll "t0" [Started picture "temp-1"; Initiated "temp-1" picture "f1"]
                     (∅, activeC1) in
  let failed := perform "t0" (Failed "temp-1" "Upload aborted")
                  (perform "t0" (CancelUpload "temp-1") announced) in
  (step (Failed "temp-1" "Upload aborted")
     (perform "t0" (CancelUpload "temp-1") announced).1).2
    = [AttachmentFailed "temp-1" (Some (ErrorObject "UPLOAD_FAILED" "Upload aborted"))]
  ∧ attachments failed.2 !! "f1" = Some (uploadingAttachment "f1" picture)
  ∧ conversationAttachment "c1" "f1" failed.2 = Some (uploadingAttachment "f1" picture).
Proof.
  intros announced failed.
  destruct (a_cancelled_upload_fails_under_its_temporary_id "t0" picture "temp-1" "f1"
              "Upload aborted" ∅ activeC1) as (_ & _ & Hevent & _ & _ & Hstill & _).
  - done.
  - done.
  - intros conv Hconv. by vm_compute.
  - split; [exact Hevent |]. split; [| by vm_compute].
    revert Hstill. by vm_compute.
Defined.

